(** * A thread-safe LRU cache: hash index + doubly linked recency list

    Shallow embedding of [lru_cache.py].  Python objects live in an explicit
    store ([heap]) addressed by locations, so that the aliasing between the
    dictionary and the linked list, and between neighbouring nodes, is the
    aliasing of the program.  Methods are computations in a state monad whose
    outcomes are a normal return, a raised exception, or blocking on the lock;
    the state survives an exception, as it does in Python. *)

From stdpp Require Import gmap list.

Open Scope Z_scope.

(** ** Object store *)

Abbreviation loc := nat.

(** A Python reference to a node: [None] is Python's [None]. *)
Abbreviation ref := (option loc).

(** [class _Node]: the four attributes set by [_Node.__init__]. *)
Record _Node : Type := Build_Node {
  key : Z;
  value : Z;
  prev : ref;
  next : ref
}.

(** [class LRUCache]: the attributes set by [LRUCache.__init__], plus the
    store holding the nodes they reference.  [lock] is the state of the
    [threading.Lock]: [true] when held. *)
Record LRUCache : Type := Build_LRUCache {
  capacity : Z;
  cache : gmap Z loc;
  head : loc;
  tail : loc;
  lock : bool;
  heap : gmap loc _Node
}.

Definition with_heap (h : gmap loc _Node) (self : LRUCache) : LRUCache :=
  Build_LRUCache (capacity self) (cache self) (head self) (tail self) (lock self) h.

Definition with_cache (c : gmap Z loc) (self : LRUCache) : LRUCache :=
  Build_LRUCache (capacity self) c (head self) (tail self) (lock self) (heap self).

Definition with_lock (b : bool) (self : LRUCache) : LRUCache :=
  Build_LRUCache (capacity self) (cache self) (head self) (tail self) b (heap self).

(** ** Outcomes and the method monad *)

Inductive exn : Type :=
  | ValueError
  | AttributeError
  | KeyError.

Inductive outcome (A : Type) : Type :=
  | Ret (a : A)
  | Raise (e : exn)
  | Block.
Arguments Ret {A} a.
Arguments Raise {A} e.
Arguments Block {A}.

Definition M (A : Type) : Type := LRUCache → outcome A * LRUCache.

#[global] Instance M_ret : MRet M := λ A a self, (Ret a, self).

#[global] Instance M_bind : MBind M := λ A B f m self,
  match m self with
  | (Ret a, self') => f a self'
  | (Raise e, self') => (Raise e, self')
  | (Block, self') => (Block, self')
  end.

(** Attribute read [r.attr] and attribute write [r.attr = ...] on a node
    reference; on [None] Python raises [AttributeError]. *)
Definition load (r : ref) : M _Node := λ self,
  match r ≫= (λ l, heap self !! l) with
  | Some n => (Ret n, self)
  | None => (Raise AttributeError, self)
  end.

Definition store (r : ref) (f : _Node → _Node) : M unit := λ self,
  match r with
  | Some l =>
      match heap self !! l with
      | Some _ => (Ret tt, with_heap (alter f l (heap self)) self)
      | None => (Raise AttributeError, self)
      end
  | None => (Raise AttributeError, self)
  end.

Definition set_value (v : Z) (n : _Node) : _Node :=
  Build_Node (key n) v (prev n) (next n).
Definition set_prev (p : ref) (n : _Node) : _Node :=
  Build_Node (key n) (value n) p (next n).
Definition set_next (p : ref) (n : _Node) : _Node :=
  Build_Node (key n) (value n) (prev n) p.

(** [_Node(key, value)]: a new object, distinct from every existing one. *)
Definition new_Node (k v : Z) : M ref := λ self,
  let l := fresh (dom (heap self)) in
  (Ret (Some l), with_heap (<[l := Build_Node k v None None]> (heap self)) self).

Definition self_head : M ref := λ self, (Ret (Some (head self)), self).
Definition self_tail : M ref := λ self, (Ret (Some (tail self)), self).
Definition self_cache : M (gmap Z loc) := λ self, (Ret (cache self), self).
Definition self_capacity : M Z := λ self, (Ret (capacity self), self).

(** [del self.cache[k]] raises [KeyError] on a missing key. *)
Definition cache_del (k : Z) : M unit := λ self,
  match cache self !! k with
  | Some _ => (Ret tt, with_cache (delete k (cache self)) self)
  | None => (Raise KeyError, self)
  end.

(** [self.cache[k] = r]. *)
Definition cache_set (k : Z) (r : ref) : M unit := λ self,
  match r with
  | Some l => (Ret tt, with_cache (<[k := l]> (cache self)) self)
  | None => (Raise AttributeError, self)
  end.

(** ** The methods of [LRUCache] *)

(** [LRUCache(capacity)].  The object does not exist before the call, so the
    constructor is a function to an outcome rather than a computation in [M]. *)
Definition __init__ (capacity : Z) : outcome LRUCache :=
  if decide (capacity <= 0) then Raise ValueError
  else
    let h0 : gmap loc _Node := ∅ in
    let hd := fresh (dom h0) in
    let h1 := <[hd := Build_Node 0 0 None None]> h0 in
    let tl := fresh (dom h1) in
    let h2 := <[tl := Build_Node 0 0 None None]> h1 in
    let h3 := alter (set_next (Some tl)) hd h2 in
    let h4 := alter (set_prev (Some hd)) tl h3 in
    Ret (Build_LRUCache capacity ∅ hd tl false h4).

Definition _add_node (node : ref) : M unit :=
  hd ← self_head;
  store node (set_prev hd);;
  h ← load hd;
  store node (set_next (next h));;
  h ← load hd;
  store (next h) (set_prev node);;
  store hd (set_next node).

Definition _remove_node (node : ref) : M unit :=
  n ← load node;
  let prev_node := prev n in
  let next_node := next n in
  store prev_node (set_next next_node);;
  store next_node (set_prev prev_node).

Definition _move_to_head (node : ref) : M unit :=
  _remove_node node;;
  _add_node node.

Definition _pop_tail : M ref :=
  tl ← self_tail;
  t ← load tl;
  let lru_node := prev t in
  _remove_node lru_node;;
  mret lru_node.

(** [with self.lock: body]: acquire (blocking while the lock is held), run
    the body, release on the way out whatever the outcome of the body. *)
Definition acquire : M unit := λ self,
  if lock self then (Block, self) else (Ret tt, with_lock true self).

Definition release : M unit := λ self, (Ret tt, with_lock false self).

Definition with_self_lock {A} (body : M A) : M A := λ self,
  match acquire self with
  | (Ret _, self1) =>
      let '(r, self2) := body self1 in
      (r, snd (release self2))
  | (Raise e, self1) => (Raise e, self1)
  | (Block, self1) => (Block, self1)
  end.

Definition get_body (key : Z) : M Z :=
  c ← self_cache;
  let node := c !! key in
  match node with
  | None => mret (-1)
  | Some _ =>
      _move_to_head node;;
      n ← load node;
      mret (value n)
  end.

Definition get (key : Z) : M Z := with_self_lock (get_body key).

Definition put_body (k v : Z) : M unit :=
  c ← self_cache;
  let node := c !! k in
  match node with
  | None =>
      new_node ← new_Node k v;
      c ← self_cache;
      cap ← self_capacity;
      (if decide (Z.of_nat (size c) >= cap) then
         tl ← _pop_tail;
         t ← load tl;
         cache_del (key t)
       else mret tt);;
      _add_node new_node;;
      cache_set k new_node
  | Some _ =>
      store node (set_value v);;
      _move_to_head node
  end.

Definition put (k v : Z) : M unit := with_self_lock (put_body k v).

(** ** Observing the recency list *)

(** Follow [next] from [r] until the node [stop], collecting the data
    entries on the way.  [fuel] bounds the number of nodes visited. *)
Fixpoint walk (fuel : nat) (h : gmap loc _Node) (r : ref) (stop : loc)
    : option (list (Z * Z)) :=
  match fuel with
  | O => None
  | S fuel' =>
      match r with
      | None => None
      | Some l =>
          if decide (l = stop) then Some []
          else
            n ← h !! l;
            rest ← walk fuel' h (next n) stop;
            Some ((key n, value n) :: rest)
      end
  end.

(** The data entries of the recency list, most recently used first. *)
Definition entries (self : LRUCache) : option (list (Z * Z)) :=
  n ← heap self !! head self;
  walk (size (heap self)) (heap self) (next n) (tail self).

(** ** Sequences of calls *)

Inductive op : Type :=
  | Get (k : Z)
  | Put (k v : Z).

(** One call; the result of [put] (Python's [None]) is dropped. *)
Definition call (o : op) (self : LRUCache) : outcome (option Z) * LRUCache :=
  match o with
  | Get k =>
      match get k self with
      | (Ret r, s) => (Ret (Some r), s)
      | (Raise e, s) => (Raise e, s)
      | (Block, s) => (Block, s)
      end
  | Put k v =>
      match put k v self with
      | (Ret _, s) => (Ret None, s)
      | (Raise e, s) => (Raise e, s)
      | (Block, s) => (Block, s)
      end
  end.

(** Run the calls in order from [self]; the results of the calls that
    returned, and the final state if none raised or blocked. *)
Fixpoint run (ops : list op) (self : LRUCache) : option (list (option Z) * LRUCache) :=
  match ops with
  | [] => Some ([], self)
  | o :: ops' =>
      match call o self with
      | (Ret r, s) =>
          match run ops' s with
          | Some (rs, s') => Some (r :: rs, s')
          | None => None
          end
      | _ => None
      end
  end.

Definition construct_run (cap : Z) (ops : list op) : option (list (option Z) * LRUCache) :=
  match __init__ cap with
  | Ret s => run ops s
  | _ => None
  end.

(** ** Reading one attribute through the store *)

Definition nxt (h : gmap loc _Node) (l : loc) : ref := h !! l ≫= next.
Definition prv (h : gmap loc _Node) (l : loc) : ref := h !! l ≫= prev.
Definition kv (h : gmap loc _Node) (l : loc) : option (Z * Z) :=
  (λ n, (key n, value n)) <$> h !! l.

(** ** Chains of neighbours *)

(** [adj R seq]: every two consecutive elements of [seq] are related by [R]. *)
Fixpoint adj (R : loc → loc → Prop) (seq : list loc) : Prop :=
  match seq with
  | x :: (y :: _) as rest => R x y ∧ adj R rest
  | _ => True
  end.

(** The recency list as a doubly linked chain: [next] leads forward along
    [seq] and [prev] leads backward. *)
Definition fwd (h : gmap loc _Node) : list loc → Prop :=
  adj (λ x y, nxt h x = Some y).
Definition bwd (h : gmap loc _Node) : list loc → Prop :=
  adj (λ x y, prv h y = Some x).

(** What a method leaves alone in the store: no node appears or disappears
    and no key or value changes. *)
Definition same_data (h h' : gmap loc _Node) : Prop :=
  (∀ l, kv h' l = kv h l) ∧ (∀ l, is_Some (h' !! l) ↔ is_Some (h !! l)).

(** ** The representation invariant *)

(** A data entry of the recency list: the node and the (key, value) it holds. *)
Abbreviation entry := (loc * (Z * Z))%type.

Definition index_of (es : list entry) : list (Z * loc) :=
  (λ e, (e.2.1, e.1)) <$> es.

(** [lru_list s es]: the store of [s] holds the two sentinels with exactly the
    nodes of [es] linked between them, in this order, and the dictionary maps
    exactly the keys of [es], each to its own node. *)
Record lru_list (s : LRUCache) (es : list entry) : Prop := {
  lru_nodup : NoDup (head s :: es.*1 ++ [tail s]);
  lru_keys : NoDup (es.*2.*1);
  lru_fwd : fwd (heap s) (head s :: es.*1 ++ [tail s]);
  lru_bwd : bwd (heap s) (head s :: es.*1 ++ [tail s]);
  lru_data : Forall (λ e, kv (heap s) e.1 = Some e.2) es;
  lru_cache : cache s = list_to_map (index_of es)
}.

(** [rep s es]: the state between two calls. *)
Record rep (s : LRUCache) (es : list entry) : Prop := {
  rep_list : lru_list s es;
  rep_size : Z.of_nat (length es) <= capacity s;
  rep_capacity : 0 < capacity s;
  rep_lock : lock s = false
}.

(** ** Reachable states *)

(** The states a client can observe: those left by some sequence of calls on
    a freshly constructed cache. *)
Definition reachable (s : LRUCache) : Prop :=
  ∃ cap ops rs, construct_run cap ops = Some (rs, s).

(** ** Observations used by the specification *)

(** The value stored under [k], read through the dictionary. *)
Definition stored (s : LRUCache) (k : Z) : option Z :=
  n ← cache s !! k; value <$> heap s !! n.

(** The keys held before a call and no longer held after it. *)
Definition evicted (s s' : LRUCache) : gset Z := dom (cache s) ∖ dom (cache s').

(** The one situation in which [put] takes the eviction branch: a key that is
    not indexed, and [len(self.cache) >= self.capacity]. *)
Definition overflow (o : op) (s : LRUCache) : Prop :=
  match o with
  | Get _ => False
  | Put k _ => cache s !! k = None ∧ Z.of_nat (size (cache s)) >= capacity s
  end.

#[global] Instance overflow_dec o s : Decision (overflow o s).
Proof. destruct o; simpl; apply _. Defined.

(** The state left by [ops] on a cache of capacity [cap]; the inert default
    stands for a run that did not complete. *)
Definition state_after (cap : Z) (ops : list op) : LRUCache :=
  match construct_run cap ops with
  | Some (_, s) => s
  | None => Build_LRUCache 0 ∅ 0%nat 0%nat false ∅
  end.

(** A cache of capacity 2 holding keys 1 and 2, key 2 most recently used. *)
Definition demo_full : LRUCache := state_after 2 [Put 1 1; Put 2 2].

(** A cache of capacity 3 holding key 5 only. *)
Definition demo_room : LRUCache := state_after 3 [Put 5 50].

(** A cache of capacity 2 in which key 7 is stored with the value [-1]. *)
Definition demo_minus_one : LRUCache := state_after 2 [Put 7 (-1)].

(** ** Recency as time of last touch *)

(** The key a call touches: the key of a [put], or of a [get] that hits. *)
Definition touched (o : op) (s : LRUCache) : option Z :=
  match o with
  | Get k => match cache s !! k with Some _ => Some k | None => None end
  | Put k _ => Some k
  end.

(** Replay [ops] from [s], call number [now] onwards, recording for every key
    the number of the last call that touched it. *)
Fixpoint touch_log (ops : list op) (s : LRUCache) (now : nat) (stamp : gmap Z nat)
    : gmap Z nat :=
  match ops with
  | [] => stamp
  | o :: ops' =>
      let stamp' :=
        match touched o s with
        | Some k => <[k := now]> stamp
        | None => stamp
        end in
      touch_log ops' (snd (call o s)) (S now) stamp'
  end.

Definition last_touch (cap : Z) (ops : list op) : gmap Z nat :=
  match __init__ cap with
  | Ret s0 => touch_log ops s0 0 ∅
  | _ => ∅
  end.

(** [recent_first stamp bound ks]: every key of [ks] has a stamp, the stamps
    decrease strictly along [ks], and all are below [bound]. *)
Fixpoint recent_first (stamp : gmap Z nat) (bound : nat) (ks : list Z) : Prop :=
  match ks with
  | [] => True
  | k :: ks' => ∃ t, stamp !! k = Some t ∧ (t < bound)%nat ∧ recent_first stamp t ks'
  end.

Abbreviation keys_of es := (es.*2.*1) (only parsing).

(** ** Threads sharing one cache *)

(** Where a worker thread stands in one round of the loop of [worker] in
    the test block, [cache.put(key, i); val = cache.get(key)].  Each call is
    [with self.lock: body], that is acquire, body, release; a thread between
    acquire and release holds the lock. *)
Inductive pc : Type :=
  | Start                 (* before [put] *)
  | PutIn                 (* lock acquired, body of [put] not yet run *)
  | PutOut                (* body of [put] done, lock not yet released *)
  | Mid                   (* between [put] and [get] *)
  | GetIn                 (* lock acquired, body of [get] not yet run *)
  | GetOut (r : Z)        (* body of [get] returned [r], lock not yet released *)
  | Done (r : Z)          (* [get] returned [r] *)
  | Raising (e : exn)     (* a body raised [e], lock not yet released *)
  | Dead (e : exn).       (* the exception left the call *)

Record worker : Type := Build_worker {
  wkey : Z;
  wval : Z;
  at_pc : pc
}.

Definition goto (p : pc) (w : worker) : worker := Build_worker (wkey w) (wval w) p.

Definition holding (w : worker) : bool :=
  match at_pc w with
  | PutIn | PutOut | GetIn | GetOut _ | Raising _ => true
  | Start | Mid | Done _ | Dead _ => false
  end.

(** One step of one thread on the shared cache; [None] when the thread
    cannot move: it waits for the lock, or it has finished.  The bodies run
    only in a thread that holds the lock. *)
Definition worker_step (s : LRUCache) (w : worker) : option (LRUCache * worker) :=
  match at_pc w with
  | Start =>
      match acquire s with
      | (Ret _, s') => Some (s', goto PutIn w)
      | _ => None
      end
  | PutIn =>
      match put_body (wkey w) (wval w) s with
      | (Ret _, s') => Some (s', goto PutOut w)
      | (Raise e, s') => Some (s', goto (Raising e) w)
      | (Block, _) => None
      end
  | PutOut => Some (snd (release s), goto Mid w)
  | Mid =>
      match acquire s with
      | (Ret _, s') => Some (s', goto GetIn w)
      | _ => None
      end
  | GetIn =>
      match get_body (wkey w) s with
      | (Ret r, s') => Some (s', goto (GetOut r) w)
      | (Raise e, s') => Some (s', goto (Raising e) w)
      | (Block, _) => None
      end
  | GetOut r => Some (snd (release s), goto (Done r) w)
  | Raising e => Some (snd (release s), goto (Dead e) w)
  | Done _ | Dead _ => None
  end.

(** An interleaving is the list of the threads that move, in order.  It is
    a possible execution when every thread named in it can move at its turn. *)
Fixpoint interleave (sched : list nat) (s : LRUCache) (ws : list worker)
    : option (LRUCache * list worker) :=
  match sched with
  | [] => Some (s, ws)
  | i :: sched' =>
      w ← ws !! i;
      '(s', w') ← worker_step s w;
      interleave sched' s' (<[i := w']> ws)
  end.

Definition workers (kvs : list (Z * Z)) : list worker :=
  (λ kv, Build_worker kv.1 kv.2 Start) <$> kvs.

(** The result a thread observed, once it has one. *)
Definition observed (w : worker) : option Z :=
  match at_pc w with
  | Done r => Some r
  | _ => None
  end.

(** What the threads have observed at the end of an interleaving. *)
Definition observations (sched : list nat) (s : LRUCache) (ws : list worker)
    : option (list (option Z)) :=
  match interleave sched s ws with
  | Some (_, ws') => Some (observed <$> ws')
  | None => None
  end.

(** ** Keys ahead of a key in the recency list *)

(** The keys standing before [k] in [ks]. *)
Fixpoint before (k : Z) (ks : list Z) : list Z :=
  match ks with
  | [] => []
  | x :: ks' => if decide (x = k) then [] else x :: before k ks'
  end.

(** [safe K k v its]: the entry [(k, v)] is in the list and only keys of [K]
    stand before it. *)
Definition safe (K : list Z) (k v : Z) (its : list (Z * Z)) : Prop :=
  (k, v) ∈ its ∧ Forall (λ x, x ∈ K) (before k its.*1).

(** ** The invariant of the threads *)

(** The number of threads between an acquire and the matching release. *)
Fixpoint holders (ws : list worker) : nat :=
  match ws with
  | [] => 0
  | w :: ws' => Nat.b2n (holding w) + holders ws'
  end.

(** What is known of a thread at each point of its program. *)
Definition worker_ok (K : list Z) (its : list (Z * Z)) (w : worker) : Prop :=
  match at_pc w with
  | Start | PutIn => True
  | PutOut | Mid | GetIn => safe K (wkey w) (wval w) its
  | GetOut r | Done r => r = wval w
  | Raising _ | Dead _ => False
  end.

Definition conc_inv (K : list Z) (s : LRUCache) (ws : list worker) : Prop :=
  ∃ es,
    lru_list s es
    ∧ Z.of_nat (length es) <= capacity s
    ∧ 0 < capacity s
    ∧ Z.of_nat (length K) <= capacity s
    ∧ wkey <$> ws = K
    ∧ NoDup K
    ∧ holders ws = Nat.b2n (lock s)
    ∧ Forall (worker_ok K es.*2) ws.

(** The program of a thread (its key and its value) never changes. *)
Definition job (w : worker) : Z * Z := (wkey w, wval w).

(** The number of steps a thread has still to take, at most. *)
Definition remaining (w : worker) : nat :=
  match at_pc w with
  | Start => 6
  | PutIn => 5
  | PutOut => 4
  | Mid => 3
  | GetIn => 2
  | GetOut _ | Raising _ => 1
  | Done _ | Dead _ => 0
  end.

Fixpoint remaining_all (ws : list worker) : nat :=
  match ws with
  | [] => 0
  | w :: ws' => remaining w + remaining_all ws'
  end.

(** The property of the worker threads as the specification words it: in
    every interleaving, a thread that has a result has the value it wrote. *)
Definition own_value (s : LRUCache) (kvs : list (Z * Z)) : Prop :=
  ∀ sched s' ws',
    interleave sched s (workers kvs) = Some (s', ws') →
    Forall (λ w, ∀ r, observed w = Some r → r = wval w) ws'.

(** Two threads on a cache of capacity 1: the second [put] falls between the
    first thread's [put] and [get]. *)
Definition squeeze : list nat := [0; 0; 0; 1; 1; 1; 0; 0; 0]%nat.

(** Two threads on a cache of capacity 3, their calls interleaved. *)
Definition demo_sched : list nat := [0; 0; 0; 1; 1; 1; 0; 0; 0; 1; 1; 1]%nat.

Definition demo_after : LRUCache * list worker :=
  default (demo_room, []) (interleave demo_sched demo_room (workers [(1, 10); (2, 20)])).

(** ** Further observations *)

(** The key a call is about. *)
Definition op_key (o : op) : Z :=
  match o with
  | Get k => k
  | Put k _ => k
  end.

(** The outer links of the sentinels: [head.prev] and [tail.next], which
    [_Node.__init__] sets to [None]. *)
Definition outer_links (s : LRUCache) : ref * ref :=
  (prv (heap s) (head s), nxt (heap s) (tail s)).

(** A state no sequence of calls produces: the dictionary indexes a node
    that does not exist, so that the bodies of [get] and [put] raise. *)
Definition broken : LRUCache :=
  Build_LRUCache 2 {[1 := 5%nat]} 0%nat 1%nat false ∅.

(** A computation that never waits for the lock. *)
Definition never_blocks {A} (m : M A) : Prop := ∀ s, fst (m s) ≠ Block.

(** A computation that leaves the lock as it finds it. *)
Definition keeps_lock {A} (m : M A) : Prop := ∀ s, lock (snd (m s)) = lock s.

(** ** Interleavings and sequences of calls *)

(** [o] is one of the two calls of some thread of [kvs]. *)
Definition call_of (kvs : list (Z * Z)) (o : op) : Prop :=
  ∃ kv, kv ∈ kvs ∧ (o = Put kv.1 kv.2 ∨ o = Get kv.1).

(** What a thread has read is what its [get] returned in the sequence [ops],
    of results [rs]. *)
Definition worker_lin (ops : list op) (rs : list (option Z)) (w : worker) : Prop :=
  match at_pc w with
  | GetOut r | Done r =>
      ∃ j : nat, ops !! j = Some (Get (wkey w)) ∧ rs !! j = Some (Some r)
  | Raising _ | Dead _ => False
  | _ => True
  end.

(** The shared state is, up to the lock, the state after the calls [ops] run
    one after another from [s0]: the calls whose bodies have run, in the order
    in which they ran. *)
Definition lin_inv (s0 : LRUCache) (kvs : list (Z * Z)) (s : LRUCache)
    (ws : list worker) : Prop :=
  ∃ ops rs es,
    run ops s0 = Some (rs, with_lock false s)
    ∧ rep (with_lock false s) es
    ∧ holders ws = Nat.b2n (lock s)
    ∧ job <$> ws = kvs
    ∧ Forall (call_of kvs) ops
    ∧ Forall (worker_lin ops rs) ws.

(** Two threads on a cache of capacity 1, the second one running its [put]
    between the [put] and the [get] of the first. *)
Definition squeezed : LRUCache * list worker :=
  default (state_after 1 [], [])
    (interleave squeeze (state_after 1 []) (workers [(1, 10); (2, 20)])).

(** * Proofs *)

(** ** Attribute reads after attribute writes *)

Section store_lemmas.
Context (h : gmap loc _Node).
Implicit Types (a x : loc) (p : ref).

Lemma nxt_set_next_eq a p : is_Some (h !! a) → nxt (alter (set_next p) a h) a = p.
Proof. intros [n Hn]. unfold nxt. by rewrite lookup_alter_eq, Hn. Qed.

Lemma nxt_set_next_ne a p x : x ≠ a → nxt (alter (set_next p) a h) x = nxt h x.
Proof. intros. unfold nxt. by rewrite lookup_alter_ne. Qed.

Lemma prv_set_next a p x : prv (alter (set_next p) a h) x = prv h x.
Proof.
  unfold prv. destruct (decide (a = x)) as [->|].
  - rewrite lookup_alter_eq. by destruct (h !! x).
  - by rewrite lookup_alter_ne.
Qed.

Lemma kv_set_next a p x : kv (alter (set_next p) a h) x = kv h x.
Proof.
  unfold kv. destruct (decide (a = x)) as [->|].
  - rewrite lookup_alter_eq. by destruct (h !! x).
  - by rewrite lookup_alter_ne.
Qed.

Lemma prv_set_prev_eq a p : is_Some (h !! a) → prv (alter (set_prev p) a h) a = p.
Proof. intros [n Hn]. unfold prv. by rewrite lookup_alter_eq, Hn. Qed.

Lemma prv_set_prev_ne a p x : x ≠ a → prv (alter (set_prev p) a h) x = prv h x.
Proof. intros. unfold prv. by rewrite lookup_alter_ne. Qed.

Lemma nxt_set_prev a p x : nxt (alter (set_prev p) a h) x = nxt h x.
Proof.
  unfold nxt. destruct (decide (a = x)) as [->|].
  - rewrite lookup_alter_eq. by destruct (h !! x).
  - by rewrite lookup_alter_ne.
Qed.

Lemma kv_set_prev a p x : kv (alter (set_prev p) a h) x = kv h x.
Proof.
  unfold kv. destruct (decide (a = x)) as [->|].
  - rewrite lookup_alter_eq. by destruct (h !! x).
  - by rewrite lookup_alter_ne.
Qed.

Lemma nxt_set_value a v x : nxt (alter (set_value v) a h) x = nxt h x.
Proof.
  unfold nxt. destruct (decide (a = x)) as [->|].
  - rewrite lookup_alter_eq. by destruct (h !! x).
  - by rewrite lookup_alter_ne.
Qed.

Lemma prv_set_value a v x : prv (alter (set_value v) a h) x = prv h x.
Proof.
  unfold prv. destruct (decide (a = x)) as [->|].
  - rewrite lookup_alter_eq. by destruct (h !! x).
  - by rewrite lookup_alter_ne.
Qed.

Lemma kv_set_value_eq a v k v0 :
  kv h a = Some (k, v0) → kv (alter (set_value v) a h) a = Some (k, v).
Proof.
  unfold kv. rewrite lookup_alter_eq. destruct (h !! a); simpl; [|done].
  by intros [= <- _].
Qed.

Lemma kv_set_value_ne a v x : x ≠ a → kv (alter (set_value v) a h) x = kv h x.
Proof. intros. unfold kv. by rewrite lookup_alter_ne. Qed.

Lemma nxt_is_Some x y : nxt h x = Some y → is_Some (h !! x).
Proof. unfold nxt. destruct (h !! x); naive_solver. Qed.

Lemma prv_is_Some x y : prv h x = Some y → is_Some (h !! x).
Proof. unfold prv. destruct (h !! x); naive_solver. Qed.

Lemma kv_is_Some x e : kv h x = Some e → is_Some (h !! x).
Proof. unfold kv. destruct (h !! x); naive_solver. Qed.

Lemma alter_is_Some (f : _Node → _Node) a x :
  is_Some (alter f a h !! x) ↔ is_Some (h !! x).
Proof.
  destruct (decide (a = x)) as [->|].
  - rewrite lookup_alter_eq. by rewrite fmap_is_Some.
  - by rewrite lookup_alter_ne.
Qed.
End store_lemmas.

(** ** Chains of neighbours: lemmas *)

Section adj_lemmas.
Context (R : loc → loc → Prop).

Lemma adj_app xs y ys : adj R (xs ++ y :: ys) ↔ adj R (xs ++ [y]) ∧ adj R (y :: ys).
Proof.
  induction xs as [|x [|x' xs] IH]; simpl in *; [tauto|tauto|].
  rewrite IH. tauto.
Qed.

Lemma adj_mono (R' : loc → loc → Prop) seq :
  (∀ x y, x ∈ seq → y ∈ seq → R x y → R' x y) → adj R seq → adj R' seq.
Proof.
  induction seq as [|x [|y seq] IH]; simpl; [done..|].
  intros HR [Hxy Hrest]. split.
  - apply HR; [rewrite !elem_of_cons; auto..|done].
  - apply IH; [|done]. intros a b Ha Hb Hab.
    apply HR; [rewrite elem_of_cons; auto..|done].
Qed.

Lemma adj_cons2 x y l : adj R (x :: y :: l) ↔ R x y ∧ adj R (y :: l).
Proof. done. Qed.

Lemma adj_succ xs z x : adj R (xs ++ [z]) → x ∈ xs → ∃ y, R x y.
Proof.
  induction xs as [|a [|b xs] IH]; intros Hadj Hx.
  - by apply elem_of_nil in Hx.
  - apply list_elem_of_singleton in Hx as ->.
    apply adj_cons2 in Hadj as [? _]. eauto.
  - apply adj_cons2 in Hadj as [? Hadj].
    apply elem_of_cons in Hx as [->|Hx]; [eauto|by apply IH].
Qed.

Lemma adj_pred x ys z : adj R (x :: ys ++ [z]) → ∃ p, R p z.
Proof.
  revert x. induction ys as [|y ys IH]; intros x Hadj.
  - apply adj_cons2 in Hadj as [? _]. eauto.
  - apply adj_cons2 in Hadj as [_ Hadj]. by apply (IH y).
Qed.

(** Only the first components matter: they all lie before the last element. *)
Lemma adj_mono_l (R' : loc → loc → Prop) xs z :
  (∀ x y, x ∈ xs → R x y → R' x y) → adj R (xs ++ [z]) → adj R' (xs ++ [z]).
Proof.
  induction xs as [|x [|y xs] IH]; simpl; [done| |].
  - intros HR [Hxz _]. split; [|done]. apply HR; [rewrite elem_of_cons; auto|done].
  - intros HR [Hxy Hrest]. split.
    + apply HR; [rewrite elem_of_cons; auto|done].
    + apply IH; [|done]. intros a b Ha Hab.
      apply HR; [rewrite elem_of_cons; auto|done].
Qed.

(** Only the second components matter: they all lie after the first element. *)
Lemma adj_mono_r (R' : loc → loc → Prop) z ys :
  (∀ x y, y ∈ ys → R x y → R' x y) → adj R (z :: ys) → adj R' (z :: ys).
Proof.
  revert z. induction ys as [|y ys IH]; intros z; simpl; [done|].
  intros HR [Hzy Hrest]. split.
  - apply HR; [rewrite elem_of_cons; auto|done].
  - apply IH; [|done]. intros a b Hb Hab.
    apply HR; [rewrite elem_of_cons; auto|done].
Qed.
End adj_lemmas.

(** ** Running the list primitives *)

Lemma load_ok (s : LRUCache) l n :
  heap s !! l = Some n → load (Some l) s = (Ret n, s).
Proof. intros H. unfold load. simpl. by rewrite H. Qed.

Lemma store_ok (s : LRUCache) l f :
  is_Some (heap s !! l) →
  store (Some l) f s = (Ret tt, with_heap (alter f l (heap s)) s).
Proof. intros [n H]. unfold store. by rewrite H. Qed.

Lemma heap_with_heap h (s : LRUCache) : heap (with_heap h s) = h.
Proof. done. Qed.

Lemma with_heap_idem h1 h2 (s : LRUCache) : with_heap h2 (with_heap h1 s) = with_heap h2 s.
Proof. done. Qed.

(** One step of symbolic execution: reduce the exposed matches, then tidy
    the nested store updates. *)
Ltac norm := cbv beta iota; rewrite ?heap_with_heap, ?with_heap_idem.

Lemma nxt_lookup h l y : nxt h l = Some y → ∃ n, h !! l = Some n ∧ next n = Some y.
Proof. unfold nxt. destruct (h !! l); naive_solver. Qed.

Lemma prv_lookup h l y : prv h l = Some y → ∃ n, h !! l = Some n ∧ prev n = Some y.
Proof. unfold prv. destruct (h !! l); naive_solver. Qed.

Lemma same_data_refl h : same_data h h.
Proof. by split. Qed.

Lemma same_data_trans h1 h2 h3 : same_data h1 h2 → same_data h2 h3 → same_data h1 h3.
Proof.
  intros [Ha Hb] [Hc Hd]. split; intros l.
  - by rewrite Hc, Ha.
  - by rewrite Hd, Hb.
Qed.

Lemma same_data_set_next h a p : same_data h (alter (set_next p) a h).
Proof. split; intros l; [apply kv_set_next | apply alter_is_Some]. Qed.

Lemma same_data_set_prev h a p : same_data h (alter (set_prev p) a h).
Proof. split; intros l; [apply kv_set_prev | apply alter_is_Some]. Qed.

(** [_remove_node] on a node [n] standing between [a] and [b]. *)
Lemma _remove_node_spec (s : LRUCache) xs a n b ys :
  NoDup (xs ++ a :: n :: b :: ys) →
  fwd (heap s) (xs ++ a :: n :: b :: ys) →
  bwd (heap s) (xs ++ a :: n :: b :: ys) →
  ∃ h', _remove_node (Some n) s = (Ret tt, with_heap h' s)
        ∧ fwd h' (xs ++ a :: b :: ys)
        ∧ bwd h' (xs ++ a :: b :: ys)
        ∧ same_data (heap s) h'.
Proof.
  intros Hnd Hf Hb. unfold fwd, bwd in *.
  apply adj_app in Hf as [Hf1 Hf2]. simpl in Hf2. destruct Hf2 as (Han & Hnb & Hf2).
  apply adj_app in Hb as [Hb1 Hb2]. simpl in Hb2. destruct Hb2 as (Hna & Hbn & Hb2).
  apply NoDup_app in Hnd as (Hxs & Hdisj & Hnd).
  apply NoDup_cons in Hnd as (Ha & Hnd).
  apply NoDup_cons in Hnd as (Hn & Hnd).
  apply NoDup_cons in Hnd as (Hbys & Hys).
  destruct (nxt_lookup _ _ _ Hnb) as (nd & Hnd1 & Hnd2).
  destruct (prv_lookup _ _ _ Hna) as (nd' & Hnd1' & Hnd2').
  assert (nd' = nd) as -> by congruence.
  pose proof (nxt_is_Some _ _ _ Han) as Hsa.
  pose proof (prv_is_Some _ _ _ Hbn) as Hsb.
  set (h1 := alter (set_next (Some b)) a (heap s)).
  set (h2 := alter (set_prev (Some a)) b h1).
  exists h2. split; [|split; [|split]].
  - unfold _remove_node, mbind, M_bind.
    rewrite (load_ok _ _ _ Hnd1), Hnd2, Hnd2'. norm.
    rewrite store_ok by done. norm. fold h1.
    rewrite store_ok by (norm; by apply alter_is_Some). norm. done.
  - apply adj_app. split; [|split].
    + eapply adj_mono_l; [|exact Hf1]. intros x y Hx Hxy. simpl.
      unfold h2, h1. rewrite nxt_set_prev, nxt_set_next_ne; [done|].
      intros ->. eapply Hdisj; [done|]. by apply elem_of_cons; left.
    + unfold h2, h1. rewrite nxt_set_prev. by apply nxt_set_next_eq.
    + eapply adj_mono; [|exact Hf2]. intros x y Hx _ Hxy. simpl.
      unfold h2, h1. rewrite nxt_set_prev, nxt_set_next_ne; [done|].
      intros ->. apply Ha. apply elem_of_cons. by right.
  - apply adj_app. split; [|split].
    + eapply adj_mono; [|exact Hb1]. intros x y _ Hy Hxy. simpl.
      unfold h2, h1. rewrite prv_set_prev_ne, prv_set_next; [done|].
      intros ->. apply elem_of_app in Hy as [Hy|Hy].
      * eapply Hdisj; [done|]. rewrite !elem_of_cons. auto.
      * apply list_elem_of_singleton in Hy as ->. apply Ha.
        apply elem_of_cons; right. apply elem_of_cons; by left.
    + unfold h2, h1. apply prv_set_prev_eq. by apply alter_is_Some.
    + eapply adj_mono_r; [|exact Hb2]. intros x y Hy Hxy. simpl.
      unfold h2, h1. rewrite prv_set_prev_ne, prv_set_next; [done|].
      intros ->. done.
  - eapply same_data_trans; [apply same_data_set_next|apply same_data_set_prev].
Qed.

(** [_add_node] on a node [n] that is allocated but not linked. *)
Lemma _add_node_spec (s : LRUCache) n b ys :
  NoDup (n :: head s :: b :: ys) →
  is_Some (heap s !! n) →
  fwd (heap s) (head s :: b :: ys) →
  bwd (heap s) (head s :: b :: ys) →
  ∃ h', _add_node (Some n) s = (Ret tt, with_heap h' s)
        ∧ fwd h' (head s :: n :: b :: ys)
        ∧ bwd h' (head s :: n :: b :: ys)
        ∧ same_data (heap s) h'.
Proof.
  intros Hnd Hn Hf Hb. unfold fwd, bwd in *.
  apply adj_cons2 in Hf as [Hhb Hf]. apply adj_cons2 in Hb as [Hbh Hb].
  rewrite !NoDup_cons, !not_elem_of_cons in Hnd.
  destruct Hnd as ((Hnh & Hnb & Hnys) & (Hhb' & Hhys) & Hb1 & Hys).
  pose proof (nxt_is_Some _ _ _ Hhb) as Hsh.
  pose proof (prv_is_Some _ _ _ Hbh) as Hsb.
  set (h1 := alter (set_prev (Some (head s))) n (heap s)).
  set (h2 := alter (set_next (Some b)) n h1).
  set (h3 := alter (set_prev (Some n)) b h2).
  set (h4 := alter (set_next (Some n)) (head s) h3).
  assert (nxt h1 (head s) = Some b) as Hh1b.
  { unfold h1. by rewrite nxt_set_prev. }
  assert (nxt h2 (head s) = Some b) as Hh2b.
  { unfold h2. by rewrite nxt_set_next_ne by done. }
  exists h4. split; [|split; [|split]].
  - unfold _add_node, mbind, M_bind, self_head.
    norm. rewrite store_ok by done. norm. fold h1.
    destruct (nxt_lookup _ _ _ Hh1b) as (hn & Hhn & Hhn').
    rewrite (load_ok (with_heap h1 s) (head s) hn) by done. rewrite Hhn'. norm.
    rewrite store_ok by (norm; by apply alter_is_Some). norm. fold h2.
    destruct (nxt_lookup _ _ _ Hh2b) as (hn2 & Hhn2 & Hhn2').
    rewrite (load_ok (with_heap h2 s) (head s) hn2) by done. rewrite Hhn2'. norm.
    rewrite store_ok by (norm; by do 2 apply alter_is_Some). norm. fold h3.
    rewrite store_ok by (norm; by do 3 apply alter_is_Some). norm. done.
  - apply adj_cons2; split; [|apply adj_cons2; split].
    + unfold h4. apply nxt_set_next_eq. by do 3 apply alter_is_Some.
    + unfold h4, h3. rewrite nxt_set_next_ne, nxt_set_prev by done.
      unfold h2. apply nxt_set_next_eq. by apply alter_is_Some.
    + eapply adj_mono; [|exact Hf]. intros x y Hx _ Hxy. simpl.
      rewrite elem_of_cons in Hx.
      unfold h4, h3, h2, h1.
      rewrite nxt_set_next_ne, nxt_set_prev, nxt_set_next_ne, nxt_set_prev;
        [done|intros ->; by destruct Hx as [?|?]..].
  - apply adj_cons2; split; [|apply adj_cons2; split].
    + unfold h4, h3, h2. rewrite prv_set_next, prv_set_prev_ne, prv_set_next by done.
      unfold h1. by apply prv_set_prev_eq.
    + unfold h4, h3. rewrite prv_set_next. apply prv_set_prev_eq.
      by do 2 apply alter_is_Some.
    + eapply adj_mono_r; [|exact Hb]. intros x y Hy Hxy. simpl.
      unfold h4, h3, h2, h1.
      rewrite prv_set_next, prv_set_prev_ne, prv_set_next, prv_set_prev_ne;
        [done|by intros ->..].
  - unfold h4, h3, h2, h1.
    repeat (eapply same_data_trans;
            [|first [apply same_data_set_next|apply same_data_set_prev]]).
    apply same_data_refl.
Qed.

Lemma snoc_exists {A} (x : A) (l : list A) : ∃ xs a, x :: l = xs ++ [a].
Proof.
  revert x. induction l as [|y l IH]; intros x.
  - by exists [], x.
  - destruct (IH y) as (xs & a & ->). by exists (x :: xs), a.
Qed.

(** The list primitives on a list bounded by the two sentinels. *)
Lemma _add_node_head (s : LRUCache) n l :
  NoDup (n :: head s :: l ++ [tail s]) →
  is_Some (heap s !! n) →
  fwd (heap s) (head s :: l ++ [tail s]) →
  bwd (heap s) (head s :: l ++ [tail s]) →
  ∃ h', _add_node (Some n) s = (Ret tt, with_heap h' s)
        ∧ fwd h' (head s :: n :: l ++ [tail s])
        ∧ bwd h' (head s :: n :: l ++ [tail s])
        ∧ same_data (heap s) h'.
Proof.
  destruct (l ++ [tail s]) as [|b ys] eqn:E.
  { by destruct l. }
  apply _add_node_spec.
Qed.

Lemma _remove_node_mid (s : LRUCache) l1 n l2 :
  NoDup (head s :: l1 ++ n :: l2 ++ [tail s]) →
  fwd (heap s) (head s :: l1 ++ n :: l2 ++ [tail s]) →
  bwd (heap s) (head s :: l1 ++ n :: l2 ++ [tail s]) →
  ∃ h', _remove_node (Some n) s = (Ret tt, with_heap h' s)
        ∧ fwd h' (head s :: l1 ++ l2 ++ [tail s])
        ∧ bwd h' (head s :: l1 ++ l2 ++ [tail s])
        ∧ same_data (heap s) h'.
Proof.
  destruct (snoc_exists (head s) l1) as (xs & a & E1).
  destruct (l2 ++ [tail s]) as [|b ys] eqn:E2.
  { by destruct l2. }
  rewrite !app_comm_cons, E1, <-!app_assoc. simpl.
  apply _remove_node_spec.
Qed.

Lemma _move_to_head_spec (s : LRUCache) l1 n l2 :
  NoDup (head s :: l1 ++ n :: l2 ++ [tail s]) →
  fwd (heap s) (head s :: l1 ++ n :: l2 ++ [tail s]) →
  bwd (heap s) (head s :: l1 ++ n :: l2 ++ [tail s]) →
  ∃ h', _move_to_head (Some n) s = (Ret tt, with_heap h' s)
        ∧ fwd h' (head s :: n :: l1 ++ l2 ++ [tail s])
        ∧ bwd h' (head s :: n :: l1 ++ l2 ++ [tail s])
        ∧ same_data (heap s) h'.
Proof.
  intros Hnd Hf Hb.
  destruct (_remove_node_mid s l1 n l2 Hnd Hf Hb) as (h1 & Hrun & Hf1 & Hb1 & Hd1).
  assert (is_Some (heap s !! n)) as Hn.
  { unfold fwd in Hf. rewrite app_comm_cons in Hf. apply adj_app in Hf as [_ Hf].
    destruct (l2 ++ [tail s]) as [|b ys] eqn:E2; [by destruct l2|].
    apply adj_cons2 in Hf as [Hf _]. by eapply nxt_is_Some. }
  destruct (_add_node_head (with_heap h1 s) n (l1 ++ l2)) as (h2 & Hrun2 & Hf2 & Hb2 & Hd2).
  - simpl. rewrite <-app_assoc.
    by rewrite app_comm_cons, <-Permutation_middle in Hnd.
  - simpl. by apply Hd1.
  - simpl. by rewrite <-app_assoc.
  - simpl. by rewrite <-app_assoc.
  - exists h2. simpl in *. rewrite <-!app_assoc in *. split; [|split; [|split]]; try done.
    + unfold _move_to_head, mbind, M_bind. rewrite Hrun. norm. done.
    + by eapply same_data_trans.
Qed.

Lemma _pop_tail_spec (s : LRUCache) l1 n :
  NoDup (head s :: l1 ++ [n; tail s]) →
  fwd (heap s) (head s :: l1 ++ [n; tail s]) →
  bwd (heap s) (head s :: l1 ++ [n; tail s]) →
  ∃ h', _pop_tail s = (Ret (Some n), with_heap h' s)
        ∧ fwd h' (head s :: l1 ++ [tail s])
        ∧ bwd h' (head s :: l1 ++ [tail s])
        ∧ same_data (heap s) h'.
Proof.
  intros Hnd Hf Hb.
  destruct (_remove_node_mid s l1 n [] Hnd Hf Hb) as (h1 & Hrun & Hf1 & Hb1 & Hd1).
  exists h1. split; [|done].
  unfold bwd in Hb. rewrite app_comm_cons in Hb. apply adj_app in Hb as [_ Hb].
  apply adj_cons2 in Hb as [Hb _].
  destruct (prv_lookup _ _ _ Hb) as (t & Ht & Ht').
  unfold _pop_tail, mbind, M_bind, self_tail. norm.
  rewrite (load_ok _ _ _ Ht), Ht'. norm. rewrite Hrun. done.
Qed.

(** ** Consequences of the representation invariant *)

Lemma index_of_keys es : (index_of es).*1 = es.*2.*1.
Proof. unfold index_of. rewrite <-!list_fmap_compose. by apply list_fmap_ext. Qed.

Lemma kv_lookup h l k v :
  kv h l = Some (k, v) → ∃ n, h !! l = Some n ∧ key n = k ∧ value n = v.
Proof. unfold kv. destruct (h !! l) as [n|]; [|done]. intros [= <- <-]. eauto. Qed.

Section lru_list_lemmas.
Context (s : LRUCache) (es : list entry) (Hs : lru_list s es).

Lemma lru_lookup_Some k n :
  cache s !! k = Some n ↔ ∃ v, (n, (k, v)) ∈ es.
Proof using Hs.
  rewrite (lru_cache _ _ Hs).
  rewrite <-elem_of_list_to_map by (rewrite index_of_keys; apply Hs).
  unfold index_of. rewrite list_elem_of_fmap. split.
  - intros ([n' [k' v]] & [= -> ->] & Hin). eauto.
  - intros [v Hin]. by exists (n, (k, v)).
Qed.

Lemma lru_lookup_None k : cache s !! k = None ↔ k ∉ es.*2.*1.
Proof using Hs.
  rewrite (lru_cache _ _ Hs), <-index_of_keys.
  symmetry. apply not_elem_of_list_to_map.
Qed.

Lemma lru_size : size (cache s) = length es.
Proof using Hs.
  rewrite (lru_cache _ _ Hs), map_size_list_to_map.
  - unfold index_of. by rewrite length_fmap.
  - rewrite index_of_keys. apply Hs.
Qed.

Lemma lru_dom : dom (cache s) = list_to_set (es.*2.*1).
Proof using Hs.
  apply set_eq. intros k. rewrite elem_of_dom, elem_of_list_to_set.
  destruct (cache s !! k) as [n|] eqn:E.
  - split; [intros _|eauto]. apply lru_lookup_Some in E as [v Hin].
    rewrite <-list_fmap_compose. apply list_elem_of_fmap. by exists (n, (k, v)).
  - split; [by intros [? ?]|]. intros Hin. by apply lru_lookup_None in E.
Qed.

End lru_list_lemmas.

Lemma lru_list_with_lock s es b : lru_list s es → lru_list (with_lock b s) es.
Proof. intros []. by split. Qed.

Lemma with_lock_restore h (s : LRUCache) :
  lock s = false → with_lock false (with_heap h (with_lock true s)) = with_heap h s.
Proof. destruct s. simpl. by intros ->. Qed.

Lemma move_front_perm {A} (x0 n : A) l1 l2 l3 :
  x0 :: (l1 ++ n :: l2) ++ l3 ≡ₚ n :: x0 :: l1 ++ l2 ++ l3.
Proof.
  rewrite <-app_assoc. simpl.
  rewrite <-(Permutation_middle l1 (l2 ++ l3) n). apply perm_swap.
Qed.

(** Moving one entry to the front, possibly with a new value, re-establishes
    the list invariant once the links are in place. *)
Lemma lru_list_move (s : LRUCache) h' es1 n k v v' es2 :
  lru_list s (es1 ++ (n, (k, v)) :: es2) →
  fwd h' (head s :: n :: es1.*1 ++ es2.*1 ++ [tail s]) →
  bwd h' (head s :: n :: es1.*1 ++ es2.*1 ++ [tail s]) →
  (∀ l, l ≠ n → kv h' l = kv (heap s) l) →
  kv h' n = Some (k, v') →
  lru_list (with_heap h' s) ((n, (k, v')) :: es1 ++ es2).
Proof.
  intros [Hnd Hk Hf Hb Hd Hc] Hf' Hb' Hframe Hn.
  rewrite !fmap_app, !fmap_cons in Hnd. rewrite !fmap_app, !fmap_cons in Hk.
  simpl in Hnd, Hk.
  rewrite move_front_perm in Hnd.
  rewrite <-Permutation_middle in Hk.
  split; simpl; rewrite ?fmap_app, <-?app_assoc.
  - by rewrite (perm_swap n (head s)).
  - done.
  - done.
  - done.
  - rewrite <-Permutation_middle in Hd. apply Forall_cons in Hd as [_ Hd].
    apply Forall_cons. split; [done|].
    apply NoDup_cons in Hnd as [Hnn _].
    rewrite Forall_forall in Hd |- *. intros e He.
    rewrite Hframe; [by apply Hd|].
    intros Heq. apply Hnn. rewrite <-Heq. apply elem_of_cons. right.
    rewrite app_assoc, elem_of_app. left.
    rewrite <-fmap_app. by apply list_elem_of_fmap_2.
  - rewrite Hc.
    change (<[k:=n]> (list_to_map (index_of (es1 ++ es2))))
      with (list_to_map (index_of ((n, (k, v')) :: es1 ++ es2)) : gmap Z loc).
    apply list_to_map_proper.
    + rewrite index_of_keys, !fmap_app, !fmap_cons. simpl.
      by rewrite <-Permutation_middle.
    + unfold index_of. by rewrite !fmap_app, !fmap_cons, <-Permutation_middle, fmap_app.
Qed.

Lemma get_body_hit (s : LRUCache) es1 n k v es2 :
  lru_list s (es1 ++ (n, (k, v)) :: es2) →
  ∃ h', get_body k s = (Ret v, with_heap h' s)
        ∧ lru_list (with_heap h' s) ((n, (k, v)) :: es1 ++ es2)
        ∧ same_data (heap s) h'.
Proof.
  intros Hs.
  assert (cache s !! k = Some n) as Hc.
  { eapply lru_lookup_Some; [done|]. exists v. apply elem_of_app. right. by left. }
  pose proof Hs as [Hnd _ Hf Hb Hd _].
  rewrite !fmap_app, !fmap_cons, <-?app_assoc in *. simpl in *.
  destruct (_move_to_head_spec s _ _ _ Hnd Hf Hb) as (h' & Hrun & Hf' & Hb' & Hd').
  assert (kv h' n = Some (k, v)) as Hn.
  { destruct Hd' as [-> _]. rewrite Forall_app, Forall_cons in Hd. by destruct Hd as (_ & ? & _). }
  exists h'. split; [|split; [|done]].
  - unfold get_body, mbind, M_bind, self_cache. norm. rewrite Hc.
    unfold mbind, M_bind. rewrite Hrun. norm.
    destruct (kv_lookup _ _ _ _ Hn) as (nd & Hnd1 & _ & Hv).
    rewrite (load_ok (with_heap h' s) n nd) by done. norm. by rewrite <-Hv.
  - eapply lru_list_move; [done..| |done]. intros l _. by destruct Hd' as [-> _].
Qed.

Lemma get_body_miss (s : LRUCache) k :
  cache s !! k = None → get_body k s = (Ret (-1), s).
Proof.
  intros Hc. unfold get_body, mbind, M_bind, self_cache. norm. by rewrite Hc.
Qed.

(** Every node of the chain, sentinels included, is allocated. *)
Lemma chain_alloc h hd ls tl x :
  fwd h (hd :: ls ++ [tl]) → bwd h (hd :: ls ++ [tl]) →
  x ∈ hd :: ls ++ [tl] → is_Some (h !! x).
Proof.
  unfold fwd, bwd. intros Hf Hb.
  rewrite app_comm_cons, elem_of_app, list_elem_of_singleton.
  intros [Hx | ->].
  - rewrite app_comm_cons in Hf.
    destruct (adj_succ _ _ _ _ Hf Hx) as [y Hy]. by eapply nxt_is_Some.
  - destruct (adj_pred _ _ _ _ Hb) as [y Hy]. by eapply prv_is_Some.
Qed.

Lemma lru_list_alloc_all (s : LRUCache) es x :
  lru_list s es → x ∈ head s :: es.*1 ++ [tail s] → is_Some (heap s !! x).
Proof. intros Hs. eapply chain_alloc; apply Hs. Qed.

(** Allocating a node leaves the list as it is. *)
Lemma lru_list_alloc (s : LRUCache) es k v :
  let n := fresh (dom (heap s)) in
  let h1 := <[n := Build_Node k v None None]> (heap s) in
  lru_list s es →
  lru_list (with_heap h1 s) es
  ∧ (n ∉ head s :: es.*1 ++ [tail s])
  ∧ kv h1 n = Some (k, v)
  ∧ (∀ l, l ≠ n → kv h1 l = kv (heap s) l).
Proof.
  intros n h1 Hs.
  assert (heap s !! n = None) as Hfresh.
  { apply not_elem_of_dom. apply is_fresh. }
  assert (n ∉ head s :: es.*1 ++ [tail s]) as Hn.
  { intros Hin. apply (lru_list_alloc_all _ _ _ Hs) in Hin as [? Hin]. congruence. }
  assert (∀ x, x ∈ head s :: es.*1 ++ [tail s] → x ≠ n) as Hne.
  { intros x Hx ->. done. }
  split; [|split; [done|split]].
  - destruct Hs as [Hnd Hk Hf Hb Hd Hc]. split; simpl; try done.
    + eapply adj_mono; [|exact Hf]. intros x y Hx _. simpl.
      unfold h1, nxt. by rewrite lookup_insert_ne by (symmetry; by apply Hne).
    + eapply adj_mono; [|exact Hb]. intros x y _ Hy. simpl.
      unfold h1, prv. by rewrite lookup_insert_ne by (symmetry; by apply Hne).
    + rewrite Forall_forall in Hd |- *. intros e He.
      unfold h1, kv. rewrite lookup_insert_ne; [by apply Hd|].
      symmetry. apply Hne. apply elem_of_cons. right. apply elem_of_app. left.
      by apply list_elem_of_fmap_2.
  - unfold h1, kv. by rewrite lookup_insert_eq.
  - intros l Hl. unfold h1, kv. by rewrite lookup_insert_ne.
Qed.

Lemma put_body_hit (s : LRUCache) es1 n k v0 v es2 :
  lru_list s (es1 ++ (n, (k, v0)) :: es2) →
  ∃ h', put_body k v s = (Ret tt, with_heap h' s)
        ∧ lru_list (with_heap h' s) ((n, (k, v)) :: es1 ++ es2)
        ∧ (∀ l, l ≠ n → kv h' l = kv (heap s) l)
        ∧ (∀ l, is_Some (h' !! l) ↔ is_Some (heap s !! l)).
Proof.
  intros Hs.
  assert (cache s !! k = Some n) as Hc.
  { eapply lru_lookup_Some; [done|]. exists v0. apply elem_of_app. right. by left. }
  pose proof Hs as [Hnd _ Hf Hb Hd _].
  rewrite !fmap_app, !fmap_cons, <-?app_assoc in *. simpl in *.
  rewrite Forall_app, Forall_cons in Hd. destruct Hd as (_ & Hkv & _). simpl in Hkv.
  set (h0 := alter (set_value v) n (heap s)).
  destruct (_move_to_head_spec (with_heap h0 s) (es1.*1) n (es2.*1))
    as (h' & Hrun & Hf' & Hb' & Hd' & Ha'); simpl.
  { done. }
  { eapply adj_mono; [|exact Hf]. intros x y _ _. simpl. unfold h0. by rewrite nxt_set_value. }
  { eapply adj_mono; [|exact Hb]. intros x y _ _. simpl. unfold h0. by rewrite prv_set_value. }
  simpl in *.
  exists h'. split; [|split; [|split]].
  - unfold put_body, mbind, M_bind, self_cache. norm. rewrite Hc.
    unfold mbind, M_bind. rewrite store_ok by (by eapply kv_is_Some). norm. fold h0.
    by rewrite Hrun.
  - eapply lru_list_move; [done..| |].
    + intros l Hl. rewrite Hd'. unfold h0. by apply kv_set_value_ne.
    + rewrite Hd'. unfold h0. by eapply kv_set_value_eq.
  - intros l Hl. rewrite Hd'. unfold h0. by apply kv_set_value_ne.
  - intros l. rewrite Ha'. unfold h0. apply alter_is_Some.
Qed.

(** Linking an allocated node at the head and indexing it. *)
Lemma push_spec (s : LRUCache) es n k v :
  lru_list s es →
  n ∉ head s :: es.*1 ++ [tail s] →
  kv (heap s) n = Some (k, v) →
  k ∉ es.*2.*1 →
  ∃ h', _add_node (Some n) s = (Ret tt, with_heap h' s)
        ∧ lru_list (with_cache (<[k:=n]> (cache s)) (with_heap h' s)) ((n, (k, v)) :: es)
        ∧ same_data (heap s) h'.
Proof.
  intros [Hnd Hk Hf Hb Hd Hc] Hn Hkv Hfresh.
  destruct (_add_node_head s n (es.*1)) as (h' & Hrun & Hf' & Hb' & Hd' & Ha');
    [by apply NoDup_cons|by eapply kv_is_Some|done..|].
  exists h'. split; [done|]. split; [|done].
  split; simpl.
  - rewrite (perm_swap n (head s)). by apply NoDup_cons.
  - by apply NoDup_cons.
  - done.
  - done.
  - apply Forall_cons. split; [by rewrite Hd'|].
    eapply Forall_impl; [exact Hd|]. intros e He. by rewrite Hd'.
  - by rewrite Hc.
Qed.

(** Unlinking the node before the tail sentinel and dropping its key. *)
Lemma evict_spec (s : LRUCache) es1 e ke ve :
  lru_list s (es1 ++ [(e, (ke, ve))]) →
  ∃ h', _pop_tail s = (Ret (Some e), with_heap h' s)
        ∧ (∃ t, h' !! e = Some t ∧ key t = ke)
        ∧ cache s !! ke = Some e
        ∧ lru_list (with_cache (delete ke (cache s)) (with_heap h' s)) es1
        ∧ same_data (heap s) h'.
Proof.
  intros Hs. pose proof Hs as [Hnd Hk Hf Hb Hd Hc].
  rewrite !fmap_app, <-?app_assoc in Hnd, Hf, Hb. simpl in Hnd, Hf, Hb.
  rewrite !fmap_app in Hk. simpl in Hk.
  destruct (_pop_tail_spec s _ _ Hnd Hf Hb) as (h' & Hrun & Hf' & Hb' & Hd' & Ha').
  apply Forall_app in Hd as [Hd1 Hd2]. apply Forall_cons in Hd2 as [Hkv _]. simpl in Hkv.
  exists h'. split; [done|]. split; [|split; [|split; [|done]]].
  - rewrite <-Hd' in Hkv. destruct (kv_lookup _ _ _ _ Hkv) as (t & ? & ? & _). eauto.
  - eapply lru_lookup_Some; [done|]. exists ve. apply elem_of_app. right. by left.
  - apply NoDup_app in Hk as (Hk1 & Hk2 & _).
    split; simpl.
    + rewrite app_comm_cons in Hnd. apply NoDup_app in Hnd as (Hnd1 & Hnd2 & Hnd3).
      rewrite app_comm_cons. apply NoDup_app. split; [done|]. split.
      * intros x Hx Hx'. apply (Hnd2 x Hx). apply elem_of_cons. by right.
      * apply NoDup_singleton.
    + done.
    + done.
    + done.
    + eapply Forall_impl; [exact Hd1|]. intros x Hx. by rewrite Hd'.
    + rewrite Hc. unfold index_of. rewrite fmap_app. simpl.
      assert (ke ∉ (index_of es1).*1) as Hke.
      { rewrite index_of_keys. intros Hin. apply (Hk2 ke Hin). by left. }
      rewrite list_to_map_snoc by done.
      rewrite delete_insert_eq. apply delete_id.
      by apply not_elem_of_list_to_map_1.
Qed.

Lemma put_body_miss_room (s : LRUCache) es k v :
  lru_list s es →
  cache s !! k = None →
  Z.of_nat (size (cache s)) < capacity s →
  ∃ n h', put_body k v s = (Ret tt, with_cache (<[k:=n]> (cache s)) (with_heap h' s))
          ∧ lru_list (with_cache (<[k:=n]> (cache s)) (with_heap h' s)) ((n, (k, v)) :: es)
          ∧ heap s !! n = None
          ∧ (∀ l, l ≠ n → kv h' l = kv (heap s) l).
Proof.
  intros Hs Hc Hroom.
  destruct (lru_list_alloc s es k v Hs) as (Hs1 & Hn & Hkv & Hframe).
  set (n := fresh (dom (heap s))) in *.
  set (h1 := <[n := Build_Node k v None None]> (heap s)) in *.
  destruct (push_spec (with_heap h1 s) es n k v) as (h' & Hrun & Hs' & Hd' & Ha');
    [done..|by eapply lru_lookup_None|].
  exists n, h'. split; [|split; [done|split]].
  - unfold put_body, mbind, M_bind, self_cache. norm. rewrite Hc.
    unfold mbind, M_bind, new_Node, self_cache, self_capacity. norm. fold n h1.
    change (cache (with_heap h1 s)) with (cache s).
    change (capacity (with_heap h1 s)) with (capacity s).
    destruct (decide (Z.of_nat (size (cache s)) >= capacity s)) as [?|_]; [lia|].
    unfold mret, M_ret. norm. rewrite Hrun. norm. done.
  - apply not_elem_of_dom. apply is_fresh.
  - intros l Hl. rewrite Hd'. by apply Hframe.
Qed.

Lemma put_body_miss_evict (s : LRUCache) es1 e ke ve k v :
  lru_list s (es1 ++ [(e, (ke, ve))]) →
  cache s !! k = None →
  Z.of_nat (size (cache s)) >= capacity s →
  ∃ n h', put_body k v s
            = (Ret tt, with_cache (<[k:=n]> (delete ke (cache s))) (with_heap h' s))
          ∧ lru_list (with_cache (<[k:=n]> (delete ke (cache s))) (with_heap h' s))
                     ((n, (k, v)) :: es1)
          ∧ heap s !! n = None
          ∧ (∀ l, l ≠ n → kv h' l = kv (heap s) l).
Proof.
  intros Hs Hc Hfull.
  destruct (lru_list_alloc s _ k v Hs) as (Hs1 & Hn & Hkv & Hframe).
  set (n := fresh (dom (heap s))) in *.
  set (h1 := <[n := Build_Node k v None None]> (heap s)) in *.
  destruct (evict_spec (with_heap h1 s) es1 e ke ve Hs1)
    as (h2 & Hrun2 & (t & Ht & Hkt) & Hce & Hs2 & Hd2 & Ha2).
  simpl in Hs2, Hd2, Ha2, Hce.
  set (s2 := with_cache (delete ke (cache s)) (with_heap h2 s)) in *.
  assert (k ∉ es1.*2.*1) as Hk.
  { intros Hin. apply (lru_lookup_None _ _ Hs k) in Hc. apply Hc.
    rewrite !fmap_app. apply elem_of_app. by left. }
  destruct (push_spec s2 es1 n k v) as (h' & Hrun & Hs' & Hd' & Ha'); [done| | |done|].
  { intros Hin. apply Hn. rewrite fmap_app, <-app_assoc.
    apply elem_of_cons in Hin as [->|Hin]; [by left|]. right.
    apply elem_of_app in Hin as [Hin|Hin]; apply elem_of_app; [by left|right].
    simpl. by right. }
  { simpl. by rewrite Hd2. }
  exists n, h'. split; [|split; [done|split]].
  - unfold put_body, mbind, M_bind, self_cache. norm. rewrite Hc.
    unfold mbind, M_bind, new_Node, self_cache, self_capacity. norm. fold n h1.
    change (cache (with_heap h1 s)) with (cache s).
    change (capacity (with_heap h1 s)) with (capacity s).
    destruct (decide (Z.of_nat (size (cache s)) >= capacity s)) as [_|?]; [|lia].
    unfold mbind, M_bind. rewrite Hrun2. norm.
    rewrite (load_ok (with_heap h2 s) e t) by done. norm. rewrite Hkt.
    unfold cache_del. change (cache (with_heap h2 s)) with (cache s). rewrite Hce. norm.
    fold s2. rewrite Hrun. norm. done.
  - apply not_elem_of_dom. apply is_fresh.
  - intros l Hl. rewrite Hd', Hd2. by apply Hframe.
Qed.

(** ** The public methods between calls *)

Lemma with_self_lock_free {A} (body : M A) (s : LRUCache) :
  lock s = false →
  with_self_lock body s
  = (fst (body (with_lock true s)), with_lock false (snd (body (with_lock true s)))).
Proof.
  intros Hl. unfold with_self_lock, acquire. rewrite Hl.
  by destruct (body (with_lock true s)).
Qed.

Lemma with_lock_restore_cache c h (s : LRUCache) :
  lock s = false →
  with_lock false (with_cache c (with_heap h (with_lock true s)))
  = with_cache c (with_heap h s).
Proof. destruct s. simpl. by intros ->. Qed.

Lemma with_lock_id (s : LRUCache) :
  lock s = false → with_lock false (with_lock true s) = s.
Proof. destruct s. simpl. by intros ->. Qed.

Lemma get_miss (s : LRUCache) k :
  lock s = false → cache s !! k = None → get k s = (Ret (-1), s).
Proof.
  intros Hl Hc. unfold get. rewrite with_self_lock_free by done.
  rewrite get_body_miss by done. simpl. by rewrite with_lock_id.
Qed.

Lemma get_hit (s : LRUCache) es1 n k v es2 :
  rep s (es1 ++ (n, (k, v)) :: es2) →
  ∃ h', get k s = (Ret v, with_heap h' s)
        ∧ rep (with_heap h' s) ((n, (k, v)) :: es1 ++ es2)
        ∧ same_data (heap s) h'.
Proof.
  intros [Hs Hsz Hcap Hl].
  destruct (get_body_hit (with_lock true s) es1 n k v es2) as (h' & Hrun & Hs' & Hd').
  { by apply lru_list_with_lock. }
  exists h'. split; [|split; [|done]].
  - unfold get. rewrite with_self_lock_free by done. rewrite Hrun. simpl.
    by rewrite with_lock_restore.
  - split; simpl; try done.
    + destruct Hs' as []. by split.
    + rewrite length_app in Hsz. simpl in Hsz. rewrite length_app. lia.
Qed.

Lemma put_hit (s : LRUCache) es1 n k v0 v es2 :
  rep s (es1 ++ (n, (k, v0)) :: es2) →
  ∃ h', put k v s = (Ret tt, with_heap h' s)
        ∧ rep (with_heap h' s) ((n, (k, v)) :: es1 ++ es2)
        ∧ (∀ l, l ≠ n → kv h' l = kv (heap s) l).
Proof.
  intros [Hs Hsz Hcap Hl].
  destruct (put_body_hit (with_lock true s) es1 n k v0 v es2) as (h' & Hrun & Hs' & Hd' & _).
  { by apply lru_list_with_lock. }
  exists h'. split; [|split; [|done]].
  - unfold put. rewrite with_self_lock_free by done. rewrite Hrun. simpl.
    by rewrite with_lock_restore.
  - split; simpl; try done.
    + destruct Hs' as []. by split.
    + rewrite length_app in Hsz. simpl in Hsz. rewrite length_app. lia.
Qed.

Lemma put_miss_room (s : LRUCache) es k v :
  rep s es →
  cache s !! k = None →
  Z.of_nat (size (cache s)) < capacity s →
  ∃ n h', put k v s = (Ret tt, with_cache (<[k:=n]> (cache s)) (with_heap h' s))
          ∧ rep (with_cache (<[k:=n]> (cache s)) (with_heap h' s)) ((n, (k, v)) :: es)
          ∧ heap s !! n = None
          ∧ (∀ l, l ≠ n → kv h' l = kv (heap s) l).
Proof.
  intros [Hs Hsz Hcap Hl] Hc Hroom.
  destruct (put_body_miss_room (with_lock true s) es k v)
    as (n & h' & Hrun & Hs' & Hn & Hd'); [by apply lru_list_with_lock|done..|].
  exists n, h'. split; [|split; [|done]].
  - unfold put. rewrite with_self_lock_free by done. rewrite Hrun. simpl.
    by rewrite with_lock_restore_cache.
  - split; simpl; try done.
    + destruct Hs' as []. by split.
    + rewrite (lru_size _ _ Hs) in Hroom. lia.
Qed.

Lemma put_miss_evict (s : LRUCache) es1 e ke ve k v :
  rep s (es1 ++ [(e, (ke, ve))]) →
  cache s !! k = None →
  Z.of_nat (size (cache s)) >= capacity s →
  ∃ n h', put k v s = (Ret tt, with_cache (<[k:=n]> (delete ke (cache s))) (with_heap h' s))
          ∧ rep (with_cache (<[k:=n]> (delete ke (cache s))) (with_heap h' s))
                ((n, (k, v)) :: es1)
          ∧ heap s !! n = None
          ∧ (∀ l, l ≠ n → kv h' l = kv (heap s) l).
Proof.
  intros [Hs Hsz Hcap Hl] Hc Hfull.
  destruct (put_body_miss_evict (with_lock true s) es1 e ke ve k v)
    as (n & h' & Hrun & Hs' & Hn & Hd'); [by apply lru_list_with_lock|done..|].
  exists n, h'. split; [|split; [|done]].
  - unfold put. rewrite with_self_lock_free by done. rewrite Hrun. simpl.
    by rewrite with_lock_restore_cache.
  - split; simpl; try done.
    + destruct Hs' as []. by split.
    + rewrite length_app in Hsz. simpl in Hsz. lia.
Qed.

Lemma __init___spec cap :
  0 < cap → ∃ s, __init__ cap = Ret s ∧ rep s [] ∧ capacity s = cap.
Proof.
  intros Hcap. unfold __init__.
  destruct (decide (cap <= 0)) as [?|_]; [lia|].
  set (hd := fresh (dom (∅ : gmap loc _Node))).
  set (h1 := <[hd := Build_Node 0 0 None None]> (∅ : gmap loc _Node)).
  set (tl := fresh (dom h1)).
  set (h2 := <[tl := Build_Node 0 0 None None]> h1).
  assert (tl ≠ hd) as Hne.
  { intros Heq. apply (is_fresh (dom h1)). fold tl. rewrite Heq.
    unfold h1. rewrite dom_insert_L. set_solver. }
  eexists. split; [done|]. split; [|done].
  split; simpl; [|lia|lia|done].
  split; simpl.
  - apply NoDup_cons. split; [|apply NoDup_singleton].
    rewrite list_elem_of_singleton. congruence.
  - apply NoDup_nil_2.
  - split; [|done]. fold h1 tl h2. rewrite nxt_set_prev.
    apply nxt_set_next_eq. unfold h2, h1.
    rewrite lookup_insert_ne, lookup_insert_eq by done. eauto.
  - split; [|done]. fold h1 tl h2. apply prv_set_prev_eq.
    apply alter_is_Some. unfold h2. rewrite lookup_insert_eq. eauto.
  - done.
  - done.
Qed.

(** ** The recency list as an observer sees it *)

Lemma walk_chain h tl es : ∀ p fuel,
  fwd h (p :: es.*1 ++ [tl]) →
  tl ∉ es.*1 →
  Forall (λ e : entry, kv h e.1 = Some e.2) es →
  (length es < fuel)%nat →
  walk fuel h (nxt h p) tl = Some es.*2.
Proof.
  unfold fwd. induction es as [|[l [k v]] es IH]; intros p fuel Hf Htl Hd Hfuel.
  - destruct fuel as [|fuel]; [simpl in Hfuel; lia|].
    apply adj_cons2 in Hf as [-> _]. simpl. by rewrite decide_True.
  - destruct fuel as [|fuel]; [simpl in Hfuel; lia|].
    rewrite fmap_cons in Hf, Htl. cbn [fst] in Hf, Htl.
    apply adj_cons2 in Hf as [Hpl Hf]. apply not_elem_of_cons in Htl as [Hne Htl].
    apply Forall_cons in Hd as [Hkv Hd]. simpl in Hkv.
    destruct (kv_lookup _ _ _ _ Hkv) as (n & Hn & <- & <-).
    simpl. rewrite Hpl, decide_False by done. rewrite Hn. simpl.
    specialize (IH l fuel Hf Htl Hd). unfold nxt in IH. rewrite Hn in IH. simpl in IH.
    rewrite IH by (simpl in Hfuel; lia). done.
Qed.

Lemma chain_fits_store (s : LRUCache) es :
  lru_list s es → (length es + 2 ≤ size (heap s))%nat.
Proof.
  intros Hs.
  assert (length (head s :: es.*1 ++ [tail s]) ≤ size (dom (heap s)))%nat as Hle.
  { apply submseteq_length, NoDup_submseteq; [apply Hs|].
    intros x Hx. apply elem_of_elements, elem_of_dom. by eapply lru_list_alloc_all. }
  rewrite size_dom in Hle. simpl in Hle. rewrite length_app, length_fmap in Hle.
  simpl in Hle. lia.
Qed.

Lemma entries_lru_list (s : LRUCache) es : lru_list s es → entries s = Some es.*2.
Proof.
  intros Hs. pose proof (chain_fits_store _ _ Hs) as Hfit.
  destruct Hs as [Hnd Hk Hf Hb Hd Hc].
  assert (is_Some (heap s !! head s)) as [hn Hhn].
  { eapply chain_alloc; [done..|]. by left. }
  unfold entries. rewrite Hhn. simpl.
  rewrite <-(walk_chain (heap s) (tail s) es (head s) (size (heap s))).
  - unfold nxt. by rewrite Hhn.
  - done.
  - apply NoDup_cons in Hnd as [_ Hnd]. apply NoDup_app in Hnd as (_ & Hdisj & _).
    intros Hin. apply (Hdisj _ Hin). by left.
  - done.
  - lia.
Qed.

(** ** What each call does to a well-formed cache *)

Lemma rep_present (s : LRUCache) es k n :
  rep s es → cache s !! k = Some n → ∃ es1 v es2, es = es1 ++ (n, (k, v)) :: es2.
Proof.
  intros Hs Hc. apply (lru_lookup_Some _ _ (rep_list _ _ Hs)) in Hc as [v Hin].
  apply list_elem_of_split in Hin as (es1 & es2 & ->). eauto.
Qed.

Lemma rep_full_nonempty (s : LRUCache) es :
  rep s es → Z.of_nat (size (cache s)) >= capacity s →
  ∃ es1 e ke ve, es = es1 ++ [(e, (ke, ve))].
Proof.
  intros Hs Hfull. rewrite (lru_size _ _ (rep_list _ _ Hs)) in Hfull.
  pose proof (rep_capacity _ _ Hs).
  destruct es as [|x es]; [simpl in Hfull; lia|].
  destruct (snoc_exists x es) as (es1 & [e [ke ve]] & ->). eauto.
Qed.

Lemma get_cases (s : LRUCache) es k :
  rep s es →
  (cache s !! k = None ∧ get k s = (Ret (-1), s))
  ∨ (∃ es1 n v es2 h',
        es = es1 ++ (n, (k, v)) :: es2
        ∧ cache s !! k = Some n
        ∧ get k s = (Ret v, with_heap h' s)
        ∧ rep (with_heap h' s) ((n, (k, v)) :: es1 ++ es2)
        ∧ same_data (heap s) h').
Proof.
  intros Hs. destruct (cache s !! k) as [n|] eqn:Hc.
  - right. destruct (rep_present _ _ _ _ Hs Hc) as (es1 & v & es2 & ->).
    destruct (get_hit s es1 n k v es2 Hs) as (h' & ? & ? & ?).
    exists es1, n, v, es2, h'. done.
  - left. split; [done|]. apply get_miss; [apply Hs|done].
Qed.

Lemma put_cases (s : LRUCache) es k v :
  rep s es →
  (∃ es1 n v0 es2 h',
      es = es1 ++ (n, (k, v0)) :: es2
      ∧ cache s !! k = Some n
      ∧ put k v s = (Ret tt, with_heap h' s)
      ∧ rep (with_heap h' s) ((n, (k, v)) :: es1 ++ es2)
      ∧ (∀ l, l ≠ n → kv h' l = kv (heap s) l))
  ∨ (cache s !! k = None ∧ Z.of_nat (size (cache s)) < capacity s
     ∧ ∃ n h',
         put k v s = (Ret tt, with_cache (<[k:=n]> (cache s)) (with_heap h' s))
         ∧ rep (with_cache (<[k:=n]> (cache s)) (with_heap h' s)) ((n, (k, v)) :: es)
         ∧ heap s !! n = None
         ∧ (∀ l, l ≠ n → kv h' l = kv (heap s) l))
  ∨ (cache s !! k = None ∧ Z.of_nat (size (cache s)) >= capacity s
     ∧ ∃ es1 e ke ve n h',
         es = es1 ++ [(e, (ke, ve))]
         ∧ put k v s
           = (Ret tt, with_cache (<[k:=n]> (delete ke (cache s))) (with_heap h' s))
         ∧ rep (with_cache (<[k:=n]> (delete ke (cache s))) (with_heap h' s))
               ((n, (k, v)) :: es1)
         ∧ heap s !! n = None
         ∧ (∀ l, l ≠ n → kv h' l = kv (heap s) l)).
Proof.
  intros Hs. destruct (cache s !! k) as [n|] eqn:Hc.
  - left. destruct (rep_present _ _ _ _ Hs Hc) as (es1 & v0 & es2 & ->).
    destruct (put_hit s es1 n k v0 v es2 Hs) as (h' & ? & ? & ?).
    exists es1, n, v0, es2, h'. done.
  - right. destruct (decide (Z.of_nat (size (cache s)) >= capacity s)) as [Hfull|Hroom].
    + right. split; [done|]. split; [done|].
      destruct (rep_full_nonempty _ _ Hs Hfull) as (es1 & e & ke & ve & ->).
      destruct (put_miss_evict s es1 e ke ve k v Hs Hc Hfull) as (n & h' & ? & ? & ? & ?).
      exists es1, e, ke, ve, n, h'. done.
    + left. split; [done|]. split; [lia|].
      apply put_miss_room; [done..|lia].
Qed.

(** ** Every reachable state is well formed *)

Lemma call_rep (s : LRUCache) es o :
  rep s es → ∃ r s' es', call o s = (Ret r, s') ∧ rep s' es' ∧ capacity s' = capacity s.
Proof.
  intros Hs. destruct o as [k|k v]; simpl.
  - destruct (get_cases s es k Hs) as [[_ ->]|(es1 & n & v & es2 & h' & _ & _ & -> & ? & _)];
      eauto 10.
  - destruct (put_cases s es k v Hs)
      as [(es1 & n & v0 & es2 & h' & _ & _ & -> & ? & _)
         |[(_ & _ & n & h' & -> & ? & _)
          |(_ & _ & es1 & e & ke & ve & n & h' & _ & -> & ? & _)]]; eauto 10.
Qed.

Lemma run_rep ops : ∀ (s : LRUCache) es,
  rep s es → ∃ rs s' es', run ops s = Some (rs, s') ∧ rep s' es' ∧ capacity s' = capacity s.
Proof.
  induction ops as [|o ops IH]; intros s es Hs; simpl.
  - eauto 10.
  - destruct (call_rep s es o Hs) as (r & s1 & es1 & -> & Hs1 & Hcap1).
    destruct (IH s1 es1 Hs1) as (rs & s' & es' & -> & Hs' & Hcap').
    exists (r :: rs), s', es'. split; [done|]. split; [done|]. congruence.
Qed.

Lemma run_rep_inv ops (s : LRUCache) es rs s' :
  rep s es → run ops s = Some (rs, s') → ∃ es', rep s' es'.
Proof.
  intros Hs Hrun. destruct (run_rep ops s es Hs) as (rs' & s'' & es' & Hrun' & Hs' & _).
  rewrite Hrun in Hrun'. injection Hrun' as -> ->. eauto.
Qed.

Lemma reachable_rep (s : LRUCache) : reachable s → ∃ es, rep s es.
Proof.
  intros (cap & ops & rs & Hrun). unfold construct_run, __init__ in Hrun.
  destruct (decide (cap <= 0)) as [?|Hcap]; [done|].
  destruct (__init___spec cap) as (s0 & Hinit & Hs0 & _); [lia|].
  unfold __init__ in Hinit. rewrite decide_False in Hinit by done.
  injection Hinit as Hinit. rewrite Hinit in Hrun.
  by eapply run_rep_inv.
Qed.

(** Every sequence of calls on a constructed cache runs to its end: no call
    raises and none blocks. *)
Lemma construct_run_total cap ops : 0 < cap → is_Some (construct_run cap ops).
Proof.
  intros Hcap. destruct (__init___spec cap Hcap) as (s0 & Hinit & Hs0 & _).
  unfold construct_run. rewrite Hinit.
  destruct (run_rep ops s0 [] Hs0) as (rs & s' & es' & -> & _). eauto.
Qed.

Lemma reachable_call (s : LRUCache) o r s' :
  reachable s → call o s = (Ret r, s') → reachable s'.
Proof.
  intros (cap & ops & rs & Hrun) Hcall. exists cap, (ops ++ [o]), (rs ++ [r]).
  unfold construct_run in *. destruct (__init__ cap) as [s0| |]; [|done..].
  revert rs s0 Hrun. induction ops as [|o' ops IH]; intros rs s0 Hrun; simpl in *.
  - injection Hrun as <- <-. by rewrite Hcall.
  - destruct (call o' s0) as [[r1| |] s1]; [|done..].
    destruct (run ops s1) as [[rs1 s2]|] eqn:E; [|done].
    injection Hrun as <- <-. by rewrite (IH rs1 s1 E).
Qed.

Lemma state_after_reachable cap ops :
  is_Some (construct_run cap ops) → reachable (state_after cap ops).
Proof.
  intros [[rs s] H]. exists cap, ops, rs. unfold state_after. by rewrite H.
Qed.

Lemma demo_full_reachable : reachable demo_full.
Proof. exists 2, [Put 1 1; Put 2 2], [None; None]. vm_compute. reflexivity. Defined.

Lemma demo_room_reachable : reachable demo_room.
Proof. exists 3, [Put 5 50], [None]. vm_compute. reflexivity. Defined.

(** ** Recency as time of last touch: lemmas *)

Section recent_first_lemmas.
Context (stamp : gmap Z nat).

Lemma recent_first_weaken b b' ks :
  (b ≤ b')%nat → recent_first stamp b ks → recent_first stamp b' ks.
Proof.
  destruct ks as [|k ks]; [done|]. simpl.
  intros Hb (t & ? & ? & ?). exists t. split; [done|]. split; [lia|done].
Qed.

Lemma recent_first_remove b l1 x l2 :
  recent_first stamp b (l1 ++ x :: l2) → recent_first stamp b (l1 ++ l2).
Proof.
  revert b. induction l1 as [|k l1 IH]; intros b; simpl.
  - intros (t & _ & ? & ?). apply (recent_first_weaken t); [lia|done].
  - intros (t & ? & ? & ?). exists t. split; [done|]. split; [done|]. by apply IH.
Qed.

Lemma recent_first_frame b k t ks :
  k ∉ ks → recent_first stamp b ks → recent_first (<[k:=t]> stamp) b ks.
Proof.
  revert b. induction ks as [|k' ks IH]; intros b Hk; [done|]. simpl.
  apply not_elem_of_cons in Hk as [Hne Hk].
  intros (t' & ? & ? & ?). exists t'. rewrite lookup_insert_ne by done.
  split; [done|]. split; [done|]. by apply IH.
Qed.

Lemma recent_first_last b l1 e :
  recent_first stamp b (l1 ++ [e]) →
  ∃ te, stamp !! e = Some te
        ∧ ∀ k', k' ∈ l1 → ∃ t', stamp !! k' = Some t' ∧ (te < t')%nat.
Proof.
  revert b. induction l1 as [|k l1 IH]; intros b; simpl.
  - intros (te & ? & _). exists te. split; [done|]. intros k' Hk'.
    by apply elem_of_nil in Hk'.
  - intros (t & Ht & Hlt & Hrest).
    assert (∃ te, stamp !! e = Some te ∧ (te < t)%nat) as (te' & Hte' & Hlt').
    { clear IH Ht Hlt. revert t Hrest. induction l1 as [|k1 l1 IH1]; intros t; simpl.
      - intros (te & ? & ? & _). eauto.
      - intros (t1 & _ & ? & Hrest). destruct (IH1 t1 Hrest) as (te & ? & ?).
        exists te. split; [done|lia]. }
    destruct (IH t Hrest) as (te & Hte & Hall).
    exists te. split; [done|]. intros k' Hk'.
    apply elem_of_cons in Hk' as [->|Hk']; [|by apply Hall].
    exists t. split; [done|]. congruence.
Qed.
End recent_first_lemmas.

Lemma recent_first_touch stamp now k ks :
  k ∉ ks → recent_first stamp now ks →
  recent_first (<[k:=now]> stamp) (S now) (k :: ks).
Proof.
  intros Hk Hks. simpl. exists now. rewrite lookup_insert_eq.
  split; [done|]. split; [lia|]. by apply recent_first_frame.
Qed.

Lemma keys_move_fresh (s : LRUCache) es1 n k v es2 :
  lru_list s (es1 ++ (n, (k, v)) :: es2) → k ∉ keys_of (es1 ++ es2).
Proof.
  intros Hs. pose proof (lru_keys _ _ Hs) as Hk.
  rewrite !fmap_app, !fmap_cons in Hk. simpl in Hk.
  rewrite <-Permutation_middle in Hk. apply NoDup_cons in Hk as [Hk _].
  by rewrite !fmap_app.
Qed.

(** One call keeps the recency list ordered by time of last touch. *)
Lemma call_recent_first (s : LRUCache) es o stamp now r s' :
  rep s es →
  recent_first stamp now (keys_of es) →
  call o s = (Ret r, s') →
  ∃ es', rep s' es'
         ∧ recent_first
             (match touched o s with Some k => <[k := now]> stamp | None => stamp end)
             (S now) (keys_of es').
Proof.
  intros Hs Hrf Hcall. destruct o as [k|k v]; simpl in Hcall |- *.
  - destruct (get_cases s es k Hs)
      as [[Hc Hget]|(es1 & n & v & es2 & h' & -> & Hc & Hget & Hs' & _)];
      rewrite Hget in Hcall; injection Hcall as <- <-; rewrite Hc.
    + exists es. split; [done|]. apply (recent_first_weaken _ now); [lia|done].
    + eexists. split; [exact Hs'|]. rewrite !fmap_cons. simpl.
      rewrite !fmap_app, !fmap_cons in Hrf. simpl in Hrf.
      apply recent_first_remove in Hrf.
      apply recent_first_touch; rewrite !fmap_app; [|done].
      rewrite <-!fmap_app. by eapply keys_move_fresh, Hs.
  - destruct (put_cases s es k v Hs)
      as [(es1 & n & v0 & es2 & h' & -> & Hc & Hput & Hs' & _)
         |[(Hc & Hroom & n & h' & Hput & Hs' & _)
          |(Hc & Hfull & es1 & e & ke & ve & n & h' & -> & Hput & Hs' & _)]];
      rewrite Hput in Hcall; injection Hcall as <- <-.
    + eexists. split; [exact Hs'|]. rewrite !fmap_cons. simpl.
      rewrite !fmap_app, !fmap_cons in Hrf. simpl in Hrf.
      apply recent_first_remove in Hrf.
      apply recent_first_touch; rewrite !fmap_app; [|done].
      rewrite <-!fmap_app. by eapply keys_move_fresh, Hs.
    + eexists. split; [exact Hs'|]. rewrite !fmap_cons. simpl.
      apply recent_first_touch; [|done].
      by apply (lru_lookup_None _ _ (rep_list _ _ Hs)).
    + eexists. split; [exact Hs'|]. rewrite !fmap_cons. simpl.
      apply (lru_lookup_None _ _ (rep_list _ _ Hs)) in Hc.
      rewrite !fmap_app in Hrf, Hc. simpl in Hrf.
      apply recent_first_remove in Hrf. rewrite app_nil_r in Hrf.
      apply recent_first_touch; [|done].
      intros Hin. apply Hc. apply elem_of_app. by left.
Qed.

Lemma run_recent_first ops : ∀ (s : LRUCache) es stamp now rs s',
  rep s es →
  recent_first stamp now (keys_of es) →
  run ops s = Some (rs, s') →
  ∃ es', rep s' es'
         ∧ recent_first (touch_log ops s now stamp) (now + length ops) (keys_of es').
Proof.
  induction ops as [|o ops IH]; intros s es stamp now rs s' Hs Hrf Hrun; simpl in *.
  - injection Hrun as <- <-. exists es. split; [done|].
    apply (recent_first_weaken _ now); [lia|done].
  - destruct (call o s) as [[r| |] s1] eqn:Hcall; [|done..].
    destruct (run ops s1) as [[rs1 s2]|] eqn:Hrun1; [|done].
    injection Hrun as <- <-.
    destruct (call_recent_first s es o stamp now r s1 Hs Hrf Hcall) as (es1 & Hs1 & Hrf1).
    destruct (IH s1 es1 _ (S now) rs1 s2 Hs1 Hrf1 Hrun1) as (es' & Hs' & Hrf').
    exists es'. split; [done|]. simpl.
    replace (now + S (length ops))%nat with (S now + length ops)%nat by lia. done.
Qed.

(** ** Threads sharing one cache: lemmas *)

Example two_workers_in_turn :
  observations [0; 0; 0; 0; 0; 0; 1; 1; 1; 1; 1; 1]%nat demo_room (workers [(1, 10); (2, 20)])
  = Some [Some 10; Some 20].
Proof. vm_compute. reflexivity. Qed.

Example lock_excludes :
  interleave [0; 1]%nat demo_room (workers [(1, 10); (2, 20)]) = None.
Proof. vm_compute. reflexivity. Qed.

Lemma before_remove k l1 y l2 x :
  y ≠ k → x ∈ before k (l1 ++ l2) → x ∈ before k (l1 ++ y :: l2).
Proof.
  intros Hy. induction l1 as [|a l1 IH]; simpl.
  - rewrite decide_False by done. intros Hx. apply elem_of_cons. by right.
  - destruct (decide (a = k)); [done|].
    rewrite !elem_of_cons. intros [->|Hx]; [by left|]. right. by apply IH.
Qed.

Lemma before_snoc k l x : k ∈ l → before k (l ++ [x]) = before k l.
Proof.
  induction l as [|a l IH]; simpl.
  - intros Hk. by apply elem_of_nil in Hk.
  - destruct (decide (a = k)); [done|].
    intros Hk. apply elem_of_cons in Hk as [->|Hk]; [done|]. by rewrite IH.
Qed.

Lemma before_last k l : k ∉ l → before k (l ++ [k]) = l.
Proof.
  induction l as [|a l IH]; simpl.
  - by rewrite decide_True.
  - intros Hk. apply not_elem_of_cons in Hk as [Hne Hk].
    rewrite decide_False by done. by rewrite IH.
Qed.

Section safe_lemmas.
Context (K : list Z) (k v kj vj : Z) (Hne : kj ≠ k) (Hkj : kj ∈ K).

Lemma safe_self its : safe K kj vj ((kj, vj) :: its).
Proof. split; [by left|]. simpl. by rewrite decide_True. Qed.

Lemma safe_push its : safe K k v its → safe K k v ((kj, vj) :: its).
Proof using Hne Hkj.
  intros [Hin Hbef]. split; [by right|].
  simpl. rewrite decide_False by done. by apply Forall_cons.
Qed.

Lemma safe_move l1 v0 l2 :
  safe K k v (l1 ++ (kj, v0) :: l2) → safe K k v ((kj, vj) :: l1 ++ l2).
Proof using Hne Hkj.
  intros [Hin Hbef]. apply safe_push. split.
  - rewrite elem_of_app, elem_of_cons in Hin. rewrite elem_of_app.
    destruct Hin as [?|[[= ? ?]|?]]; [by left|congruence|by right].
  - rewrite Forall_forall in Hbef |- *. intros x Hx. apply Hbef.
    rewrite fmap_app, fmap_cons. rewrite fmap_app in Hx. by apply before_remove.
Qed.

Lemma safe_evict l0 ke ve :
  NoDup K → k ∈ K →
  NoDup (l0 ++ [(ke, ve)]).*1 →
  kj ∉ (l0 ++ [(ke, ve)]).*1 →
  (length K ≤ length (l0 ++ [(ke, ve)]))%nat →
  safe K k v (l0 ++ [(ke, ve)]) → safe K k v ((kj, vj) :: l0).
Proof using Hne Hkj.
  intros HK Hk Hnd Hfresh Hfull [Hin Hbef].
  rewrite fmap_app in Hnd, Hfresh, Hbef. simpl in Hnd, Hfresh, Hbef.
  apply NoDup_app in Hnd as (Hnd0 & Hdisj & _).
  assert (ke ∉ l0.*1) as Hke.
  { intros Hx. apply (Hdisj _ Hx). by left. }
  assert (ke ≠ k) as Hkek.
  { intros ->. rewrite before_last in Hbef by done.
    assert (length (k :: kj :: l0.*1) ≤ length K)%nat as Hlen.
    { apply submseteq_length, NoDup_submseteq.
      - apply NoDup_cons. split.
        + rewrite not_elem_of_cons. split; [done|done].
        + apply NoDup_cons. split; [|done].
          intros Hx. apply Hfresh. apply elem_of_app. by left.
      - rewrite Forall_forall in Hbef. intros x.
        rewrite !elem_of_cons. intros [->|[->|Hx]]; [done|done|by apply Hbef]. }
    simpl in Hlen. rewrite length_fmap in Hlen.
    rewrite length_app in Hfull. simpl in Hfull. lia. }
  assert ((k, v) ∈ l0) as Hin0.
  { rewrite elem_of_app, list_elem_of_singleton in Hin.
    destruct Hin as [?|[= ? ?]]; [done|congruence]. }
  apply safe_push. split; [done|].
  rewrite before_snoc in Hbef; [done|].
  apply list_elem_of_fmap. by exists (k, v).
Qed.
End safe_lemmas.

(** ** The bodies run under the lock *)

Lemma get_body_present (s : LRUCache) es k v :
  lru_list s es → (k, v) ∈ es.*2 →
  ∃ es1 n es2 s',
    es = es1 ++ (n, (k, v)) :: es2
    ∧ get_body k s = (Ret v, s')
    ∧ lru_list s' ((n, (k, v)) :: es1 ++ es2)
    ∧ capacity s' = capacity s ∧ lock s' = lock s.
Proof.
  intros Hs Hin. apply list_elem_of_fmap in Hin as ([n [k' v']] & [= <- <-] & Hin).
  apply list_elem_of_split in Hin as (es1 & es2 & ->).
  destruct (get_body_hit s es1 n k v es2 Hs) as (h' & Hrun & Hs' & _).
  exists es1, n, es2, (with_heap h' s). done.
Qed.

Lemma put_body_cases (s : LRUCache) es k v :
  lru_list s es → 0 < capacity s →
  (∃ es1 n v0 es2 s',
      es = es1 ++ (n, (k, v0)) :: es2
      ∧ put_body k v s = (Ret tt, s')
      ∧ lru_list s' ((n, (k, v)) :: es1 ++ es2)
      ∧ capacity s' = capacity s ∧ lock s' = lock s)
  ∨ ((k ∉ keys_of es) ∧ Z.of_nat (length es) < capacity s
     ∧ ∃ n s',
         put_body k v s = (Ret tt, s')
         ∧ lru_list s' ((n, (k, v)) :: es)
         ∧ capacity s' = capacity s ∧ lock s' = lock s)
  ∨ ((k ∉ keys_of es) ∧ Z.of_nat (length es) >= capacity s
     ∧ ∃ es1 e ke ve n s',
         es = es1 ++ [(e, (ke, ve))]
         ∧ put_body k v s = (Ret tt, s')
         ∧ lru_list s' ((n, (k, v)) :: es1)
         ∧ capacity s' = capacity s ∧ lock s' = lock s).
Proof.
  intros Hs Hcap. pose proof (lru_size _ _ Hs) as Hsize.
  destruct (cache s !! k) as [n|] eqn:Hc.
  - left. apply (lru_lookup_Some _ _ Hs) in Hc as [v0 Hin].
    apply list_elem_of_split in Hin as (es1 & es2 & ->).
    destruct (put_body_hit s es1 n k v0 v es2 Hs) as (h' & ? & ? & _).
    exists es1, n, v0, es2, (with_heap h' s). done.
  - right. pose proof (proj1 (lru_lookup_None _ _ Hs k) Hc) as Hk.
    destruct (decide (Z.of_nat (size (cache s)) >= capacity s)) as [Hfull|Hroom].
    + right. split; [done|]. split; [lia|].
      destruct es as [|x es]; [simpl in *; lia|].
      destruct (snoc_exists x es) as (es1 & [e [ke ve]] & Hsnoc).
      rewrite Hsnoc in Hs.
      destruct (put_body_miss_evict s es1 e ke ve k v Hs Hc Hfull) as (n & h' & ? & ? & _).
      exists es1, e, ke, ve, n, (with_cache (<[k:=n]> (delete ke (cache s))) (with_heap h' s)).
      done.
    + left. split; [done|]. split; [lia|].
      destruct (put_body_miss_room s es k v Hs Hc) as (n & h' & ? & ? & _); [lia|].
      exists n, (with_cache (<[k:=n]> (cache s)) (with_heap h' s)). done.
Qed.

Lemma holders_insert (ws : list worker) (i : nat) w w' :
  ws !! i = Some w →
  (holders (<[i:=w']> ws) + Nat.b2n (holding w) = holders ws + Nat.b2n (holding w'))%nat.
Proof.
  revert i. induction ws as [|x ws IH]; intros [|i] Hi; simpl in *; try done.
  - injection Hi as ->. lia.
  - specialize (IH i Hi). lia.
Qed.

Lemma holders_member ws w : w ∈ ws → (Nat.b2n (holding w) ≤ holders ws)%nat.
Proof.
  induction ws as [|x ws IH]; simpl.
  - intros Hw. by apply elem_of_nil in Hw.
  - intros Hw. apply elem_of_cons in Hw as [->|Hw]; [lia|].
    specialize (IH Hw). lia.
Qed.

Lemma workers_goto (ws : list worker) (i : nat) w p :
  ws !! i = Some w → wkey <$> <[i:=goto p w]> ws = wkey <$> ws.
Proof.
  intros Hi. rewrite list_fmap_insert. simpl. apply list_insert_id.
  by rewrite list_lookup_fmap, Hi.
Qed.

(** After thread [i] has moved, the other threads are the ones that were
    there, and their keys differ from the key of thread [i]. *)
Lemma Forall_insert_others (P Q : worker → Prop) (ws : list worker) (i : nat) w w' :
  NoDup (wkey <$> ws) →
  ws !! i = Some w →
  Forall P ws →
  (∀ x, x ∈ ws → wkey x ≠ wkey w → P x → Q x) →
  Q w' →
  Forall Q (<[i:=w']> ws).
Proof.
  intros Hnd Hi HP Himp Hw'. apply Forall_lookup. intros j x Hj.
  destruct (decide (i = j)) as [->|Hij].
  - rewrite list_lookup_insert_eq in Hj by (by eapply lookup_lt_Some).
    by injection Hj as <-.
  - rewrite list_lookup_insert_ne in Hj by done.
    apply Himp.
    + by eapply list_elem_of_lookup_2.
    + intros Heq. apply Hij. eapply NoDup_lookup; [exact Hnd| |].
      * by rewrite list_lookup_fmap, Hi.
      * rewrite list_lookup_fmap, Hj. simpl. by rewrite Heq.
    + by eapply (Forall_lookup_1 P).
Qed.

Lemma worker_ok_others K its its' kj x :
  (∀ k v, kj ≠ k → k ∈ K → safe K k v its → safe K k v its') →
  wkey x ∈ K → wkey x ≠ kj →
  worker_ok K its x → worker_ok K its' x.
Proof.
  intros Hsafe Hx Hne. unfold worker_ok.
  destruct (at_pc x); try done; by apply Hsafe.
Qed.

(** Every step of every thread keeps the invariant. *)
Lemma worker_step_inv K (s : LRUCache) (ws : list worker) (i : nat) w s' w' :
  conc_inv K s ws →
  ws !! i = Some w →
  worker_step s w = Some (s', w') →
  conc_inv K s' (<[i:=w']> ws).
Proof.
  intros (es & Hs & Hlen & Hcap & HK & Hkeys & Hnd & Hhold & Hok) Hi Hstep.
  assert (w ∈ ws) as Hin by (by eapply list_elem_of_lookup_2).
  assert (wkey w ∈ K) as HwK by (rewrite <-Hkeys; by apply list_elem_of_fmap_2).
  assert (NoDup (wkey <$> ws)) as Hnd' by (by rewrite Hkeys).
  assert (∀ x, x ∈ ws → wkey x ∈ K) as HinK.
  { intros x Hx. rewrite <-Hkeys. by apply list_elem_of_fmap_2. }
  pose proof (Forall_lookup_1 _ _ _ _ Hok Hi) as Hw.
  pose proof (holders_insert ws i w w' Hi) as Hcount.
  pose proof (holders_member ws w Hin) as Hmem.
  unfold worker_step in Hstep. unfold worker_ok in Hw.
  destruct w as [k v p]. simpl in *.
  destruct p as [| | | | |r|r|e|e]; simpl in *; try done.
  - (* Start: acquire *)
    unfold acquire in Hstep. destruct (lock s) eqn:Hl; [done|].
    injection Hstep as <- <-. exists es. simpl.
    split; [by apply lru_list_with_lock|]. do 3 (split; [done|]).
    split; [by rewrite (workers_goto ws i (Build_worker k v Start))|].
    split; [done|]. split; [simpl in *; lia|].
    eapply Forall_insert_others; [done..| |done]. done.
  - (* PutIn: body of put *)
    assert (∀ x, x ∈ ws → wkey x ≠ k → wkey x ∈ K ∧ k ≠ wkey x) as Hoth.
    { intros x Hx Hne. split; [by apply HinK|done]. }
    destruct (put_body_cases s es k v Hs Hcap)
      as [(es1 & n & v0 & es2 & s1 & -> & Hrun & Hs1 & Hcap1 & Hl1)
         |[(Hk & Hroom & n & s1 & Hrun & Hs1 & Hcap1 & Hl1)
          |(Hk & Hfull & es1 & e & ke & ve & n & s1 & -> & Hrun & Hs1 & Hcap1 & Hl1)]];
      rewrite Hrun in Hstep; injection Hstep as <- <-;
      eexists; (split; [exact Hs1|]); rewrite Hcap1, Hl1.
    + split; [simpl; rewrite length_app in *; simpl in *; lia|]. do 2 (split; [done|]).
      split; [by rewrite (workers_goto ws i (Build_worker k v PutIn))|].
      split; [done|]. split; [simpl in *; lia|].
      eapply Forall_insert_others; [done..| |].
      * intros x Hx Hne. simpl in Hne. apply worker_ok_others with (kj := k); [|by apply HinK|done].
        intros k' v' Hne' Hk'. rewrite !fmap_cons, !fmap_app, !fmap_cons. simpl.
        by apply safe_move.
      * unfold worker_ok. simpl. apply safe_self.
    + split; [simpl; lia|]. do 2 (split; [done|]).
      split; [by rewrite (workers_goto ws i (Build_worker k v PutIn))|].
      split; [done|]. split; [simpl in *; lia|].
      eapply Forall_insert_others; [done..| |].
      * intros x Hx Hne. simpl in Hne. apply worker_ok_others with (kj := k); [|by apply HinK|done].
        intros k' v' Hne' Hk'. rewrite !fmap_cons. simpl. by apply safe_push.
      * unfold worker_ok. simpl. apply safe_self.
    + split; [simpl; rewrite length_app in *; simpl in *; lia|]. do 2 (split; [done|]).
      split; [by rewrite (workers_goto ws i (Build_worker k v PutIn))|].
      split; [done|]. split; [simpl in *; lia|].
      eapply Forall_insert_others; [done..| |].
      * intros x Hx Hne. simpl in Hne. apply worker_ok_others with (kj := k); [|by apply HinK|done].
        intros k' v' Hne' Hk'. rewrite !fmap_cons, !fmap_app. simpl.
        apply safe_evict; try done.
        -- pose proof (lru_keys _ _ Hs) as Hkk. rewrite fmap_app in Hkk. exact Hkk.
        -- rewrite fmap_app in Hk. exact Hk.
        -- rewrite length_app, length_fmap. simpl. rewrite length_app in Hfull. simpl in Hfull. lia.
      * unfold worker_ok. simpl. apply safe_self.
  - (* PutOut: release *)
    injection Hstep as <- <-. exists es. simpl.
    split; [by apply lru_list_with_lock|]. do 3 (split; [done|]).
    split; [by rewrite (workers_goto ws i (Build_worker k v PutOut))|].
    split; [done|]. split; [destruct (lock s); simpl in *; lia|].
    eapply Forall_insert_others; [done..| |done]. done.
  - (* Mid: acquire *)
    unfold acquire in Hstep. destruct (lock s) eqn:Hl; [done|].
    injection Hstep as <- <-. exists es. simpl.
    split; [by apply lru_list_with_lock|]. do 3 (split; [done|]).
    split; [by rewrite (workers_goto ws i (Build_worker k v Mid))|].
    split; [done|]. split; [simpl in *; lia|].
    eapply Forall_insert_others; [done..| |done]. done.
  - (* GetIn: body of get *)
    destruct Hw as [Hpresent Hbefore].
    destruct (get_body_present s es k v Hs Hpresent)
      as (es1 & n & es2 & s1 & -> & Hrun & Hs1 & Hcap1 & Hl1).
    rewrite Hrun in Hstep. injection Hstep as <- <-.
    eexists. split; [exact Hs1|]. rewrite Hcap1, Hl1.
    split; [simpl; rewrite length_app in *; simpl in *; lia|]. do 2 (split; [done|]).
    split; [by rewrite (workers_goto ws i (Build_worker k v GetIn))|].
    split; [done|]. split; [simpl in *; lia|].
    eapply Forall_insert_others; [done..| |done].
    intros x Hx Hne. simpl in Hne. apply worker_ok_others with (kj := k); [|by apply HinK|done].
    intros k' v' Hne' Hk'. rewrite !fmap_cons, !fmap_app, !fmap_cons. simpl.
    by apply safe_move.
  - (* GetOut: release *)
    injection Hstep as <- <-. exists es. simpl.
    split; [by apply lru_list_with_lock|]. do 3 (split; [done|]).
    split; [by rewrite (workers_goto ws i (Build_worker k v (GetOut r)))|].
    split; [done|]. split; [destruct (lock s); simpl in *; lia|].
    eapply Forall_insert_others; [done..| |done]. done.
Qed.

Lemma interleave_inv K sched : ∀ (s : LRUCache) (ws : list worker) s' ws',
  conc_inv K s ws → interleave sched s ws = Some (s', ws') → conc_inv K s' ws'.
Proof.
  induction sched as [|i sched IH]; intros s ws s' ws' Hinv Hrun; simpl in Hrun.
  - by injection Hrun as <- <-.
  - destruct (ws !! i) as [w|] eqn:Hi; [|done]. simpl in Hrun.
    destruct (worker_step s w) as [[s1 w1]|] eqn:Hstep; [|done]. simpl in Hrun.
    eapply IH; [|exact Hrun]. by eapply worker_step_inv.
Qed.

Lemma conc_inv_init (s : LRUCache) (kvs : list (Z * Z)) :
  reachable s → NoDup kvs.*1 → Z.of_nat (length kvs) <= capacity s →
  conc_inv kvs.*1 s (workers kvs).
Proof.
  intros Hr Hnd Hlen. destruct (reachable_rep s Hr) as [es [Hs Hsz Hcap Hl]].
  exists es. split; [done|]. do 2 (split; [done|]).
  split; [by rewrite length_fmap|].
  unfold workers. split; [|split; [done|split]].
  - rewrite <-list_fmap_compose. by apply list_fmap_ext.
  - rewrite Hl. clear. induction kvs as [|x kvs IH]; [done|]. simpl in *. exact IH.
  - apply Forall_fmap, Forall_true. done.
Qed.

Lemma worker_step_job (s : LRUCache) w s' w' :
  worker_step s w = Some (s', w') → job w' = job w.
Proof.
  unfold worker_step. intros H.
  repeat match type of H with
         | context [match ?x with _ => _ end] => destruct x
         end; simplify_eq; done.
Qed.

Lemma interleave_jobs sched : ∀ (s : LRUCache) (ws : list worker) s' ws',
  interleave sched s ws = Some (s', ws') → job <$> ws' = job <$> ws.
Proof.
  induction sched as [|i sched IH]; intros s ws s' ws' Hrun; simpl in Hrun.
  - by injection Hrun as <- <-.
  - destruct (ws !! i) as [w|] eqn:Hi; [|done]. simpl in Hrun.
    destruct (worker_step s w) as [[s1 w1]|] eqn:Hstep; [|done]. simpl in Hrun.
    rewrite (IH _ _ _ _ Hrun), list_fmap_insert, (worker_step_job _ _ _ _ Hstep).
    apply list_insert_id. by rewrite list_lookup_fmap, Hi.
Qed.

Lemma workers_jobs kvs : job <$> workers kvs = kvs.
Proof.
  unfold workers. rewrite <-list_fmap_compose.
  rewrite <-(list_fmap_id kvs) at 2. apply list_fmap_ext. by intros _ [k v] _.
Qed.

Lemma holders_positive ws : (0 < holders ws)%nat → ∃ w, w ∈ ws ∧ holding w = true.
Proof.
  induction ws as [|x ws IH]; simpl; [lia|].
  destruct (holding x) eqn:Hx.
  - intros _. exists x. split; [by left|done].
  - simpl. intros Hpos. destruct (IH Hpos) as (w & ? & ?). exists w. split; [by right|done].
Qed.

Lemma holders_zero ws w : holders ws = 0%nat → w ∈ ws → holding w = false.
Proof.
  intros Hz Hw. pose proof (holders_member ws w Hw) as Hle.
  destruct (holding w); [simpl in Hle; lia|done].
Qed.

(** Unless every thread has its result, some thread can move. *)
Lemma conc_progress K (s : LRUCache) (ws : list worker) :
  conc_inv K s ws →
  Forall (λ w, is_Some (observed w)) ws
  ∨ ∃ i w, ws !! i = Some w ∧ is_Some (worker_step s w).
Proof.
  intros (es & Hs & Hlen & Hcap & HK & Hkeys & Hnd & Hhold & Hok).
  rewrite Forall_forall in Hok.
  destruct (lock s) eqn:Hl; simpl in Hhold.
  - right. destruct (holders_positive ws) as (w & Hw & Hh); [lia|].
    apply list_elem_of_lookup in Hw as Hi. destruct Hi as [i Hi].
    exists i, w. split; [done|]. specialize (Hok w Hw).
    unfold worker_ok in Hok. unfold holding in Hh. unfold worker_step.
    destruct (at_pc w) eqn:Hpc; try done; eauto.
    + destruct (put_body_cases s es (wkey w) (wval w) Hs Hcap)
        as [(? & ? & ? & ? & ? & _ & -> & _)
           |[(_ & _ & ? & ? & -> & _)|(_ & _ & ? & ? & ? & ? & ? & ? & _ & -> & _)]]; eauto.
    + destruct Hok as [Hpresent _].
      destruct (get_body_present s es _ _ Hs Hpresent) as (? & ? & ? & ? & _ & -> & _). eauto.
  - destruct (decide (Forall (λ w, is_Some (observed w)) ws)) as [?|Hnot]; [by left|].
    right. apply not_Forall_Exists, Exists_exists in Hnot as (w & Hw & Hobs); [|apply _].
    apply list_elem_of_lookup in Hw as Hi. destruct Hi as [i Hi].
    exists i, w. split; [done|]. specialize (Hok w Hw).
    pose proof (holders_zero ws w Hhold Hw) as Hh.
    unfold worker_ok in Hok. unfold holding in Hh. unfold observed in Hobs.
    unfold worker_step, acquire. rewrite Hl.
    destruct (at_pc w) eqn:Hpc; try done; eauto.
    destruct Hobs. rewrite Hpc. eauto.
Qed.

Lemma worker_step_remaining (s : LRUCache) w s' w' :
  worker_step s w = Some (s', w') → (remaining w' < remaining w)%nat.
Proof.
  unfold worker_step, remaining. intros H.
  repeat match type of H with
         | context [match ?x with _ => _ end] => destruct x
         end; simplify_eq; simpl; lia.
Qed.

Lemma remaining_all_insert (ws : list worker) (i : nat) w w' :
  ws !! i = Some w →
  (remaining_all (<[i:=w']> ws) + remaining w = remaining_all ws + remaining w')%nat.
Proof.
  revert i. induction ws as [|x ws IH]; intros [|i] Hi; simpl in *; try done.
  - injection Hi as ->. lia.
  - specialize (IH i Hi). lia.
Qed.

(** From every configuration the threads can reach, some interleaving lets
    every thread finish with a result. *)
Lemma conc_completes K : ∀ (n : nat) (s : LRUCache) (ws : list worker),
  (remaining_all ws ≤ n)%nat →
  conc_inv K s ws →
  ∃ sched s' ws',
    interleave sched s ws = Some (s', ws')
    ∧ Forall (λ w, is_Some (observed w)) ws'.
Proof.
  induction n as [|n IH]; intros s ws Hn Hinv.
  - destruct (conc_progress K s ws Hinv) as [Hdone|(i & w & Hi & [[s1 w1] Hstep])].
    + by exists [], s, ws.
    + pose proof (worker_step_remaining _ _ _ _ Hstep).
      pose proof (remaining_all_insert ws i w w1 Hi). lia.
  - destruct (conc_progress K s ws Hinv) as [Hdone|(i & w & Hi & [[s1 w1] Hstep])].
    + by exists [], s, ws.
    + pose proof (worker_step_remaining _ _ _ _ Hstep).
      pose proof (remaining_all_insert ws i w w1 Hi).
      destruct (IH s1 (<[i:=w1]> ws)) as (sched & s' & ws' & Hrun & Hall).
      * lia.
      * by eapply worker_step_inv.
      * exists (i :: sched), s', ws'. split; [|done].
        simpl. rewrite Hi. simpl. by rewrite Hstep.
Qed.

Lemma interleave_cons (i : nat) sched (s : LRUCache) (ws : list worker) w s1 w1 :
  ws !! i = Some w →
  worker_step s w = Some (s1, w1) →
  interleave (i :: sched) s ws = interleave sched s1 (<[i:=w1]> ws).
Proof. intros Hi Hstep. simpl. rewrite Hi. simpl. by rewrite Hstep. Qed.

(** A thread running alone performs exactly the sequential [put] and [get]. *)
Lemma put_in_three_steps (s : LRUCache) k v s' :
  put k v s = (Ret tt, s') →
  interleave [0; 0; 0]%nat s [Build_worker k v Start] = Some (s', [Build_worker k v Mid]).
Proof.
  unfold put, with_self_lock. intros Hput.
  destruct (acquire s) as [[[]| |] s1] eqn:Hacq; [|done..].
  destruct (put_body k v s1) as [[[]| |] s2] eqn:Hbody; [|done..].
  injection Hput as <-.
  rewrite (interleave_cons 0 _ s _ (Build_worker k v Start) s1 (Build_worker k v PutIn));
    [|done|unfold worker_step; simpl; by rewrite Hacq].
  rewrite (interleave_cons 0 _ s1 _ (Build_worker k v PutIn) s2 (Build_worker k v PutOut));
    [|done|unfold worker_step; simpl; by rewrite Hbody].
  by rewrite (interleave_cons 0 _ s2 _ (Build_worker k v PutOut) (snd (release s2))
                (Build_worker k v Mid)).
Qed.

Lemma get_in_three_steps (s : LRUCache) k v r s' :
  get k s = (Ret r, s') →
  interleave [0; 0; 0]%nat s [Build_worker k v Mid] = Some (s', [Build_worker k v (Done r)]).
Proof.
  unfold get, with_self_lock. intros Hget.
  destruct (acquire s) as [[[]| |] s1] eqn:Hacq; [|done..].
  destruct (get_body k s1) as [[r'| |] s2] eqn:Hbody; [|done..].
  injection Hget as <- <-.
  rewrite (interleave_cons 0 _ s _ (Build_worker k v Mid) s1 (Build_worker k v GetIn));
    [|done|unfold worker_step; simpl; by rewrite Hacq].
  rewrite (interleave_cons 0 _ s1 _ (Build_worker k v GetIn) s2 (Build_worker k v (GetOut r')));
    [|done|unfold worker_step; simpl; by rewrite Hbody].
  by rewrite (interleave_cons 0 _ s2 _ (Build_worker k v (GetOut r')) (snd (release s2))
                (Build_worker k v (Done r'))).
Qed.

(** The lock is free again after every call that was not blocked, whatever
    the body did, even from a state that is not well formed. *)
Lemma with_self_lock_releases {A} (body : M A) (s : LRUCache) :
  lock s = false → lock (snd (with_self_lock body s)) = false.
Proof. intros Hl. by rewrite with_self_lock_free. Qed.

(** ** No body waits for the lock *)

Lemma never_blocks_bind {A B} (m : M A) (f : A → M B) :
  never_blocks m → (∀ a, never_blocks (f a)) → never_blocks (m ≫= f).
Proof.
  intros Hm Hf s. unfold mbind, M_bind. specialize (Hm s).
  destruct (m s) as [[a|e|] s1]; simpl in *; [apply Hf|done|done].
Qed.

Lemma never_blocks_ret {A} (a : A) : never_blocks (mret a).
Proof. by intros s. Qed.

Lemma never_blocks_load r : never_blocks (load r).
Proof. intros s. unfold load. by destruct (r ≫= _). Qed.

Lemma never_blocks_store r f : never_blocks (store r f).
Proof. intros s. unfold store. destruct r as [l|]; [|done]. by destruct (heap s !! l). Qed.

Lemma never_blocks__remove_node r : never_blocks (_remove_node r).
Proof.
  unfold _remove_node.
  repeat first [apply never_blocks_bind; [|intros ?]
               |apply never_blocks_load|apply never_blocks_store].
Qed.

Lemma never_blocks__add_node r : never_blocks (_add_node r).
Proof.
  unfold _add_node.
  repeat first [apply never_blocks_bind; [|intros ?]
               |apply never_blocks_load|apply never_blocks_store
               |by intros ?].
Qed.

Lemma never_blocks__move_to_head r : never_blocks (_move_to_head r).
Proof.
  unfold _move_to_head. apply never_blocks_bind; [|intros ?].
  - apply never_blocks__remove_node.
  - apply never_blocks__add_node.
Qed.

Lemma never_blocks__pop_tail : never_blocks _pop_tail.
Proof.
  unfold _pop_tail.
  repeat first [apply never_blocks__remove_node|apply never_blocks_load
               |apply never_blocks_ret
               |apply never_blocks_bind; [|intros ?]
               |by intros ?].
Qed.

Lemma never_blocks_get_body k : never_blocks (get_body k).
Proof.
  unfold get_body. apply never_blocks_bind; [by intros ?|]. intros c.
  destruct (c !! k); [|apply never_blocks_ret].
  repeat first [apply never_blocks__move_to_head|apply never_blocks_load
               |apply never_blocks_ret
               |apply never_blocks_bind; [|intros ?]].
Qed.

Lemma never_blocks_put_body k v : never_blocks (put_body k v).
Proof.
  unfold put_body. apply never_blocks_bind; [by intros ?|]. intros c.
  destruct (c !! k).
  - apply never_blocks_bind; [apply never_blocks_store|intros ?].
    apply never_blocks__move_to_head.
  - apply never_blocks_bind; [by intros ?|]. intros r.
    apply never_blocks_bind; [by intros ?|]. intros c'.
    apply never_blocks_bind; [by intros ?|]. intros cap.
    apply never_blocks_bind; [|intros ?].
    + destruct (decide _); [|apply never_blocks_ret].
      apply never_blocks_bind; [apply never_blocks__pop_tail|intros ?].
      apply never_blocks_bind; [apply never_blocks_load|intros t].
      intros s. unfold cache_del. by destruct (cache s !! key t).
    + apply never_blocks_bind; [apply never_blocks__add_node|intros ?].
      intros s. unfold cache_set. by destruct r.
Qed.

(** ** Interleavings as sequences of calls: lemmas *)

Lemma run_snoc ops : ∀ (s : LRUCache) rs s1 o r s2,
  run ops s = Some (rs, s1) → call o s1 = (Ret r, s2) →
  run (ops ++ [o]) s = Some (rs ++ [r], s2).
Proof.
  induction ops as [|o' ops IH]; intros s rs s1 o r s2 Hrun Hcall; simpl in *.
  - injection Hrun as <- <-. by rewrite Hcall.
  - destruct (call o' s) as [[r1| |] s'] eqn:Hc; [|done..].
    destruct (run ops s') as [[rs1 s'']|] eqn:E; [|done].
    injection Hrun as <- <-. by rewrite (IH s' rs1 s'' o r s2 E Hcall).
Qed.

Lemma run_length ops : ∀ (s : LRUCache) rs s',
  run ops s = Some (rs, s') → length rs = length ops.
Proof.
  induction ops as [|o ops IH]; intros s rs s' Hrun; simpl in *.
  - by injection Hrun as <- <-.
  - destruct (call o s) as [[r1| |] s1]; [|done..].
    destruct (run ops s1) as [[rs1 s2]|] eqn:E; [|done].
    injection Hrun as <- <-. simpl. by rewrite (IH _ _ _ E).
Qed.

Lemma with_lock_true_false (s : LRUCache) :
  lock s = true → with_lock true (with_lock false s) = s.
Proof. destruct s. simpl. by intros ->. Qed.

Lemma with_lock_false_id (s : LRUCache) :
  lock s = false → with_lock false s = s.
Proof. destruct s. simpl. by intros ->. Qed.

(** The body of a call, run by the thread that holds the lock, followed by
    the release, is the call itself on the state with the lock free. *)
Lemma call_put_under_lock (s : LRUCache) k v :
  lock s = true →
  call (Put k v) (with_lock false s)
  = match put_body k v s with
    | (Ret _, s') => (Ret None, with_lock false s')
    | (Raise e, s') => (Raise e, with_lock false s')
    | (Block, s') => (Block, with_lock false s')
    end.
Proof.
  intros Hl. simpl. unfold put. rewrite with_self_lock_free by done.
  rewrite with_lock_true_false by done.
  by destruct (put_body k v s) as [[[]|e|] s'].
Qed.

Lemma call_get_under_lock (s : LRUCache) k :
  lock s = true →
  call (Get k) (with_lock false s)
  = match get_body k s with
    | (Ret r, s') => (Ret (Some r), with_lock false s')
    | (Raise e, s') => (Raise e, with_lock false s')
    | (Block, s') => (Block, with_lock false s')
    end.
Proof.
  intros Hl. simpl. unfold get. rewrite with_self_lock_free by done.
  rewrite with_lock_true_false by done.
  by destruct (get_body k s) as [[r|e|] s'].
Qed.

(** The bodies leave the lock as it is. *)
Lemma put_body_lock (s : LRUCache) es k v u s' :
  lru_list s es → 0 < capacity s → put_body k v s = (Ret u, s') → lock s' = lock s.
Proof.
  intros Hs Hcap Hrun.
  destruct (put_body_cases s es k v Hs Hcap)
    as [(? & ? & ? & ? & s1 & _ & Hrun' & _ & _ & Hl)
       |[(_ & _ & ? & s1 & Hrun' & _ & _ & Hl)
        |(_ & _ & ? & ? & ? & ? & ? & s1 & _ & Hrun' & _ & _ & Hl)]];
    rewrite Hrun in Hrun'; by injection Hrun' as _ ->.
Qed.

Lemma get_body_lock (s : LRUCache) es k r s' :
  lru_list s es → get_body k s = (Ret r, s') → lock s' = lock s.
Proof.
  intros Hs Hrun. destruct (cache s !! k) as [n|] eqn:Hc.
  - apply (lru_lookup_Some _ _ Hs) in Hc as [v Hin].
    destruct (get_body_present s es k v Hs) as (? & ? & ? & s1 & _ & Hrun' & _ & _ & Hl).
    { apply list_elem_of_fmap. by exists (n, (k, v)). }
    rewrite Hrun in Hrun'. by injection Hrun' as _ ->.
  - rewrite get_body_miss in Hrun by done. by injection Hrun as _ <-.
Qed.

Lemma worker_lin_snoc ops rs o r w :
  length rs = length ops → worker_lin ops rs w → worker_lin (ops ++ [o]) (rs ++ [r]) w.
Proof.
  intros Hlen. unfold worker_lin.
  destruct (at_pc w); try done; intros (j & Ho & Hr); exists j;
    (split; [by apply lookup_app_l_Some|by apply lookup_app_l_Some]).
Qed.

Lemma worker_lin_goto ops rs w p :
  match p with
  | GetOut _ | Done _ | Raising _ | Dead _ => False
  | _ => True
  end →
  worker_lin ops rs (goto p w).
Proof. unfold worker_lin. by destruct p. Qed.

Lemma jobs_goto (ws : list worker) (i : nat) w p :
  ws !! i = Some w → job <$> <[i:=goto p w]> ws = job <$> ws.
Proof.
  intros Hi. rewrite list_fmap_insert. apply list_insert_id.
  by rewrite list_lookup_fmap, Hi.
Qed.

Lemma lin_inv_step s0 kvs (s : LRUCache) (ws : list worker) (i : nat) w s' w' :
  lin_inv s0 kvs s ws →
  ws !! i = Some w →
  worker_step s w = Some (s', w') →
  lin_inv s0 kvs s' (<[i:=w']> ws).
Proof.
  intros (ops & rs & es & Hrun & Hs & Hhold & Hjobs & Hops & Hws) Hi Hstep.
  assert (w ∈ ws) as Hin by (by eapply list_elem_of_lookup_2).
  assert (job w ∈ kvs) as Hjob by (rewrite <-Hjobs; by apply list_elem_of_fmap_2).
  pose proof (Forall_lookup_1 _ _ _ _ Hws Hi) as Hw.
  pose proof (holders_insert ws i w w' Hi) as Hcount.
  pose proof (holders_member ws w Hin) as Hmem.
  pose proof (run_length _ _ _ _ Hrun) as Hlen.
  unfold worker_step in Hstep. unfold worker_lin in Hw.
  destruct w as [k v p]. unfold job in Hjob. simpl in *.
  destruct p as [| | | | |r|r|e|e]; simpl in *; try done.
  - (* Start: acquire *)
    unfold acquire in Hstep. destruct (lock s) eqn:Hl; [done|].
    injection Hstep as <- <-. exists ops, rs, es. simpl.
    do 2 (split; [done|]). split; [simpl in *; lia|].
    split; [by rewrite (jobs_goto ws i (Build_worker k v Start))|]. split; [done|].
    by apply Forall_insert.
  - (* PutIn: body of put *)
    assert (lock s = true) as Hl by (destruct (lock s); [done|simpl in *; lia]).
    pose proof (lru_list_with_lock _ _ true (rep_list _ _ Hs)) as Hlist.
    rewrite with_lock_true_false in Hlist by done.
    destruct (call_rep _ es (Put k v) Hs) as (r & s1 & es1 & Hcall & Hs1 & _).
    rewrite call_put_under_lock in Hcall by done.
    destruct (put_body k v s) as [[[]|e|] s2] eqn:Hbody; [|done..].
    injection Hcall as <- <-. injection Hstep as <- <-.
    pose proof (put_body_lock s es k v _ _ Hlist (rep_capacity _ _ Hs) Hbody) as Hl2.
    exists (ops ++ [Put k v]), (rs ++ [None]), es1.
    split.
    { eapply run_snoc; [exact Hrun|]. by rewrite call_put_under_lock, Hbody. }
    split; [done|].
    split; [rewrite Hl2; simpl in *; lia|].
    split; [by rewrite (jobs_goto ws i (Build_worker k v PutIn))|].
    split.
    + apply Forall_app. split; [done|]. apply Forall_singleton.
      exists (k, v). split; [done|]. by left.
    + apply Forall_insert; [|done].
      eapply Forall_impl; [exact Hws|]. intros x Hx. by apply worker_lin_snoc.
  - (* PutOut: release *)
    injection Hstep as <- <-. exists ops, rs, es. simpl.
    do 2 (split; [done|]). split; [destruct (lock s); simpl in *; lia|].
    split; [by rewrite (jobs_goto ws i (Build_worker k v PutOut))|]. split; [done|].
    by apply Forall_insert.
  - (* Mid: acquire *)
    unfold acquire in Hstep. destruct (lock s) eqn:Hl; [done|].
    injection Hstep as <- <-. exists ops, rs, es. simpl.
    do 2 (split; [done|]). split; [simpl in *; lia|].
    split; [by rewrite (jobs_goto ws i (Build_worker k v Mid))|]. split; [done|].
    by apply Forall_insert.
  - (* GetIn: body of get *)
    assert (lock s = true) as Hl by (destruct (lock s); [done|simpl in *; lia]).
    pose proof (lru_list_with_lock _ _ true (rep_list _ _ Hs)) as Hlist.
    rewrite with_lock_true_false in Hlist by done.
    destruct (call_rep _ es (Get k) Hs) as (r & s1 & es1 & Hcall & Hs1 & _).
    rewrite call_get_under_lock in Hcall by done.
    destruct (get_body k s) as [[r'|e|] s2] eqn:Hbody; [|done..].
    injection Hcall as <- <-. injection Hstep as <- <-.
    pose proof (get_body_lock s es k _ _ Hlist Hbody) as Hl2.
    exists (ops ++ [Get k]), (rs ++ [Some r']), es1.
    split.
    { eapply run_snoc; [exact Hrun|]. by rewrite call_get_under_lock, Hbody. }
    split; [done|].
    split; [rewrite Hl2; simpl in *; lia|].
    split; [by rewrite (jobs_goto ws i (Build_worker k v GetIn))|].
    split.
    + apply Forall_app. split; [done|]. apply Forall_singleton.
      exists (k, v). split; [done|]. by right.
    + apply Forall_insert.
      * eapply Forall_impl; [exact Hws|]. intros x Hx. by apply worker_lin_snoc.
      * unfold worker_lin. simpl. exists (length ops). split.
        -- by rewrite lookup_app_r, Nat.sub_diag by lia.
        -- by rewrite lookup_app_r, Hlen, Nat.sub_diag by lia.
  - (* GetOut: release *)
    injection Hstep as <- <-. exists ops, rs, es. simpl.
    do 2 (split; [done|]). split; [destruct (lock s); simpl in *; lia|].
    split; [by rewrite (jobs_goto ws i (Build_worker k v (GetOut r)))|]. split; [done|].
    by apply Forall_insert.
Qed.

Lemma lin_inv_init (s : LRUCache) (kvs : list (Z * Z)) :
  reachable s → lin_inv s kvs s (workers kvs).
Proof.
  intros Hr. destruct (reachable_rep s Hr) as [es Hs].
  pose proof (rep_lock _ _ Hs) as Hl.
  exists [], [], es. rewrite with_lock_false_id by done.
  split; [done|]. split; [done|]. rewrite Hl.
  split; [|split; [apply workers_jobs|split; [done|]]].
  - unfold workers. clear. induction kvs as [|kv kvs IH]; [done|]. simpl in *. exact IH.
  - unfold workers. apply Forall_fmap, Forall_true. by intros kv.
Qed.

Lemma interleave_lin s0 kvs sched : ∀ (s : LRUCache) (ws : list worker) s' ws',
  lin_inv s0 kvs s ws → interleave sched s ws = Some (s', ws') → lin_inv s0 kvs s' ws'.
Proof.
  induction sched as [|i sched IH]; intros s ws s' ws' Hinv Hrun; simpl in Hrun.
  - by injection Hrun as <- <-.
  - destruct (ws !! i) as [w|] eqn:Hi; [|done]. simpl in Hrun.
    destruct (worker_step s w) as [[s1 w1]|] eqn:Hstep; [|done]. simpl in Hrun.
    eapply IH; [|exact Hrun]. by eapply lin_inv_step.
Qed.

(** ** No body writes the lock *)

Lemma keeps_lock_bind {A B} (m : M A) (f : A → M B) :
  keeps_lock m → (∀ a, keeps_lock (f a)) → keeps_lock (m ≫= f).
Proof.
  intros Hm Hf s. unfold mbind, M_bind. specialize (Hm s).
  destruct (m s) as [[a|e|] s1]; simpl in *; [by rewrite Hf|done|done].
Qed.

Lemma keeps_lock_ret {A} (a : A) : keeps_lock (mret a).
Proof. by intros s. Qed.

Lemma keeps_lock_load r : keeps_lock (load r).
Proof. intros s. unfold load. by destruct (r ≫= _). Qed.

Lemma keeps_lock_store r f : keeps_lock (store r f).
Proof. intros s. unfold store. destruct r as [l|]; [|done]. by destruct (heap s !! l). Qed.

Lemma keeps_lock__remove_node r : keeps_lock (_remove_node r).
Proof.
  unfold _remove_node.
  repeat first [apply keeps_lock_bind; [|intros ?]
               |apply keeps_lock_load|apply keeps_lock_store].
Qed.

Lemma keeps_lock__add_node r : keeps_lock (_add_node r).
Proof.
  unfold _add_node.
  repeat first [apply keeps_lock_bind; [|intros ?]
               |apply keeps_lock_load|apply keeps_lock_store
               |by intros ?].
Qed.

Lemma keeps_lock__move_to_head r : keeps_lock (_move_to_head r).
Proof.
  unfold _move_to_head. apply keeps_lock_bind; [|intros ?].
  - apply keeps_lock__remove_node.
  - apply keeps_lock__add_node.
Qed.

Lemma keeps_lock__pop_tail : keeps_lock _pop_tail.
Proof.
  unfold _pop_tail.
  repeat first [apply keeps_lock__remove_node|apply keeps_lock_load
               |apply keeps_lock_ret
               |apply keeps_lock_bind; [|intros ?]
               |by intros ?].
Qed.

Lemma keeps_lock_get_body k : keeps_lock (get_body k).
Proof.
  unfold get_body. apply keeps_lock_bind; [by intros ?|]. intros c.
  destruct (c !! k); [|apply keeps_lock_ret].
  repeat first [apply keeps_lock__move_to_head|apply keeps_lock_load
               |apply keeps_lock_ret
               |apply keeps_lock_bind; [|intros ?]].
Qed.

Lemma keeps_lock_put_body k v : keeps_lock (put_body k v).
Proof.
  unfold put_body. apply keeps_lock_bind; [by intros ?|]. intros c.
  destruct (c !! k).
  - apply keeps_lock_bind; [apply keeps_lock_store|intros ?].
    apply keeps_lock__move_to_head.
  - apply keeps_lock_bind; [by intros ?|]. intros r.
    apply keeps_lock_bind; [by intros ?|]. intros c'.
    apply keeps_lock_bind; [by intros ?|]. intros cap.
    apply keeps_lock_bind; [|intros ?].
    + destruct (decide _); [|apply keeps_lock_ret].
      apply keeps_lock_bind; [apply keeps_lock__pop_tail|intros ?].
      apply keeps_lock_bind; [apply keeps_lock_load|intros t].
      intros s. unfold cache_del. by destruct (cache s !! key t).
    + apply keeps_lock_bind; [apply keeps_lock__add_node|intros ?].
      intros s. unfold cache_set. by destruct r.
Qed.

(** ** The lock and the threads, in every state *)

(** The lock is held exactly while one thread is between its acquire and its
    release, whatever the state of the cache and whether the bodies return
    or raise. *)
Lemma worker_step_holders (s : LRUCache) (ws : list worker) (i : nat) w s' w' :
  holders ws = Nat.b2n (lock s) →
  ws !! i = Some w →
  worker_step s w = Some (s', w') →
  holders (<[i:=w']> ws) = Nat.b2n (lock s').
Proof.
  intros Hhold Hi Hstep.
  assert (w ∈ ws) as Hin by (by eapply list_elem_of_lookup_2).
  pose proof (holders_insert ws i w w' Hi) as Hcount.
  pose proof (holders_member ws w Hin) as Hmem.
  unfold worker_step in Hstep. destruct w as [k v p]. simpl in *.
  destruct p as [| | | | |r|r|e|e]; simpl in *; try done.
  - unfold acquire in Hstep. destruct (lock s) eqn:Hl; [done|].
    injection Hstep as <- <-. simpl in *. lia.
  - pose proof (keeps_lock_put_body k v s) as Hk.
    destruct (put_body k v s) as [[[]|e|] s2]; [| |done];
      injection Hstep as <- <-; simpl in *; rewrite Hk; lia.
  - injection Hstep as <- <-. simpl in *. destruct (lock s); simpl in *; lia.
  - unfold acquire in Hstep. destruct (lock s) eqn:Hl; [done|].
    injection Hstep as <- <-. simpl in *. lia.
  - pose proof (keeps_lock_get_body k s) as Hk.
    destruct (get_body k s) as [[r|e|] s2]; [| |done];
      injection Hstep as <- <-; simpl in *; rewrite Hk; lia.
  - injection Hstep as <- <-. simpl in *. destruct (lock s); simpl in *; lia.
  - injection Hstep as <- <-. simpl in *. destruct (lock s); simpl in *; lia.
Qed.

Lemma interleave_holders sched : ∀ (s : LRUCache) (ws : list worker) s' ws',
  holders ws = Nat.b2n (lock s) →
  interleave sched s ws = Some (s', ws') →
  holders ws' = Nat.b2n (lock s').
Proof.
  induction sched as [|i sched IH]; intros s ws s' ws' Hinv Hrun; simpl in Hrun.
  - by injection Hrun as <- <-.
  - destruct (ws !! i) as [w|] eqn:Hi; [|done]. simpl in Hrun.
    destruct (worker_step s w) as [[s1 w1]|] eqn:Hstep; [|done]. simpl in Hrun.
    eapply IH; [|exact Hrun]. by eapply worker_step_holders.
Qed.

Lemma holders_workers (kvs : list (Z * Z)) : holders (workers kvs) = 0%nat.
Proof. unfold workers. induction kvs as [|kv kvs IH]; [done|]. simpl in *. exact IH. Qed.

(** The three steps of a thread, taken in a row, are the call itself: the
    thread waits where the call blocks, its body runs on the state the call
    runs it on, and it releases where the call releases, on a return and on
    a raise. *)
Lemma thread_put_is_put (s : LRUCache) k v :
  interleave [0; 0; 0]%nat s [Build_worker k v Start]
  = match put k v s with
    | (Ret _, s') => Some (s', [Build_worker k v Mid])
    | (Raise e, s') => Some (s', [Build_worker k v (Dead e)])
    | (Block, _) => None
    end.
Proof.
  unfold put, with_self_lock. cbn. unfold acquire. destruct (lock s) eqn:Hl; [done|]. cbn.
  unfold worker_step. cbn.
  by destruct (put_body k v (with_lock true s)) as [[[]|e|] s2].
Qed.

Lemma thread_get_is_get (s : LRUCache) k v :
  interleave [0; 0; 0]%nat s [Build_worker k v Mid]
  = match get k s with
    | (Ret r, s') => Some (s', [Build_worker k v (Done r)])
    | (Raise e, s') => Some (s', [Build_worker k v (Dead e)])
    | (Block, _) => None
    end.
Proof.
  unfold get, with_self_lock. cbn. unfold acquire. destruct (lock s) eqn:Hl; [done|]. cbn.
  unfold worker_step. cbn.
  by destruct (get_body k (with_lock true s)) as [[r|e|] s2].
Qed.

(** A call made while the lock is held blocks and changes nothing; a call
    made while the lock is free does not block and leaves the lock free,
    whatever the outcome of its body. *)
Lemma call_takes_lock (s : LRUCache) (o : op) :
  if lock s then call o s = (Block, s)
  else lock (snd (call o s)) = false ∧ fst (call o s) ≠ Block.
Proof.
  destruct (lock s) eqn:Hl.
  - destruct o as [k|k v]; simpl.
    + unfold get, with_self_lock, acquire. by rewrite Hl.
    + unfold put, with_self_lock, acquire. by rewrite Hl.
  - destruct o as [k|k v]; simpl.
    + unfold get. rewrite with_self_lock_free by done.
      pose proof (never_blocks_get_body k (with_lock true s)) as Hnb.
      by destruct (get_body k (with_lock true s)) as [[r|e|] s2].
    + unfold put. rewrite with_self_lock_free by done.
      pose proof (never_blocks_put_body k v (with_lock true s)) as Hnb.
      by destruct (put_body k v (with_lock true s)) as [[r|e|] s2].
Qed.

(** ** The scenarios of the test block *)

(** The results of the calls [ops] on a new cache of capacity [cap]: [None]
    for a [put], the returned integer for a [get]. *)
Example scenario_basic :
  fst <$> construct_run 2 [Put 1 1; Put 2 2; Get 1; Put 3 3; Get 2; Get 3;
                           Put 4 4; Get 1; Get 3; Get 4]
  = Some [None; None; Some 1; None; Some (-1); Some 3; None; Some (-1); Some 3; Some 4].
Proof. vm_compute. reflexivity. Qed.

Example scenario_update :
  fst <$> construct_run 2 [Put 1 1; Put 2 2; Put 1 10; Get 1; Get 2]
  = Some [None; None; None; Some 10; Some 2].
Proof. vm_compute. reflexivity. Qed.

Example scenario_capacity_one :
  fst <$> construct_run 1 [Put 1 1; Put 2 2; Get 1; Get 2]
  = Some [None; None; Some (-1); Some 2].
Proof. vm_compute. reflexivity. Qed.

Example scenario_multiple_evictions :
  fst <$> construct_run 3 [Put 1 1; Put 2 2; Put 3 3; Get 1; Put 4 4;
                           Get 2; Get 1; Get 3; Get 4]
  = Some [None; None; None; Some 1; None; Some (-1); Some 1; Some 3; Some 4].
Proof. vm_compute. reflexivity. Qed.

Example scenario_access_order :
  fst <$> construct_run 3 [Put 1 1; Put 2 2; Put 3 3; Get 1; Get 3; Get 2; Put 4 4;
                           Get 1; Get 2; Get 3; Get 4]
  = Some [None; None; None; Some 1; Some 3; Some 2; None;
          Some (-1); Some 2; Some 3; Some 4].
Proof. vm_compute. reflexivity. Qed.

Example scenario_basic_entries :
  entries (state_after 2 [Put 1 1; Put 2 2; Get 1; Put 3 3]) = Some [(3, 3); (1, 1)].
Proof. vm_compute. reflexivity. Qed.

(** * The claims *)

(** C1: on a [put] of an absent key at [size >= capacity], the call returns
    and exactly one key leaves the cache: the key whose last touch (a [get]
    that hit, or a [put]) is older than the last touch of every other key
    present. *)
Theorem evicts_least_recently_touched (cap : Z) (ops : list op) rs (s : LRUCache) (k v : Z) :
  construct_run cap ops = Some (rs, s) →
  cache s !! k = None →
  Z.of_nat (size (cache s)) >= capacity s →
  ∃ s' e te,
    put k v s = (Ret tt, s')
    ∧ e ∈ dom (cache s)
    ∧ dom (cache s') = {[k]} ∪ (dom (cache s) ∖ {[e]})
    ∧ last_touch cap ops !! e = Some te
    ∧ ∀ k', k' ∈ dom (cache s) → k' ≠ e →
            ∃ t', last_touch cap ops !! k' = Some t' ∧ (te < t')%nat.
Proof.
  intros Hrun Hc Hfull. unfold construct_run, last_touch in *.
  destruct (__init__ cap) as [s0| |] eqn:Hinit; [|done..].
  assert (rep s0 []) as Hs0.
  { destruct (decide (cap <= 0)) as [?|?].
    - unfold __init__ in Hinit. by rewrite decide_True in Hinit.
    - destruct (__init___spec cap) as (s0' & Hinit' & ? & _); [lia|]. congruence. }
  destruct (run_recent_first ops s0 [] ∅ 0%nat rs s Hs0 I Hrun) as (es & Hs & Hrf).
  destruct (put_cases s es k v Hs)
    as [(es1 & n & v0 & es2 & h' & _ & Hc' & _)
       |[(_ & Hroom & _)
        |(_ & _ & es1 & e & ke & ve & n & h' & -> & Hput & Hs' & _)]];
    [congruence|lia|].
  rewrite !fmap_app in Hrf. simpl in Hrf.
  destruct (recent_first_last _ _ _ _ Hrf) as (te & Hte & Hall).
  pose proof (lru_dom _ _ (rep_list _ _ Hs)) as Hdom.
  rewrite !fmap_app in Hdom. simpl in Hdom.
  eexists _, ke, te. split; [exact Hput|]. split; [|split; [|split; [done|]]].
  - rewrite Hdom, elem_of_list_to_set, elem_of_app, list_elem_of_singleton. by right.
  - simpl. by rewrite dom_insert_L, dom_delete_L.
  - intros k' Hk' Hne. apply Hall.
    rewrite Hdom, elem_of_list_to_set, elem_of_app, list_elem_of_singleton in Hk'.
    by destruct Hk'.
Qed.

Lemma evicts_least_recently_touched_witness :
  construct_run 3 [Put 1 1; Put 2 2; Put 3 3; Get 1] = Some ([None; None; None; Some 1],
    state_after 3 [Put 1 1; Put 2 2; Put 3 3; Get 1])
  ∧ cache (state_after 3 [Put 1 1; Put 2 2; Put 3 3; Get 1]) !! 4 = None
  ∧ Z.of_nat (size (cache (state_after 3 [Put 1 1; Put 2 2; Put 3 3; Get 1])))
    >= capacity (state_after 3 [Put 1 1; Put 2 2; Put 3 3; Get 1])
  ∧ ∃ s' e te,
      put 4 4 (state_after 3 [Put 1 1; Put 2 2; Put 3 3; Get 1]) = (Ret tt, s')
      ∧ e ∈ dom (cache (state_after 3 [Put 1 1; Put 2 2; Put 3 3; Get 1]))
      ∧ dom (cache s')
        = {[4]} ∪ (dom (cache (state_after 3 [Put 1 1; Put 2 2; Put 3 3; Get 1])) ∖ {[e]})
      ∧ last_touch 3 [Put 1 1; Put 2 2; Put 3 3; Get 1] !! e = Some te
      ∧ ∀ k', k' ∈ dom (cache (state_after 3 [Put 1 1; Put 2 2; Put 3 3; Get 1])) →
              k' ≠ e →
              ∃ t', last_touch 3 [Put 1 1; Put 2 2; Put 3 3; Get 1] !! k' = Some t'
                    ∧ (te < t')%nat.
Proof.
  assert (construct_run 3 [Put 1 1; Put 2 2; Put 3 3; Get 1]
          = Some ([None; None; None; Some 1],
                  state_after 3 [Put 1 1; Put 2 2; Put 3 3; Get 1])) as Hrun
    by (vm_compute; reflexivity).
  assert (cache (state_after 3 [Put 1 1; Put 2 2; Put 3 3; Get 1]) !! 4 = None) as Hc
    by (vm_compute; reflexivity).
  assert (Z.of_nat (size (cache (state_after 3 [Put 1 1; Put 2 2; Put 3 3; Get 1])))
          >= capacity (state_after 3 [Put 1 1; Put 2 2; Put 3 3; Get 1])) as Hfull
    by (vm_compute; discriminate).
  split; [exact Hrun|]. split; [exact Hc|]. split; [exact Hfull|].
  apply (evicts_least_recently_touched 3 _ _ _ 4 4 Hrun Hc Hfull).
Defined.

Example evicts_key_2 :
  evicted (state_after 3 [Put 1 1; Put 2 2; Put 3 3; Get 1])
          (state_after 3 [Put 1 1; Put 2 2; Put 3 3; Get 1; Put 4 4]) = {[2]}.
Proof. vm_compute. reflexivity. Qed.

(** C2: in every state reachable from a cache constructed with a positive
    capacity by any sequence of [get]/[put] calls, the number of keys in the
    index equals the number of data entries in the recency list and is at
    most the capacity. *)
Theorem size_within_capacity (s : LRUCache) :
  reachable s →
  Z.of_nat (size (cache s)) <= capacity s
  ∧ ∃ l, entries s = Some l ∧ length l = size (cache s).
Proof.
  intros Hr. destruct (reachable_rep s Hr) as [es Hs].
  pose proof (rep_list _ _ Hs) as Hl. split.
  - rewrite (lru_size _ _ Hl). apply Hs.
  - exists es.*2. split; [by apply entries_lru_list|].
    by rewrite length_fmap, (lru_size _ _ Hl).
Qed.

Lemma size_within_capacity_witness :
  reachable demo_full
  ∧ Z.of_nat (size (cache demo_full)) <= capacity demo_full
  ∧ ∃ l, entries demo_full = Some l ∧ length l = size (cache demo_full).
Proof.
  split; [exact demo_full_reachable|].
  apply (size_within_capacity demo_full). exact demo_full_reachable.
Defined.

(** C3: from every reachable state, [put(k, v)] immediately followed by
    [get(k)] returns [v]. *)
Theorem put_then_get (s : LRUCache) (k v : Z) :
  reachable s →
  ∃ s1 s2, put k v s = (Ret tt, s1) ∧ get k s1 = (Ret v, s2).
Proof.
  intros Hr. destruct (reachable_rep s Hr) as [es Hs].
  assert (∃ s1 n es', put k v s = (Ret tt, s1) ∧ rep s1 ((n, (k, v)) :: es'))
    as (s1 & n & es' & Hput & Hs1).
  { destruct (put_cases s es k v Hs)
      as [(es1 & n & v0 & es2 & h' & _ & _ & ? & ? & _)
         |[(_ & _ & n & h' & ? & ? & _)
          |(_ & _ & es1 & e & ke & ve & n & h' & _ & ? & ? & _)]]; eauto 10. }
  destruct (get_hit s1 [] n k v es' Hs1) as (h' & Hget & _).
  eauto.
Qed.

Lemma put_then_get_witness :
  reachable demo_full
  ∧ ∃ s1 s2, put 3 30 demo_full = (Ret tt, s1) ∧ get 3 s1 = (Ret 30, s2).
Proof.
  split; [exact demo_full_reachable|].
  apply (put_then_get demo_full 3 30). exact demo_full_reachable.
Defined.

(** C4: when [k] is present, [put(k, v)] overwrites the value in the node
    already indexed under [k] and moves that entry to the front of the
    recency list; the index is left exactly as it was, so nothing is evicted
    even at capacity, and the other entries keep their order and values. *)
Theorem put_present_in_place (s : LRUCache) (k v : Z) (n : loc) :
  reachable s →
  cache s !! k = Some n →
  ∃ s' l1 v0 l2,
    put k v s = (Ret tt, s')
    ∧ cache s' = cache s
    ∧ kv (heap s') n = Some (k, v)
    ∧ entries s = Some (l1 ++ (k, v0) :: l2)
    ∧ entries s' = Some ((k, v) :: l1 ++ l2).
Proof.
  intros Hr Hc. destruct (reachable_rep s Hr) as [es Hs].
  destruct (rep_present _ _ _ _ Hs Hc) as (es1 & v0 & es2 & ->).
  destruct (put_hit s es1 n k v0 v es2 Hs) as (h' & Hput & Hs' & _).
  exists (with_heap h' s), es1.*2, v0, es2.*2.
  split; [done|]. split; [done|]. split; [|split].
  - pose proof (lru_data _ _ (rep_list _ _ Hs')) as Hd.
    by apply Forall_cons in Hd as [Hd _].
  - rewrite (entries_lru_list _ _ (rep_list _ _ Hs)). by rewrite fmap_app.
  - rewrite (entries_lru_list _ _ (rep_list _ _ Hs')). by rewrite fmap_cons, fmap_app.
Qed.

Lemma put_present_in_place_witness :
  reachable demo_full
  ∧ cache demo_full !! 1 = Some 2%nat
  ∧ ∃ s' l1 v0 l2,
      put 1 10 demo_full = (Ret tt, s')
      ∧ cache s' = cache demo_full
      ∧ kv (heap s') 2%nat = Some (1, 10)
      ∧ entries demo_full = Some (l1 ++ (1, v0) :: l2)
      ∧ entries s' = Some ((1, 10) :: l1 ++ l2).
Proof.
  assert (cache demo_full !! 1 = Some 2%nat) as Hc by (vm_compute; reflexivity).
  split; [exact demo_full_reachable|]. split; [exact Hc|].
  apply (put_present_in_place demo_full 1 10 2%nat demo_full_reachable Hc).
Defined.

(** C5: when [k] is present, [get(k)] returns the stored value and changes
    nothing but the links of the recency list: the index, the capacity, the
    sentinels and the lock are as before, no node is created or dropped, every
    node keeps its key and value, and the entry of [k] moves to the front
    while the others keep their order. *)
Theorem get_present_frame (s : LRUCache) (k : Z) (n : loc) :
  reachable s →
  cache s !! k = Some n →
  ∃ v s' l1 l2,
    get k s = (Ret v, s')
    ∧ cache s' = cache s
    ∧ capacity s' = capacity s
    ∧ head s' = head s ∧ tail s' = tail s ∧ lock s' = lock s
    ∧ same_data (heap s) (heap s')
    ∧ entries s = Some (l1 ++ (k, v) :: l2)
    ∧ entries s' = Some ((k, v) :: l1 ++ l2).
Proof.
  intros Hr Hc. destruct (reachable_rep s Hr) as [es Hs].
  destruct (rep_present _ _ _ _ Hs Hc) as (es1 & v & es2 & ->).
  destruct (get_hit s es1 n k v es2 Hs) as (h' & Hget & Hs' & Hd).
  exists v, (with_heap h' s), es1.*2, es2.*2.
  do 7 (split; [done|]). split.
  - rewrite (entries_lru_list _ _ (rep_list _ _ Hs)). by rewrite fmap_app.
  - rewrite (entries_lru_list _ _ (rep_list _ _ Hs')). by rewrite fmap_cons, fmap_app.
Qed.

Lemma get_present_frame_witness :
  reachable demo_full
  ∧ cache demo_full !! 1 = Some 2%nat
  ∧ ∃ v s' l1 l2,
      get 1 demo_full = (Ret v, s')
      ∧ cache s' = cache demo_full
      ∧ capacity s' = capacity demo_full
      ∧ head s' = head demo_full ∧ tail s' = tail demo_full
      ∧ lock s' = lock demo_full
      ∧ same_data (heap demo_full) (heap s')
      ∧ entries demo_full = Some (l1 ++ (1, v) :: l2)
      ∧ entries s' = Some ((1, v) :: l1 ++ l2).
Proof.
  assert (cache demo_full !! 1 = Some 2%nat) as Hc by (vm_compute; reflexivity).
  split; [exact demo_full_reachable|]. split; [exact Hc|].
  apply (get_present_frame demo_full 1 2%nat demo_full_reachable Hc).
Defined.

(** C6: from a reachable state every call returns, and the set of keys it
    drops from the cache is a single key when the call is a [put] of an
    absent key at [size >= capacity], and empty for every other call: a [get],
    a [put] of a present key, a [put] below capacity. *)
Theorem eviction_only_on_overflow (s : LRUCache) (o : op) :
  reachable s →
  ∃ r s', call o s = (Ret r, s')
          ∧ (overflow o s → size (evicted s s') = 1%nat)
          ∧ (¬ overflow o s → evicted s s' = ∅).
Proof.
  intros Hr. destruct (reachable_rep s Hr) as [es Hs]. unfold evicted.
  destruct o as [k|k v]; simpl.
  - destruct (get_cases s es k Hs) as [[_ ->]|(es1 & n & v & es2 & h' & _ & _ & -> & _)];
      eexists _, _; (split; [done|]); simpl; (split; [done|]); intros _;
      apply difference_diag_L.
  - destruct (put_cases s es k v Hs)
      as [(es1 & n & v0 & es2 & h' & _ & Hc & -> & _)
         |[(Hc & Hroom & n & h' & -> & _)
          |(Hc & Hfull & es1 & e & ke & ve & n & h' & -> & -> & _)]];
      eexists _, _; (split; [done|]); simpl.
    + split; [intros [? _]; congruence|]. intros _. apply difference_diag_L.
    + split; [intros [_ ?]; lia|]. intros _. rewrite dom_insert_L.
      apply set_eq. intros x. rewrite elem_of_difference, elem_of_union.
      split; [intros [Hx Hnot]; destruct Hnot; by right|].
      intros Hx. by apply elem_of_empty in Hx.
    + split; [intros _|intros []; done].
      assert (cache s !! ke = Some e) as Hke.
      { eapply lru_lookup_Some; [apply Hs|]. exists ve. apply elem_of_app. right. by left. }
      assert (dom (cache s) ∖ dom (<[k:=n]> (delete ke (cache s))) = {[ke]}) as ->.
      { rewrite dom_insert_L, dom_delete_L. apply set_eq. intros x.
        rewrite elem_of_difference, elem_of_union, elem_of_difference, !elem_of_singleton.
        rewrite !elem_of_dom. split.
        - intros [Hx Hnot]. destruct (decide (x = ke)); [done|]. destruct Hnot. by right.
        - intros ->. split; [eauto|]. intros [->|[_ ?]]; [|done].
          rewrite Hc in Hke. done. }
      apply size_singleton.
Qed.

Lemma eviction_only_on_overflow_witness :
  reachable demo_full
  ∧ ∃ r s', call (Put 3 3) demo_full = (Ret r, s')
            ∧ (overflow (Put 3 3) demo_full → size (evicted demo_full s') = 1%nat)
            ∧ (¬ overflow (Put 3 3) demo_full → evicted demo_full s' = ∅).
Proof.
  split; [exact demo_full_reachable|].
  apply (eviction_only_on_overflow demo_full (Put 3 3)). exact demo_full_reachable.
Defined.

(** C7: construction fails with the invalid-capacity error, and yields no
    object, when [capacity <= 0]; for a positive capacity it yields a cache
    with an empty index whose store holds the two sentinels only, linked to
    each other, so that the recency list has no data entry. *)
Theorem construct_spec (cap : Z) :
  match __init__ cap with
  | Raise e => e = ValueError ∧ cap <= 0
  | Ret s =>
      0 < cap
      ∧ capacity s = cap
      ∧ cache s = ∅
      ∧ dom (heap s) = {[head s; tail s]}
      ∧ head s ≠ tail s
      ∧ nxt (heap s) (head s) = Some (tail s)
      ∧ prv (heap s) (tail s) = Some (head s)
      ∧ entries s = Some []
  | Block => False
  end.
Proof.
  destruct (decide (cap <= 0)) as [Hle|Hpos].
  - unfold __init__. by rewrite decide_True.
  - destruct (__init___spec cap) as (s & Hinit & Hs & Hcap); [lia|].
    rewrite Hinit. pose proof (rep_list _ _ Hs) as [Hnd _ Hf Hb _ Hc].
    simpl in *. apply adj_cons2 in Hf as [Hf _]. apply adj_cons2 in Hb as [Hb _].
    split; [lia|]. split; [done|]. split; [done|]. split; [|split; [|split; [|split]]].
    + unfold __init__ in Hinit. rewrite decide_False in Hinit by done.
      injection Hinit as <-. cbn [heap head tail].
      rewrite !dom_alter_L, !dom_insert_L, dom_empty_L. set_solver.
    + apply NoDup_cons in Hnd as [Hnd _]. rewrite list_elem_of_singleton in Hnd. done.
    + done.
    + done.
    + by rewrite (entries_lru_list _ _ (rep_list _ _ Hs)).
Qed.

Example construct_zero : __init__ 0 = Raise ValueError.
Proof. reflexivity. Qed.

Example construct_minus_one : __init__ (-1) = Raise ValueError.
Proof. reflexivity. Qed.

Example construct_one :
  ∃ s, __init__ 1 = Ret s ∧ cache s = ∅ ∧ entries s = Some [].
Proof. eexists. split; [reflexivity|]. split; vm_compute; reflexivity. Qed.

(** C8: a miss is an ordinary return of [get], with the integer [-1]; a key
    stored with the value [-1] makes [get] return the very same result, so
    the caller cannot tell that hit from a miss. *)
Theorem miss_is_a_storable_value (s : LRUCache) (k k' : Z) :
  reachable s →
  stored s k = Some (-1) →
  cache s !! k' = None →
  fst (get k' s) = Ret (-1) ∧ fst (get k s) = fst (get k' s).
Proof.
  intros Hr Hst Hc. destruct (reachable_rep s Hr) as [es Hs].
  rewrite (get_miss s k') by (done || apply Hs). simpl. split; [done|].
  unfold stored in Hst. destruct (cache s !! k) as [n|] eqn:Hk; [|done]. simpl in Hst.
  destruct (rep_present _ _ _ _ Hs Hk) as (es1 & v & es2 & ->).
  destruct (get_hit s es1 n k v es2 Hs) as (h' & -> & _). simpl.
  pose proof (lru_data _ _ (rep_list _ _ Hs)) as Hd.
  apply Forall_app in Hd as [_ Hd]. apply Forall_cons in Hd as [Hd _]. simpl in Hd.
  destruct (kv_lookup _ _ _ _ Hd) as (nd & Hnd & _ & Hv).
  rewrite Hnd in Hst. simpl in Hst. congruence.
Qed.

Lemma miss_is_a_storable_value_witness :
  reachable demo_minus_one
  ∧ stored demo_minus_one 7 = Some (-1)
  ∧ cache demo_minus_one !! 8 = None
  ∧ fst (get 8 demo_minus_one) = Ret (-1)
  ∧ fst (get 7 demo_minus_one) = fst (get 8 demo_minus_one).
Proof.
  assert (reachable demo_minus_one) as Hr.
  { exists 2, [Put 7 (-1)], [None]. vm_compute. reflexivity. }
  assert (stored demo_minus_one 7 = Some (-1)) as Hst by (vm_compute; reflexivity).
  assert (cache demo_minus_one !! 8 = None) as Hc by (vm_compute; reflexivity).
  split; [exact Hr|]. split; [exact Hst|]. split; [exact Hc|].
  apply (miss_is_a_storable_value demo_minus_one 7 8 Hr Hst Hc).
Defined.

Example squeeze_observations :
  observations squeeze (state_after 1 []) (workers [(1, 10); (2, 20)])
  = Some [Some (-1); None].
Proof. vm_compute. reflexivity. Qed.

(** C9, as stated, fails: with more threads than the cache has room for, a
    thread whose key was evicted between its [put] and its [get] observes the
    miss result instead of the value it wrote. *)
Lemma own_value_fails_over_capacity :
  reachable (state_after 1 [])
  ∧ NoDup [(1, 10); (2, 20)].*1
  ∧ ¬ own_value (state_after 1 []) [(1, 10); (2, 20)].
Proof.
  split; [|split].
  - exists 1, [], []. vm_compute. reflexivity.
  - simpl. apply NoDup_cons. split; [|apply NoDup_singleton].
    rewrite list_elem_of_singleton. discriminate.
  - intros Hown.
    destruct (interleave squeeze (state_after 1 []) (workers [(1, 10); (2, 20)]))
      as [[s' ws']|] eqn:Hrun; [|by vm_compute in Hrun].
    pose proof (Hown _ _ _ Hrun) as Hall.
    vm_compute in Hrun. injection Hrun as _ <-.
    apply Forall_cons in Hall as [H0 _].
    specialize (H0 (-1) eq_refl). simpl in H0. discriminate.
Qed.

(** C9, amended: every [get] and [put] takes the lock of the cache for the
    whole call and releases it on every way out, so that the calls on a
    shared cache are serialized; and with no more threads than the capacity,
    each thread running one [put(k, v)] and then one [get(k)] on a key of its
    own, every thread observes the value it wrote, in every interleaving.
    In every state, well formed or not, a call made while the lock is held
    blocks and changes nothing, and a call made while the lock is free does
    not block and leaves the lock free, whether its body returns or raises.
    The three steps of a thread are the call itself.  From a state in which
    the lock is free, whatever the threads and however their steps
    interleave, at most one thread is between acquire and release, and the
    lock is held exactly then.  From a reachable state, the shared cache is,
    up to the lock, the cache after some sequence of the threads' own calls
    run one after another, no body raises, and what a thread has read is what
    its [get] returned in that sequence.  With distinct keys and no more
    threads than the capacity, every thread that has a result has the value
    it wrote, and the interleaving can be continued until every thread has
    observed the value it wrote. *)
Theorem serialized_own_value (s : LRUCache) (kvs : list (Z * Z)) sched s' ws' :
  lock s = false →
  interleave sched s (workers kvs) = Some (s', ws') →
  (∀ (t : LRUCache) (o : op),
     if lock t then call o t = (Block, t)
     else lock (snd (call o t)) = false ∧ fst (call o t) ≠ Block)
  ∧ (∀ (t : LRUCache) k v,
       interleave [0; 0; 0]%nat t [Build_worker k v Start]
       = match put k v t with
         | (Ret _, t') => Some (t', [Build_worker k v Mid])
         | (Raise e, t') => Some (t', [Build_worker k v (Dead e)])
         | (Block, _) => None
         end)
  ∧ (∀ (t : LRUCache) k v,
       interleave [0; 0; 0]%nat t [Build_worker k v Mid]
       = match get k t with
         | (Ret r, t') => Some (t', [Build_worker k v (Done r)])
         | (Raise e, t') => Some (t', [Build_worker k v (Dead e)])
         | (Block, _) => None
         end)
  ∧ job <$> ws' = kvs
  ∧ holders ws' = Nat.b2n (lock s')
  ∧ (holders ws' ≤ 1)%nat
  ∧ (reachable s →
       (∃ ops rs,
          run ops s = Some (rs, with_lock false s')
          ∧ Forall (call_of kvs) ops
          ∧ Forall (λ w, ∀ e, at_pc w ≠ Raising e ∧ at_pc w ≠ Dead e) ws'
          ∧ Forall (λ w, ∀ r, observed w = Some r →
              ∃ j : nat, ops !! j = Some (Get (wkey w)) ∧ rs !! j = Some (Some r)) ws')
       ∧ (NoDup kvs.*1 →
          Z.of_nat (length kvs) <= capacity s →
          Forall (λ w, ∀ r, observed w = Some r → r = wval w) ws'
          ∧ ∃ sched2 s2 ws2,
              interleave sched2 s' ws' = Some (s2, ws2)
              ∧ Forall (λ w, observed w = Some (wval w)) ws2)).
Proof.
  intros Hl Hrun.
  split; [exact call_takes_lock|].
  split; [exact thread_put_is_put|].
  split; [exact thread_get_is_get|].
  split; [by rewrite (interleave_jobs _ _ _ _ _ Hrun), workers_jobs|].
  assert (holders ws' = Nat.b2n (lock s')) as Hhold.
  { eapply interleave_holders; [|exact Hrun]. by rewrite holders_workers, Hl. }
  split; [exact Hhold|].
  split; [rewrite Hhold; destruct (lock s'); simpl; lia|].
  intros Hr. split.
  - destruct (interleave_lin _ _ _ _ _ _ _ (lin_inv_init s kvs Hr) Hrun)
      as (ops & rs & es & Hseq & _ & _ & _ & Hops & Hws).
    exists ops, rs. do 2 (split; [done|]). split.
    + eapply Forall_impl; [exact Hws|]. intros w Hw e. unfold worker_lin in Hw.
      split; intros Hpc; by rewrite Hpc in Hw.
    + eapply Forall_impl; [exact Hws|]. intros w Hw r. unfold worker_lin in Hw.
      unfold observed. destruct (at_pc w); try done. by intros [= <-].
  - intros Hnd Hlen.
    pose proof (conc_inv_init s kvs Hr Hnd Hlen) as Hinit.
    pose proof (interleave_inv _ _ _ _ _ _ Hinit Hrun) as Hinv.
    split.
    + destruct Hinv as (es & _ & _ & _ & _ & _ & _ & _ & Hok).
      eapply Forall_impl; [exact Hok|]. intros w Hw r. unfold worker_ok in Hw.
      unfold observed. destruct (at_pc w); try done. by intros [= <-].
    + destruct (conc_completes _ _ s' ws' (le_n _) Hinv)
        as (sched2 & s2 & ws2 & Hrun2 & Hall).
      exists sched2, s2, ws2. split; [done|].
      pose proof (interleave_inv _ _ _ _ _ _ Hinv Hrun2)
        as (es & _ & _ & _ & _ & _ & _ & _ & Hok).
      rewrite Forall_forall in Hall, Hok |- *. intros w Hw.
      specialize (Hall w Hw). specialize (Hok w Hw).
      unfold worker_ok in Hok. unfold observed in Hall |- *.
      destruct (at_pc w); try by destruct Hall. by rewrite Hok.
Qed.

Lemma serialized_own_value_witness :
  lock demo_room = false
  ∧ interleave demo_sched demo_room (workers [(1, 10); (2, 20)])
    = Some (demo_after.1, demo_after.2)
  ∧ reachable demo_room
  ∧ NoDup [(1, 10); (2, 20)].*1
  ∧ Z.of_nat (length [(1, 10); (2, 20)]) <= capacity demo_room
  ∧ (∀ (t : LRUCache) (o : op),
       if lock t then call o t = (Block, t)
       else lock (snd (call o t)) = false ∧ fst (call o t) ≠ Block)
  ∧ job <$> demo_after.2 = [(1, 10); (2, 20)]
  ∧ holders demo_after.2 = Nat.b2n (lock demo_after.1)
  ∧ (holders demo_after.2 ≤ 1)%nat
  ∧ (∃ ops rs,
       run ops demo_room = Some (rs, with_lock false demo_after.1)
       ∧ Forall (call_of [(1, 10); (2, 20)]) ops
       ∧ Forall (λ w, ∀ e, at_pc w ≠ Raising e ∧ at_pc w ≠ Dead e) demo_after.2
       ∧ Forall (λ w, ∀ r, observed w = Some r →
           ∃ j : nat, ops !! j = Some (Get (wkey w)) ∧ rs !! j = Some (Some r))
           demo_after.2)
  ∧ Forall (λ w, ∀ r, observed w = Some r → r = wval w) demo_after.2
  ∧ ∃ sched2 s2 ws2,
      interleave sched2 demo_after.1 demo_after.2 = Some (s2, ws2)
      ∧ Forall (λ w, observed w = Some (wval w)) ws2.
Proof.
  assert (lock demo_room = false) as Hl by (vm_compute; reflexivity).
  assert (NoDup [(1, 10); (2, 20)].*1) as Hnd.
  { simpl. apply NoDup_cons. split; [|apply NoDup_singleton].
    rewrite list_elem_of_singleton. discriminate. }
  assert (Z.of_nat (length [(1, 10); (2, 20)]) <= capacity demo_room) as Hlen
    by (vm_compute; discriminate).
  assert (interleave demo_sched demo_room (workers [(1, 10); (2, 20)])
          = Some (demo_after.1, demo_after.2)) as Hrun
    by (vm_compute; reflexivity).
  split; [exact Hl|]. split; [exact Hrun|].
  split; [exact demo_room_reachable|]. split; [exact Hnd|]. split; [exact Hlen|].
  destruct (serialized_own_value demo_room [(1, 10); (2, 20)] demo_sched
              demo_after.1 demo_after.2 Hl Hrun)
    as (Hcall & _ & _ & Hjobs & Hhold & Hone & Hreach).
  destruct (Hreach demo_room_reachable) as [Hseq Hown].
  destruct (Hown Hnd Hlen) as [Hval Hdone].
  split; [exact Hcall|]. split; [exact Hjobs|]. split; [exact Hhold|].
  split; [exact Hone|]. split; [exact Hseq|]. split; [exact Hval|exact Hdone].
Defined.

(** On a state in which the bodies raise, each thread still releases the lock
    on its way out, and the next thread takes it. *)
Example raise_releases_lock :
  match interleave [0; 0; 0; 1; 1; 1]%nat broken (workers [(1, 10); (2, 20)]) with
  | Some (s', ws') =>
      lock s' = false
      ∧ map at_pc ws' = [Dead AttributeError; Dead AttributeError]
  | None => False
  end.
Proof. vm_compute. split; reflexivity. Qed.

Example demo_after_observations :
  observed <$> demo_after.2 = [Some 10; Some 20].
Proof. vm_compute. reflexivity. Qed.

(** C10: when [k] is absent, [get(k)] returns the miss result and the state
    after the call is the state before it, recency order included. *)
Theorem get_absent_is_pure (s : LRUCache) (k : Z) :
  reachable s →
  cache s !! k = None →
  get k s = (Ret (-1), s).
Proof.
  intros Hr Hc. destruct (reachable_rep s Hr) as [es Hs].
  apply get_miss; [apply Hs|done].
Qed.

Lemma get_absent_is_pure_witness :
  reachable demo_full
  ∧ cache demo_full !! 9 = None
  ∧ get 9 demo_full = (Ret (-1), demo_full).
Proof.
  assert (cache demo_full !! 9 = None) as Hc by (vm_compute; reflexivity).
  split; [exact demo_full_reachable|]. split; [exact Hc|].
  apply (get_absent_is_pure demo_full 9 demo_full_reachable Hc).
Defined.

(** * Further properties of the code *)

(** ** The dictionary, the list and the stored values *)

Lemma option_ext {A} (o1 o2 : option A) :
  (∀ a, o1 = Some a ↔ o2 = Some a) → o1 = o2.
Proof.
  intros H. destruct o1 as [a|], o2 as [b|]; try done.
  - symmetry. by apply H.
  - symmetry. by apply (proj1 (H a)).
  - by apply (proj2 (H b)).
Qed.

Lemma lru_entry_of_item (s : LRUCache) es k v :
  lru_list s es → (k, v) ∈ es.*2 ↔ ∃ n, (n, (k, v)) ∈ es.
Proof.
  intros _. rewrite list_elem_of_fmap. split.
  - intros ([n [k' v']] & [= <- <-] & Hin). eauto.
  - intros [n Hin]. by exists (n, (k, v)).
Qed.

(** The value read through the dictionary is the value the list shows. *)
Lemma stored_lru_list (s : LRUCache) es k v :
  lru_list s es → stored s k = Some v ↔ (k, v) ∈ es.*2.
Proof.
  intros Hs. rewrite (lru_entry_of_item s es k v Hs). unfold stored. split.
  - destruct (cache s !! k) as [n|] eqn:Hc; [|done]. simpl. intros Hv.
    apply (lru_lookup_Some _ _ Hs) in Hc as [v' Hin]. exists n.
    pose proof (lru_data _ _ Hs) as Hd. rewrite Forall_forall in Hd.
    specialize (Hd _ Hin). simpl in Hd.
    destruct (kv_lookup _ _ _ _ Hd) as (nd & Hnd & _ & Hval).
    rewrite Hnd in Hv. simpl in Hv. by simplify_eq.
  - intros [n Hin].
    assert (cache s !! k = Some n) as -> by (apply (lru_lookup_Some _ _ Hs); eauto).
    simpl. pose proof (lru_data _ _ Hs) as Hd. rewrite Forall_forall in Hd.
    specialize (Hd _ Hin). simpl in Hd.
    destruct (kv_lookup _ _ _ _ Hd) as (nd & Hnd & _ & Hval).
    rewrite Hnd. simpl. by rewrite Hval.
Qed.

Lemma stored_None_lru_list (s : LRUCache) es k :
  lru_list s es → stored s k = None ↔ cache s !! k = None.
Proof.
  intros Hs. split.
  - intros Hst. destruct (cache s !! k) as [n|] eqn:Hc; [|done].
    apply (lru_lookup_Some _ _ Hs) in Hc as [v Hin].
    assert (stored s k = Some v) as Hv.
    { apply (stored_lru_list s es k v Hs), (lru_entry_of_item s es k v Hs). eauto. }
    congruence.
  - intros Hc. unfold stored. by rewrite Hc.
Qed.

(** X1: from every reachable state [get(k)] returns, and its result is the
    value stored under [k] when there is one and [-1] otherwise. *)
Theorem get_returns_stored (s : LRUCache) (k : Z) :
  reachable s →
  fst (get k s) = Ret (default (-1) (stored s k)).
Proof.
  intros Hr. destruct (reachable_rep s Hr) as [es Hs].
  pose proof (rep_list _ _ Hs) as Hl.
  destruct (get_cases s es k Hs)
    as [[Hc ->]|(es1 & n & v & es2 & h' & -> & Hc & -> & _)]; simpl.
  - by rewrite (proj2 (stored_None_lru_list s es k Hl) Hc).
  - assert (stored s k = Some v) as ->; [|done].
    apply (stored_lru_list _ _ k v Hl). rewrite fmap_app, fmap_cons.
    apply elem_of_app. right. by left.
Qed.

Lemma get_returns_stored_witness :
  reachable demo_full
  ∧ fst (get 2 demo_full) = Ret (default (-1) (stored demo_full 2)).
Proof.
  split; [exact demo_full_reachable|].
  apply (get_returns_stored demo_full 2). exact demo_full_reachable.
Defined.

Example get_returns_stored_values :
  stored demo_full 2 = Some 2 ∧ stored demo_full 9 = None
  ∧ fst (get 2 demo_full) = Ret 2 ∧ fst (get 9 demo_full) = Ret (-1).
Proof. repeat split; vm_compute; reflexivity. Qed.

(** X2: in every reachable state the keys of the dictionary are exactly the
    keys of the recency list, no key occurs twice in the list, and the value
    read through the dictionary under a key is the value the list holds for
    it. *)
Theorem index_matches_list (s : LRUCache) :
  reachable s →
  ∃ l, entries s = Some l
       ∧ NoDup l.*1
       ∧ dom (cache s) = list_to_set l.*1
       ∧ ∀ k v, stored s k = Some v ↔ (k, v) ∈ l.
Proof.
  intros Hr. destruct (reachable_rep s Hr) as [es Hs].
  pose proof (rep_list _ _ Hs) as Hl.
  exists es.*2. split; [by apply entries_lru_list|]. split; [apply Hl|].
  split; [by apply lru_dom|]. intros k v. by apply stored_lru_list.
Qed.

Lemma index_matches_list_witness :
  reachable demo_full
  ∧ ∃ l, entries demo_full = Some l
         ∧ NoDup l.*1
         ∧ dom (cache demo_full) = list_to_set l.*1
         ∧ ∀ k v, stored demo_full k = Some v ↔ (k, v) ∈ l.
Proof.
  split; [exact demo_full_reachable|].
  apply (index_matches_list demo_full). exact demo_full_reachable.
Defined.

Lemma evicted_overflow (c : gmap Z loc) k n ke e :
  c !! ke = Some e → c !! k = None →
  dom c ∖ dom (<[k:=n]> (delete ke c)) = ({[ke]} : gset Z).
Proof.
  intros Hke Hk. rewrite dom_insert_L, dom_delete_L. apply set_eq. intros x.
  rewrite elem_of_difference, elem_of_union, elem_of_difference, !elem_of_singleton.
  rewrite !elem_of_dom. split.
  - intros [Hx Hnot]. destruct (decide (x = ke)); [done|]. destruct Hnot. by right.
  - intros ->. split; [eauto|]. intros [->|[_ ?]]; [|done].
    rewrite Hk in Hke. done.
Qed.

(** X3: [put(k, v)] leaves the value stored under every other key as it was,
    except for the one key it evicts at capacity, which is then absent. *)
Theorem put_keeps_other_values (s : LRUCache) (k v k' : Z) :
  reachable s →
  k' ≠ k →
  ∃ s', put k v s = (Ret tt, s')
        ∧ (stored s' k' = stored s k'
           ∨ (overflow (Put k v) s ∧ evicted s s' = {[k']} ∧ stored s' k' = None)).
Proof.
  intros Hr Hne. destruct (reachable_rep s Hr) as [es Hs].
  pose proof (rep_list _ _ Hs) as Hl.
  destruct (put_cases s es k v Hs)
    as [(es1 & n & v0 & es2 & h' & -> & Hc & Hput & Hs' & _)
       |[(Hc & Hroom & n & h' & Hput & Hs' & _)
        |(Hc & Hfull & es1 & e & ke & ve & n & h' & -> & Hput & Hs' & _)]];
    eexists; (split; [exact Hput|]); pose proof (rep_list _ _ Hs') as Hl'.
  - left. apply option_ext. intros v'.
    rewrite (stored_lru_list _ _ k' v' Hl), (stored_lru_list _ _ k' v' Hl').
    rewrite fmap_cons, !fmap_app, fmap_cons, elem_of_cons, !elem_of_app, elem_of_cons.
    simpl. split.
    + intros [[= ? _]|[?|?]]; [done|by left|by right; right].
    + intros [?|[[= ? _]|?]]; [by right; left|done|by right; right].
  - left. apply option_ext. intros v'.
    rewrite (stored_lru_list _ _ k' v' Hl), (stored_lru_list _ _ k' v' Hl').
    rewrite fmap_cons, elem_of_cons. simpl. split.
    + intros [[= ? _]|?]; [done|done].
    + intros ?. by right.
  - assert (cache s !! ke = Some e) as Hke.
    { apply (lru_lookup_Some _ _ Hl). exists ve. apply elem_of_app. right. by left. }
    destruct (decide (k' = ke)) as [->|Hne'].
    + right. split; [done|]. split.
      * unfold evicted. simpl. by apply (evicted_overflow _ _ _ _ e).
      * unfold stored. simpl. by rewrite lookup_insert_ne, lookup_delete_eq.
    + left. apply option_ext. intros v'.
      rewrite (stored_lru_list _ _ k' v' Hl), (stored_lru_list _ _ k' v' Hl').
      rewrite fmap_cons, fmap_app, elem_of_cons, elem_of_app. simpl.
      rewrite list_elem_of_singleton. split.
      * intros [[= ? _]|?]; [done|by left].
      * intros [?|[= ? _]]; [by right|done].
Qed.

Lemma put_keeps_other_values_witness :
  reachable demo_full
  ∧ 2 ≠ 3
  ∧ ∃ s', put 3 30 demo_full = (Ret tt, s')
          ∧ (stored s' 2 = stored demo_full 2
             ∨ (overflow (Put 3 30) demo_full ∧ evicted demo_full s' = {[2]}
                ∧ stored s' 2 = None)).
Proof.
  assert (2 ≠ 3) as Hne by lia.
  split; [exact demo_full_reachable|]. split; [exact Hne|].
  apply (put_keeps_other_values demo_full 3 30 2 demo_full_reachable Hne).
Defined.

(** X4: [put(k, v)] of an absent key places [(k, v)] at the front of the
    recency list; below capacity the rest of the list is the old list, and
    at capacity it is the old list without its last entry. *)
Theorem put_absent_entries (s : LRUCache) (k v : Z) :
  reachable s →
  cache s !! k = None →
  ∃ s' l,
    put k v s = (Ret tt, s')
    ∧ entries s = Some l
    ∧ entries s'
      = Some ((k, v) :: if decide (Z.of_nat (length l) >= capacity s)
                        then removelast l else l).
Proof.
  intros Hr Hc. destruct (reachable_rep s Hr) as [es Hs].
  pose proof (rep_list _ _ Hs) as Hl. pose proof (lru_size _ _ Hl) as Hsize.
  destruct (put_cases s es k v Hs)
    as [(es1 & n & v0 & es2 & h' & _ & Hc' & _)
       |[(_ & Hroom & n & h' & Hput & Hs' & _)
        |(_ & Hfull & es1 & e & ke & ve & n & h' & -> & Hput & Hs' & _)]];
    [congruence| |]; eexists _, _; (split; [exact Hput|]);
    (split; [by apply entries_lru_list|]);
    rewrite (entries_lru_list _ _ (rep_list _ _ Hs')), length_fmap, <-Hsize.
  - by rewrite decide_False by lia.
  - rewrite decide_True by done. rewrite fmap_cons, fmap_app. simpl.
    by rewrite removelast_last.
Qed.

Lemma put_absent_entries_witness :
  reachable demo_full
  ∧ cache demo_full !! 3 = None
  ∧ ∃ s' l,
      put 3 30 demo_full = (Ret tt, s')
      ∧ entries demo_full = Some l
      ∧ entries s'
        = Some ((3, 30) :: if decide (Z.of_nat (length l) >= capacity demo_full)
                           then removelast l else l).
Proof.
  assert (cache demo_full !! 3 = None) as Hc by (vm_compute; reflexivity).
  split; [exact demo_full_reachable|]. split; [exact Hc|].
  apply (put_absent_entries demo_full 3 30 demo_full_reachable Hc).
Defined.

Example put_absent_entries_full :
  entries demo_full = Some [(2, 2); (1, 1)]
  ∧ entries (snd (put 3 30 demo_full)) = Some [(3, 30); (2, 2)].
Proof. split; vm_compute; reflexivity. Qed.

(** X5: [get(k)] on the most recently used key returns its value and leaves
    the recency list and the dictionary as they are. *)
Theorem get_front_keeps_order (s : LRUCache) (k v : Z) (l : list (Z * Z)) :
  reachable s →
  entries s = Some ((k, v) :: l) →
  ∃ s', get k s = (Ret v, s')
        ∧ entries s' = Some ((k, v) :: l)
        ∧ cache s' = cache s.
Proof.
  intros Hr He. destruct (reachable_rep s Hr) as [es Hs].
  rewrite (entries_lru_list _ _ (rep_list _ _ Hs)) in He. injection He as He.
  destruct es as [|[n [k' v']] es]; [done|]. rewrite fmap_cons in He.
  injection He as -> -> <-.
  destruct (get_hit s [] n k v es Hs) as (h' & Hget & Hs' & _).
  exists (with_heap h' s). split; [done|]. split; [|done].
  by rewrite (entries_lru_list _ _ (rep_list _ _ Hs')).
Qed.

Lemma get_front_keeps_order_witness :
  reachable demo_full
  ∧ entries demo_full = Some ((2, 2) :: [(1, 1)])
  ∧ ∃ s', get 2 demo_full = (Ret 2, s')
          ∧ entries s' = Some ((2, 2) :: [(1, 1)])
          ∧ cache s' = cache demo_full.
Proof.
  assert (entries demo_full = Some ((2, 2) :: [(1, 1)])) as He
    by (vm_compute; reflexivity).
  split; [exact demo_full_reachable|]. split; [exact He|].
  apply (get_front_keeps_order demo_full 2 2 [(1, 1)] demo_full_reachable He).
Defined.

(** X6: no call makes the cache smaller: a call adds at most one key, and
    once the cache holds [capacity] keys it holds [capacity] keys after
    every further call. *)
Theorem size_never_decreases (s : LRUCache) (o : op) :
  reachable s →
  ∃ r s', call o s = (Ret r, s')
          ∧ (size (cache s) ≤ size (cache s'))%nat
          ∧ (size (cache s') ≤ size (cache s) + 1)%nat
          ∧ (Z.of_nat (size (cache s)) = capacity s →
             Z.of_nat (size (cache s')) = capacity s').
Proof.
  intros Hr. destruct (reachable_rep s Hr) as [es Hs].
  pose proof (lru_size _ _ (rep_list _ _ Hs)) as Hsize.
  destruct o as [k|k v]; simpl.
  - destruct (get_cases s es k Hs) as [[_ ->]|(es1 & n & v & es2 & h' & _ & _ & -> & _)];
      eexists _, _; (split; [done|]); simpl; (split; [lia|]); (split; [lia|done]).
  - destruct (put_cases s es k v Hs)
      as [(es1 & n & v0 & es2 & h' & _ & _ & -> & _)
         |[(Hc & Hroom & n & h' & -> & Hs' & _)
          |(Hc & Hfull & es1 & e & ke & ve & n & h' & -> & -> & Hs' & _)]];
      eexists _, _; (split; [done|]).
    + simpl. split; [lia|]. split; [lia|done].
    + pose proof (lru_size _ _ (rep_list _ _ Hs')) as Hsize'.
      rewrite Hsize' , Hsize. simpl. split; [lia|]. split; [lia|]. lia.
    + pose proof (lru_size _ _ (rep_list _ _ Hs')) as Hsize'.
      pose proof (rep_size _ _ Hs) as Hle.
      rewrite Hsize', Hsize. rewrite Hsize in Hfull.
      rewrite length_app in *. simpl in *. split; [lia|]. split; [lia|]. lia.
Qed.

Lemma size_never_decreases_witness :
  reachable demo_full
  ∧ ∃ r s', call (Put 3 30) demo_full = (Ret r, s')
            ∧ (size (cache demo_full) ≤ size (cache s'))%nat
            ∧ (size (cache s') ≤ size (cache demo_full) + 1)%nat
            ∧ (Z.of_nat (size (cache demo_full)) = capacity demo_full →
               Z.of_nat (size (cache s')) = capacity s').
Proof.
  split; [exact demo_full_reachable|].
  apply (size_never_decreases demo_full (Put 3 30)). exact demo_full_reachable.
Defined.

(** X7: writing a key twice in a row is the same, for the recency list and
    for the set of keys, as writing the second value at once. *)
Theorem put_twice (s : LRUCache) (k v1 v2 : Z) :
  reachable s →
  ∃ s1 s2 s2',
    put k v1 s = (Ret tt, s1)
    ∧ put k v2 s1 = (Ret tt, s2)
    ∧ put k v2 s = (Ret tt, s2')
    ∧ entries s2 = entries s2'
    ∧ dom (cache s2) = dom (cache s2').
Proof.
  intros Hr. destruct (reachable_rep s Hr) as [es Hs].
  assert (∃ s1 s2' n n' es',
            put k v1 s = (Ret tt, s1) ∧ rep s1 ((n, (k, v1)) :: es')
            ∧ put k v2 s = (Ret tt, s2') ∧ rep s2' ((n', (k, v2)) :: es'))
    as (s1 & s2' & n & n' & es' & Hput1 & Hs1 & Hput2' & Hs2').
  { destruct (cache s !! k) as [n|] eqn:Hc.
    - destruct (rep_present _ _ _ _ Hs Hc) as (es1 & v0 & es2 & ->).
      destruct (put_hit s es1 n k v0 v1 es2 Hs) as (h1 & ? & ? & _).
      destruct (put_hit s es1 n k v0 v2 es2 Hs) as (h2 & ? & ? & _).
      eauto 10.
    - destruct (decide (Z.of_nat (size (cache s)) >= capacity s)) as [Hfull|Hroom].
      + destruct (rep_full_nonempty _ _ Hs Hfull) as (es1 & e & ke & ve & ->).
        destruct (put_miss_evict s es1 e ke ve k v1 Hs Hc Hfull) as (n1 & h1 & ? & ? & _).
        destruct (put_miss_evict s es1 e ke ve k v2 Hs Hc Hfull) as (n2 & h2 & ? & ? & _).
        eauto 10.
      + destruct (put_miss_room s es k v1 Hs Hc) as (n1 & h1 & ? & ? & _); [lia|].
        destruct (put_miss_room s es k v2 Hs Hc) as (n2 & h2 & ? & ? & _); [lia|].
        eauto 10. }
  destruct (put_hit s1 [] n k v1 v2 es' Hs1) as (h2 & Hput2 & Hs2 & _).
  simpl in Hs2.
  exists s1, (with_heap h2 s1), s2'. do 3 (split; [done|]).
  pose proof (rep_list _ _ Hs2) as Hl2. pose proof (rep_list _ _ Hs2') as Hl2'.
  split.
  - by rewrite (entries_lru_list _ _ Hl2), (entries_lru_list _ _ Hl2').
  - by rewrite (lru_dom _ _ Hl2), (lru_dom _ _ Hl2').
Qed.

Lemma put_twice_witness :
  reachable demo_full
  ∧ ∃ s1 s2 s2',
      put 3 30 demo_full = (Ret tt, s1)
      ∧ put 3 31 s1 = (Ret tt, s2)
      ∧ put 3 31 demo_full = (Ret tt, s2')
      ∧ entries s2 = entries s2'
      ∧ dom (cache s2) = dom (cache s2').
Proof.
  split; [exact demo_full_reachable|].
  apply (put_twice demo_full 3 30 31). exact demo_full_reachable.
Defined.

(** ** What the calls never change *)

Lemma call_fields (s : LRUCache) es o r s' :
  rep s es → call o s = (Ret r, s') →
  capacity s' = capacity s ∧ head s' = head s ∧ tail s' = tail s.
Proof.
  intros Hs Hcall. destruct o as [k|k v]; simpl in Hcall.
  - destruct (get_cases s es k Hs) as [[_ Hget]|(es1 & n & v & es2 & h' & _ & _ & Hget & _)];
      rewrite Hget in Hcall; by injection Hcall as <- <-.
  - destruct (put_cases s es k v Hs)
      as [(es1 & n & v0 & es2 & h' & _ & _ & Hput & _)
         |[(_ & _ & n & h' & Hput & _)
          |(_ & _ & es1 & e & ke & ve & n & h' & _ & Hput & _)]];
      rewrite Hput in Hcall; by injection Hcall as <- <-.
Qed.

Lemma run_fields ops : ∀ (s : LRUCache) es rs s',
  rep s es → run ops s = Some (rs, s') →
  capacity s' = capacity s ∧ head s' = head s ∧ tail s' = tail s.
Proof.
  induction ops as [|o ops IH]; intros s es rs s' Hs Hrun; simpl in Hrun.
  - by injection Hrun as <- <-.
  - destruct (call_rep s es o Hs) as (r & s1 & es1 & Hcall & Hs1 & _).
    rewrite Hcall in Hrun.
    destruct (run ops s1) as [[rs1 s2]|] eqn:Hrun1; [|done].
    injection Hrun as <- <-.
    destruct (call_fields s es o r s1 Hs Hcall) as (Hc1 & Hh1 & Ht1).
    destruct (IH s1 es1 _ _ Hs1 Hrun1) as (Hc2 & Hh2 & Ht2).
    split; [congruence|]. split; congruence.
Qed.

(** X8: the capacity given to the constructor and the two sentinel nodes it
    creates stay those of the cache through every sequence of calls, and the
    lock is free between calls. *)
Theorem fields_never_change (cap : Z) (ops : list op) rs (s : LRUCache) :
  construct_run cap ops = Some (rs, s) →
  ∃ s0, __init__ cap = Ret s0
        ∧ capacity s = cap
        ∧ head s = head s0
        ∧ tail s = tail s0
        ∧ lock s = false.
Proof.
  intros Hrun. unfold construct_run in Hrun.
  destruct (__init__ cap) as [s0| |] eqn:Hinit; [|done..].
  assert (rep s0 [] ∧ capacity s0 = cap) as [Hs0 Hcap0].
  { destruct (decide (cap <= 0)) as [?|?].
    - unfold __init__ in Hinit. by rewrite decide_True in Hinit.
    - destruct (__init___spec cap) as (s0' & Hinit' & ? & ?); [lia|].
      rewrite Hinit in Hinit'. by injection Hinit' as <-. }
  destruct (run_fields ops s0 [] rs s Hs0 Hrun) as (Hc & Hh & Ht).
  destruct (run_rep_inv ops s0 [] rs s Hs0 Hrun) as [es Hs].
  exists s0. split; [done|]. split; [congruence|]. do 2 (split; [done|]). apply Hs.
Qed.

Lemma fields_never_change_witness :
  construct_run 2 [Put 1 1; Put 2 2; Get 1; Put 3 3]
  = Some ([None; None; Some 1; None], state_after 2 [Put 1 1; Put 2 2; Get 1; Put 3 3])
  ∧ ∃ s0, __init__ 2 = Ret s0
          ∧ capacity (state_after 2 [Put 1 1; Put 2 2; Get 1; Put 3 3]) = 2
          ∧ head (state_after 2 [Put 1 1; Put 2 2; Get 1; Put 3 3]) = head s0
          ∧ tail (state_after 2 [Put 1 1; Put 2 2; Get 1; Put 3 3]) = tail s0
          ∧ lock (state_after 2 [Put 1 1; Put 2 2; Get 1; Put 3 3]) = false.
Proof.
  assert (construct_run 2 [Put 1 1; Put 2 2; Get 1; Put 3 3]
          = Some ([None; None; Some 1; None],
                  state_after 2 [Put 1 1; Put 2 2; Get 1; Put 3 3])) as Hrun
    by (vm_compute; reflexivity).
  split; [exact Hrun|].
  apply (fields_never_change 2 _ _ _ Hrun).
Defined.

(** ** The links of an indexed node *)

Lemma chain_neighbours h hd l1 n l2 tl :
  fwd h (hd :: l1 ++ n :: l2 ++ [tl]) →
  bwd h (hd :: l1 ++ n :: l2 ++ [tl]) →
  ∃ p q, prv h n = Some p ∧ nxt h n = Some q ∧ nxt h p = Some n ∧ prv h q = Some n.
Proof.
  unfold fwd, bwd.
  destruct (snoc_exists hd l1) as (xs & a & E1).
  destruct (l2 ++ [tl]) as [|b ys] eqn:E2; [by destruct l2|].
  rewrite !app_comm_cons, E1, <-!app_assoc. simpl.
  intros Hf Hb.
  apply adj_app in Hf as [_ Hf]. apply adj_cons2 in Hf as [Han Hf].
  apply adj_cons2 in Hf as [Hnb _].
  apply adj_app in Hb as [_ Hb]. apply adj_cons2 in Hb as [Hna Hb].
  apply adj_cons2 in Hb as [Hbn _].
  by exists a, b.
Qed.

(** X9: in every reachable state the node indexed under a key carries that
    key and is linked both ways: the node before it points forward to it and
    the node after it points back to it. *)
Theorem indexed_node_linked (s : LRUCache) (k : Z) (n : loc) :
  reachable s →
  cache s !! k = Some n →
  ∃ p q v,
    prv (heap s) n = Some p ∧ nxt (heap s) n = Some q
    ∧ nxt (heap s) p = Some n ∧ prv (heap s) q = Some n
    ∧ kv (heap s) n = Some (k, v).
Proof.
  intros Hr Hc. destruct (reachable_rep s Hr) as [es Hs].
  pose proof (rep_list _ _ Hs) as Hl.
  destruct (rep_present _ _ _ _ Hs Hc) as (es1 & v & es2 & ->).
  pose proof (lru_fwd _ _ Hl) as Hf. pose proof (lru_bwd _ _ Hl) as Hb.
  rewrite fmap_app, fmap_cons, <-app_assoc in Hf, Hb. simpl in Hf, Hb.
  destruct (chain_neighbours _ _ _ _ _ _ Hf Hb) as (p & q & ? & ? & ? & ?).
  exists p, q, v. do 4 (split; [done|]).
  pose proof (lru_data _ _ Hl) as Hd.
  apply Forall_app in Hd as [_ Hd]. by apply Forall_cons in Hd as [Hd _].
Qed.

Lemma indexed_node_linked_witness :
  reachable demo_full
  ∧ cache demo_full !! 1 = Some 2%nat
  ∧ ∃ p q v,
      prv (heap demo_full) 2%nat = Some p ∧ nxt (heap demo_full) 2%nat = Some q
      ∧ nxt (heap demo_full) p = Some 2%nat ∧ prv (heap demo_full) q = Some 2%nat
      ∧ kv (heap demo_full) 2%nat = Some (1, v).
Proof.
  assert (cache demo_full !! 1 = Some 2%nat) as Hc by (vm_compute; reflexivity).
  split; [exact demo_full_reachable|]. split; [exact Hc|].
  apply (indexed_node_linked demo_full 1 2%nat demo_full_reachable Hc).
Defined.

(** ** How long a key stays *)

(** A call on another key of [K] keeps [(k, v)] in the cache, with only keys
    of [K] ahead of it. *)
Lemma call_safe K (s : LRUCache) es (k v : Z) (o : op) :
  rep s es →
  NoDup K → k ∈ K → Z.of_nat (length K) <= capacity s →
  op_key o ∈ K → op_key o ≠ k →
  safe K k v es.*2 →
  ∃ r s' es', call o s = (Ret r, s') ∧ rep s' es' ∧ safe K k v es'.*2
              ∧ capacity s' = capacity s.
Proof.
  intros Hs HK Hk Hlen Ho Hne Hsafe. pose proof (rep_list _ _ Hs) as Hl.
  destruct o as [kj|kj vj]; simpl in Ho, Hne |- *.
  - destruct (get_cases s es kj Hs)
      as [[_ ->]|(es1 & n & vj & es2 & h' & -> & _ & -> & Hs' & _)].
    + eauto 10.
    + eexists _, _, _. split; [done|]. split; [exact Hs'|]. split; [|done].
      rewrite fmap_app, fmap_cons in Hsafe. rewrite fmap_cons, fmap_app. simpl in *.
      by apply (safe_move K k v kj vj Hne Ho _ vj).
  - destruct (put_cases s es kj vj Hs)
      as [(es1 & n & v0 & es2 & h' & -> & _ & -> & Hs' & _)
         |[(_ & _ & n & h' & -> & Hs' & _)
          |(Hc & Hfull & es1 & e & ke & ve & n & h' & -> & -> & Hs' & _)]];
      eexists _, _, _; (split; [done|]); (split; [exact Hs'|]); (split; [|done]).
    + rewrite fmap_app, fmap_cons in Hsafe. rewrite fmap_cons, fmap_app. simpl in *.
      by apply (safe_move K k v kj vj Hne Ho _ v0).
    + rewrite fmap_cons. simpl. by apply safe_push.
    + rewrite fmap_cons. simpl. rewrite fmap_app in Hsafe. simpl in Hsafe.
      apply (safe_evict K k v kj vj Hne Ho _ ke ve); try done.
      * pose proof (lru_keys _ _ Hl) as Hkk. rewrite fmap_app in Hkk. exact Hkk.
      * apply (lru_lookup_None _ _ Hl) in Hc. rewrite fmap_app in Hc. exact Hc.
      * rewrite (lru_size _ _ Hl) in Hfull. rewrite length_app in Hfull.
        rewrite length_app, length_fmap. simpl in *. lia.
Qed.

Lemma run_safe K (k v : Z) ops : ∀ (s : LRUCache) es,
  rep s es →
  NoDup K → k ∈ K → Z.of_nat (length K) <= capacity s →
  Forall (λ o, op_key o ∈ K ∧ op_key o ≠ k) ops →
  safe K k v es.*2 →
  ∃ rs s' es', run ops s = Some (rs, s') ∧ rep s' es' ∧ safe K k v es'.*2.
Proof.
  induction ops as [|o ops IH]; intros s es Hs HK Hk Hlen Hops Hsafe; simpl.
  - eauto 10.
  - apply Forall_cons in Hops as [[Ho Hne] Hops].
    destruct (call_safe K s es k v o Hs HK Hk Hlen Ho Hne Hsafe)
      as (r & s1 & es1 & -> & Hs1 & Hsafe1 & Hcap1).
    destruct (IH s1 es1 Hs1 HK Hk) as (rs & s' & es' & -> & Hs' & Hsafe');
      [by rewrite Hcap1|done..|].
    eauto 10.
Qed.

(** X10: a value written under [k] is still returned by [get(k)] after any
    sequence of calls on other keys, as long as those calls name fewer than
    [capacity] distinct keys: [K] lists [k] and the other keys, without
    repetition, and has at most [capacity] elements. *)
Theorem survives_few_other_keys (s : LRUCache) (k v : Z) (K : list Z) (ops : list op) :
  reachable s →
  NoDup K →
  k ∈ K →
  Z.of_nat (length K) <= capacity s →
  Forall (λ o, op_key o ∈ K ∧ op_key o ≠ k) ops →
  ∃ rs s1 s2, run (Put k v :: ops) s = Some (rs, s1) ∧ get k s1 = (Ret v, s2).
Proof.
  intros Hr HK Hk Hlen Hops. destruct (reachable_rep s Hr) as [es Hs].
  assert (∃ s0 n es0, put k v s = (Ret tt, s0) ∧ rep s0 ((n, (k, v)) :: es0)
                      ∧ capacity s0 = capacity s)
    as (s0 & n & es0 & Hput & Hs0 & Hcap0).
  { destruct (put_cases s es k v Hs)
      as [(es1 & n & v0 & es2 & h' & _ & _ & ? & ? & _)
         |[(_ & _ & n & h' & ? & ? & _)
          |(_ & _ & es1 & e & ke & ve & n & h' & _ & ? & ? & _)]]; eauto 10. }
  destruct (run_safe K k v ops s0 _ Hs0 HK Hk) as (rs & s1 & es1 & Hrun & Hs1 & [Hin _]);
    [by rewrite Hcap0|done| |].
  { rewrite fmap_cons. apply safe_self. }
  apply list_elem_of_fmap in Hin as ([n1 [k1 v1]] & [= <- <-] & Hin).
  apply list_elem_of_split in Hin as (esa & esb & ->).
  destruct (get_hit s1 esa n1 k v esb Hs1) as (h' & Hget & _).
  exists (None :: rs), s1, (with_heap h' s1). split; [|done].
  simpl. rewrite Hput. by rewrite Hrun.
Qed.

Lemma survives_few_other_keys_witness :
  reachable demo_full
  ∧ NoDup [7; 1]
  ∧ 7 ∈ [7; 1]
  ∧ Z.of_nat (length [7; 1]) <= capacity demo_full
  ∧ Forall (λ o, op_key o ∈ [7; 1] ∧ op_key o ≠ 7) [Get 1; Put 1 5; Get 1]
  ∧ ∃ rs s1 s2,
      run (Put 7 70 :: [Get 1; Put 1 5; Get 1]) demo_full = Some (rs, s1)
      ∧ get 7 s1 = (Ret 70, s2).
Proof.
  assert (NoDup [7; 1]) as HK.
  { apply NoDup_cons. split; [|apply NoDup_singleton].
    rewrite list_elem_of_singleton. discriminate. }
  assert (7 ∈ [7; 1]) as Hk by (by left).
  assert (Z.of_nat (length [7; 1]) <= capacity demo_full) as Hlen
    by (vm_compute; discriminate).
  assert (Forall (λ o, op_key o ∈ [7; 1] ∧ op_key o ≠ 7) [Get 1; Put 1 5; Get 1]) as Hops.
  { repeat (apply Forall_cons; split; [simpl; split; [by right; left|discriminate]|]).
    apply Forall_nil_2. }
  split; [exact demo_full_reachable|]. split; [exact HK|]. split; [exact Hk|].
  split; [exact Hlen|]. split; [exact Hops|].
  apply (survives_few_other_keys demo_full 7 70 [7; 1] _
           demo_full_reachable HK Hk Hlen Hops).
Defined.

Example survives_few_other_keys_sharp :
  fst <$> run [Put 7 70; Put 8 80; Put 9 90; Get 7] demo_full
  = Some [None; None; None; Some (-1)].
Proof. vm_compute. reflexivity. Qed.

(** ** What the list primitives write *)

Lemma mbind_Ret {A B} (m : M A) (f : A → M B) (s : LRUCache) b s' :
  (m ≫= f) s = (Ret b, s') → ∃ a s1, m s = (Ret a, s1) ∧ f a s1 = (Ret b, s').
Proof.
  unfold mbind, M_bind. destruct (m s) as [[a|e|] s1]; [|done..]. eauto.
Qed.

Lemma load_Ret r (s : LRUCache) n s' :
  load r s = (Ret n, s') → s' = s ∧ ∃ l, r = Some l ∧ heap s !! l = Some n.
Proof.
  unfold load. destruct r as [l|]; simpl; [|done].
  destruct (heap s !! l) as [n'|] eqn:E; [|done].
  intros [= <- <-]. eauto.
Qed.

Lemma store_Ret r f (s : LRUCache) u s' :
  store r f s = (Ret u, s') →
  ∃ l, r = Some l ∧ is_Some (heap s !! l) ∧ s' = with_heap (alter f l (heap s)) s.
Proof.
  unfold store. destruct r as [l|]; [|done].
  destruct (heap s !! l) as [n'|] eqn:E; [|done].
  intros [= <-]. eauto.
Qed.

(** [_remove_node], whenever it returns: the node had two neighbours, which
    now point to each other, and nothing else was written. *)
Lemma _remove_node_Ret r (s : LRUCache) s' :
  _remove_node r s = (Ret tt, s') →
  ∃ n p q h',
    r = Some n ∧ s' = with_heap h' s
    ∧ prv (heap s) n = Some p ∧ nxt (heap s) n = Some q
    ∧ nxt h' p = Some q ∧ prv h' q = Some p
    ∧ (∀ x, x ≠ p → nxt h' x = nxt (heap s) x)
    ∧ (∀ x, x ≠ q → prv h' x = prv (heap s) x)
    ∧ same_data (heap s) h'.
Proof.
  unfold _remove_node. intros H.
  apply mbind_Ret in H as (nd & s1 & Hload & H).
  apply load_Ret in Hload as (-> & n & -> & Hn).
  apply mbind_Ret in H as (u & s2 & Hst1 & Hst2).
  apply store_Ret in Hst1 as (p & Hp & Hsp & ->).
  apply store_Ret in Hst2 as (q & Hq & Hsq & ->). simpl in Hsq.
  exists n, p, q, (alter (set_prev (prev nd)) q (alter (set_next (next nd)) p (heap s))).
  split; [done|]. split; [done|].
  split; [unfold prv; by rewrite Hn|]. split; [unfold nxt; by rewrite Hn|].
  rewrite Hp, Hq. rewrite Hq in Hsq. split; [|split; [|split; [|split]]].
  - rewrite nxt_set_prev. by apply nxt_set_next_eq.
  - by apply prv_set_prev_eq.
  - intros x Hx. by rewrite nxt_set_prev, nxt_set_next_ne.
  - intros x Hx. by rewrite prv_set_prev_ne, prv_set_next.
  - eapply same_data_trans; [apply same_data_set_next|apply same_data_set_prev].
Qed.

(** [_add_node], whenever it returns: the node stands between the head
    sentinel and its former successor, and nothing else was written. *)
Lemma _add_node_Ret r (s : LRUCache) s' :
  _add_node r s = (Ret tt, s') →
  ∃ n b h',
    r = Some n ∧ s' = with_heap h' s
    ∧ (n ≠ head s → nxt (heap s) (head s) = Some b)
    ∧ (∀ x, x ≠ n → x ≠ head s → nxt h' x = nxt (heap s) x)
    ∧ (∀ x, x ≠ n → x ≠ b → prv h' x = prv (heap s) x)
    ∧ (n ≠ head s → n ≠ b →
       nxt h' (head s) = Some n ∧ prv h' n = Some (head s)
       ∧ nxt h' n = Some b ∧ prv h' b = Some n)
    ∧ same_data (heap s) h'.
Proof.
  unfold _add_node, self_head. intros H.
  apply mbind_Ret in H as (hd & s0 & Hhd & H). injection Hhd as <- <-.
  apply mbind_Ret in H as (u1 & s1 & Hst1 & H).
  apply store_Ret in Hst1 as (n & -> & Hsn & ->).
  apply mbind_Ret in H as (h1 & s2 & Hld1 & H).
  apply load_Ret in Hld1 as (-> & ? & [= <-] & Hh1). simpl in Hh1.
  apply mbind_Ret in H as (u2 & s3 & Hst2 & H).
  apply store_Ret in Hst2 as (? & [= <-] & Hsn2 & ->). simpl in Hsn2 |- *.
  apply mbind_Ret in H as (h2 & s4 & Hld2 & H).
  apply load_Ret in Hld2 as (-> & ? & [= <-] & Hh2). simpl in Hh2.
  apply mbind_Ret in H as (u3 & s5 & Hst3 & Hst4).
  apply store_Ret in Hst3 as (b & Hb & Hsb & ->). simpl in Hsb.
  apply store_Ret in Hst4 as (? & [= <-] & Hsh & ->). simpl in Hsh |- *.
  set (g1 := alter (set_prev (Some (head s))) n (heap s)) in *.
  set (g2 := alter (set_next (next h1)) n g1) in *.
  set (g3 := alter (set_prev (Some n)) b g2) in *.
  set (g4 := alter (set_next (Some n)) (head s) g3) in *.
  assert (n ≠ head s → nxt (heap s) (head s) = Some b ∧ next h1 = Some b) as Hnb.
  { intros Hne. unfold g2 in Hh2. rewrite lookup_alter_ne in Hh2 by done.
    rewrite Hh1 in Hh2. injection Hh2 as <-.
    unfold g1 in Hh1. rewrite lookup_alter_ne in Hh1 by done.
    unfold nxt. rewrite Hh1. simpl. by rewrite Hb. }
  exists n, b, g4. split; [done|]. split; [done|].
  split; [intros Hne; by apply Hnb|]. split; [|split; [|split]].
  - intros x Hxn Hxh. unfold g4, g3, g2, g1.
    by rewrite nxt_set_next_ne, nxt_set_prev, nxt_set_next_ne, nxt_set_prev.
  - intros x Hxn Hxb. unfold g4, g3, g2, g1.
    by rewrite prv_set_next, prv_set_prev_ne, prv_set_next, prv_set_prev_ne.
  - intros Hne Hneb. destruct (Hnb Hne) as [_ Hnext]. split; [|split; [|split]].
    + unfold g4. by apply nxt_set_next_eq.
    + unfold g4, g3, g2, g1.
      rewrite prv_set_next, prv_set_prev_ne, prv_set_next by done.
      by apply prv_set_prev_eq.
    + unfold g4, g3, g2. rewrite nxt_set_next_ne, nxt_set_prev by done.
      rewrite Hnext. apply nxt_set_next_eq. unfold g1. by apply alter_is_Some.
    + unfold g4, g3. rewrite prv_set_next. by apply prv_set_prev_eq.
  - unfold g4, g3, g2, g1.
    repeat (eapply same_data_trans;
            [|first [apply same_data_set_next|apply same_data_set_prev]]).
    apply same_data_refl.
Qed.

Lemma chain_neighbours_in h hd l1 n l2 tl :
  fwd h (hd :: l1 ++ n :: l2 ++ [tl]) →
  bwd h (hd :: l1 ++ n :: l2 ++ [tl]) →
  ∃ p q, p ∈ hd :: l1 ∧ q ∈ l2 ++ [tl] ∧ prv h n = Some p ∧ nxt h n = Some q.
Proof.
  unfold fwd, bwd.
  destruct (snoc_exists hd l1) as (xs & a & E1).
  destruct (l2 ++ [tl]) as [|b ys] eqn:E2; [by destruct l2|].
  rewrite !app_comm_cons, E1, <-!app_assoc. simpl.
  intros Hf Hb.
  apply adj_app in Hf as [_ Hf]. apply adj_cons2 in Hf as [_ Hf].
  apply adj_cons2 in Hf as [Hnb _].
  apply adj_app in Hb as [_ Hb]. apply adj_cons2 in Hb as [Hna _].
  exists a, b. split; [|split; [by left|done]].
  apply elem_of_app. right. by left.
Qed.

(** Unlinking a node of the list writes neither the outer links of the
    sentinels nor the links of the node itself. *)
Lemma _remove_node_frame (s : LRUCache) l1 n l2 s' :
  NoDup (head s :: l1 ++ n :: l2 ++ [tail s]) →
  fwd (heap s) (head s :: l1 ++ n :: l2 ++ [tail s]) →
  bwd (heap s) (head s :: l1 ++ n :: l2 ++ [tail s]) →
  _remove_node (Some n) s = (Ret tt, s') →
  outer_links s' = outer_links s
  ∧ nxt (heap s') n = nxt (heap s) n
  ∧ prv (heap s') n = prv (heap s) n.
Proof.
  intros Hnd Hf Hb Hrun.
  destruct (chain_neighbours_in _ _ _ _ _ _ Hf Hb) as (p & q & Hp & Hq & Hnp & Hnq).
  apply _remove_node_Ret in Hrun
    as (n' & p' & q' & h' & [= <-] & -> & Hnp' & Hnq' & _ & _ & Hnxt & Hprv & _).
  rewrite Hnp in Hnp'. rewrite Hnq in Hnq'. injection Hnp' as <-. injection Hnq' as <-.
  rewrite app_comm_cons in Hnd. apply NoDup_app in Hnd as (Hnd1 & Hdisj & Hnd2).
  apply NoDup_cons in Hnd2 as [Hn2 Hnd2].
  assert (n ≠ p) as Hnp1.
  { intros <-. apply (Hdisj n Hp). by left. }
  assert (n ≠ q) as Hnq1.
  { intros <-. done. }
  assert (tail s ≠ p) as Htp.
  { intros <-. apply (Hdisj _ Hp). right. apply elem_of_app. right. by left. }
  assert (head s ≠ q) as Hhq.
  { intros <-. apply (Hdisj (head s)); [by left|]. by right. }
  unfold outer_links. simpl.
  rewrite (Hprv (head s)), (Hnxt (tail s)), (Hnxt n), (Hprv n) by done. done.
Qed.

(** Linking a node that is not in the list writes no outer link of the
    sentinels. *)
Lemma _add_node_frame (s : LRUCache) n l s' :
  NoDup (n :: head s :: l ++ [tail s]) →
  fwd (heap s) (head s :: l ++ [tail s]) →
  _add_node (Some n) s = (Ret tt, s') →
  outer_links s' = outer_links s.
Proof.
  intros Hnd Hf Hrun.
  apply _add_node_Ret in Hrun as (n' & b & h' & [= <-] & -> & Hb & Hnxt & Hprv & _).
  apply NoDup_cons in Hnd as [Hn Hnd]. apply NoDup_cons in Hnd as [Hh Hnd].
  rewrite not_elem_of_cons in Hn. destruct Hn as [Hnh Hn].
  specialize (Hb Hnh).
  assert (b ∈ l ++ [tail s]) as Hbin.
  { unfold fwd in Hf. destruct (l ++ [tail s]) as [|b' ys] eqn:E; [by destruct l|].
    apply adj_cons2 in Hf as [Hf _]. rewrite Hb in Hf. injection Hf as ->. by left. }
  assert (head s ≠ b) as Hhb by (by intros <-).
  assert (tail s ≠ n) as Htn.
  { intros <-. apply Hn. apply elem_of_app. right. by left. }
  assert (tail s ≠ head s) as Hth.
  { intros Heq. apply Hh. rewrite <-Heq. apply elem_of_app. right. by left. }
  unfold outer_links. simpl.
  rewrite (Hprv (head s)), (Hnxt (tail s)) by done. done.
Qed.

Lemma _move_to_head_frame (s : LRUCache) l1 n l2 s' :
  NoDup (head s :: l1 ++ n :: l2 ++ [tail s]) →
  fwd (heap s) (head s :: l1 ++ n :: l2 ++ [tail s]) →
  bwd (heap s) (head s :: l1 ++ n :: l2 ++ [tail s]) →
  _move_to_head (Some n) s = (Ret tt, s') →
  outer_links s' = outer_links s.
Proof.
  intros Hnd Hf Hb Hrun. unfold _move_to_head in Hrun.
  apply mbind_Ret in Hrun as ([] & sa & Hrem & Hadd).
  destruct (_remove_node_frame s l1 n l2 sa Hnd Hf Hb Hrem) as (Hout & _).
  destruct (_remove_node_mid s l1 n l2 Hnd Hf Hb) as (h1 & Hrem' & Hf1 & _).
  rewrite Hrem in Hrem'. injection Hrem' as ->.
  rewrite <-Hout. apply (_add_node_frame (with_heap h1 s) n (l1 ++ l2)); simpl.
  - rewrite <-app_assoc. by rewrite app_comm_cons, <-Permutation_middle in Hnd.
  - by rewrite <-app_assoc.
  - done.
Qed.

Lemma _pop_tail_frame (s : LRUCache) l1 e r s' :
  NoDup (head s :: l1 ++ [e; tail s]) →
  fwd (heap s) (head s :: l1 ++ [e; tail s]) →
  bwd (heap s) (head s :: l1 ++ [e; tail s]) →
  _pop_tail s = (Ret r, s') →
  outer_links s' = outer_links s.
Proof.
  intros Hnd Hf Hb Hrun. unfold _pop_tail, self_tail in Hrun.
  apply mbind_Ret in Hrun as (tl & s0 & Htl & Hrun). injection Htl as <- <-.
  apply mbind_Ret in Hrun as (t & s1 & Hload & Hrun).
  apply load_Ret in Hload as (-> & ? & [= <-] & Ht).
  apply mbind_Ret in Hrun as ([] & s2 & Hrem & Hret). injection Hret as _ <-.
  assert (prev t = Some e) as He.
  { pose proof Hb as Hb'. unfold bwd in Hb'. rewrite app_comm_cons in Hb'.
    apply adj_app in Hb' as [_ Hb']. apply adj_cons2 in Hb' as [Hb' _].
    unfold prv in Hb'. by rewrite Ht in Hb'. }
  rewrite He in Hrem.
  by destruct (_remove_node_frame s l1 e [] s2 Hnd Hf Hb Hrem) as (Hout & _).
Qed.

Lemma get_body_frame (s : LRUCache) es k r s' :
  lru_list s es →
  get_body k s = (Ret r, s') →
  outer_links s' = outer_links s.
Proof.
  intros Hs Hrun. unfold get_body, self_cache in Hrun.
  apply mbind_Ret in Hrun as (c & s0 & Hc & Hrun). injection Hc as <- <-.
  destruct (cache s !! k) as [n|] eqn:Hk.
  - apply (lru_lookup_Some _ _ Hs) in Hk as [v Hin].
    apply list_elem_of_split in Hin as (es1 & es2 & ->).
    apply mbind_Ret in Hrun as ([] & s1 & Hmove & Hrun).
    apply mbind_Ret in Hrun as (nd & s2 & Hload & Hret).
    apply load_Ret in Hload as (-> & _). injection Hret as _ <-.
    destruct Hs as [Hnd _ Hf Hb _ _].
    rewrite fmap_app, fmap_cons, <-app_assoc in Hnd, Hf, Hb. simpl in Hnd, Hf, Hb.
    by eapply _move_to_head_frame.
  - by injection Hrun as _ <-.
Qed.

Lemma put_body_frame (s : LRUCache) es k v u s' :
  lru_list s es →
  0 < capacity s →
  put_body k v s = (Ret u, s') →
  outer_links s' = outer_links s.
Proof.
  intros Hs Hcap Hrun. unfold put_body, self_cache in Hrun.
  apply mbind_Ret in Hrun as (c & s0 & Hc & Hrun). injection Hc as <- <-.
  destruct (cache s !! k) as [n|] eqn:Hk.
  - apply (lru_lookup_Some _ _ Hs) in Hk as [v0 Hin].
    apply list_elem_of_split in Hin as (es1 & es2 & ->).
    apply mbind_Ret in Hrun as ([] & s1 & Hstore & Hmove).
    apply store_Ret in Hstore as (? & [= <-] & Hsn & ->).
    destruct Hs as [Hnd _ Hf Hb _ _].
    rewrite fmap_app, fmap_cons, <-app_assoc in Hnd, Hf, Hb. simpl in Hnd, Hf, Hb.
    rewrite (_move_to_head_frame (with_heap (alter (set_value v) n (heap s)) s)
               (es1.*1) n (es2.*1) s' Hnd); simpl.
    + unfold outer_links. simpl. by rewrite prv_set_value, nxt_set_value.
    + eapply adj_mono; [|exact Hf]. intros x y _ _. simpl. by rewrite nxt_set_value.
    + eapply adj_mono; [|exact Hb]. intros x y _ _. simpl. by rewrite prv_set_value.
    + by destruct u.
  - apply mbind_Ret in Hrun as (r1 & s1 & Hnew & Hrun).
    unfold new_Node in Hnew. injection Hnew as <- <-.
    destruct (lru_list_alloc s es k v Hs) as (Hs1 & Hn & _ & _).
    set (n := fresh (dom (heap s))) in *.
    set (h1 := <[n := Build_Node k v None None]> (heap s)) in *.
    assert (outer_links (with_heap h1 s) = outer_links s) as Hout1.
    { unfold outer_links, prv, nxt. simpl. unfold h1.
      rewrite !lookup_insert_ne; [done| |].
      - intros ->. apply Hn. right. apply elem_of_app. right. by left.
      - intros ->. apply Hn. by left. }
    rewrite <-Hout1. clear Hout1.
    unfold self_cache, self_capacity in Hrun.
    apply mbind_Ret in Hrun as (c & s2 & Hc & Hrun). injection Hc as <- <-.
    apply mbind_Ret in Hrun as (cap & s2 & Hc & Hrun). injection Hc as <- <-.
    apply mbind_Ret in Hrun as ([] & s3 & Hevict & Hrun).
    apply mbind_Ret in Hrun as ([] & s4 & Hadd & Hset).
    assert (outer_links s' = outer_links s4) as ->.
    { unfold cache_set in Hset. by injection Hset as _ <-. }
    simpl in Hevict.
    destruct (decide (Z.of_nat (size (cache s)) >= capacity s)) as [Hfull|Hroom].
    + apply mbind_Ret in Hevict as (tl & s5 & Hpop & Hevict).
      apply mbind_Ret in Hevict as (t & s6 & Hload & Hdel).
      assert (∃ es1 e ke ve, es = es1 ++ [(e, (ke, ve))]) as (es1 & e & ke & ve & ->).
      { rewrite (lru_size _ _ Hs) in Hfull.
        destruct es as [|x es]; [simpl in Hfull; lia|].
        destruct (snoc_exists x es) as (es1 & [e [ke ve]] & ->). eauto. }
      destruct (evict_spec (with_heap h1 s) es1 e ke ve Hs1)
        as (h2 & Hpop' & (t' & Ht' & Hkt') & Hce & Hs2 & _).
      assert (outer_links s5 = outer_links (with_heap h1 s)) as Hout5.
      { destruct Hs1 as [Hnd1 _ Hf1 Hb1 _ _].
        rewrite fmap_app, <-app_assoc in Hnd1, Hf1, Hb1. simpl in Hnd1, Hf1, Hb1.
        by eapply (_pop_tail_frame (with_heap h1 s) (es1.*1) e). }
      rewrite Hpop in Hpop'. injection Hpop' as -> ->.
      apply load_Ret in Hload as (-> & ? & [= <-] & Ht). simpl in Ht, Ht', Hce.
      rewrite Ht in Ht'. injection Ht' as ->.
      unfold cache_del in Hdel. simpl in Hdel. rewrite Hkt', Hce in Hdel.
      injection Hdel as <-.
      rewrite <-Hout5.
      apply (_add_node_frame
               (with_cache (delete ke (cache s)) (with_heap h2 s)) n (es1.*1)); simpl.
      * apply NoDup_cons. split; [|apply Hs2].
        intros Hin. apply Hn. rewrite fmap_app, <-app_assoc.
        apply elem_of_cons in Hin as [->|Hin]; [by left|]. right.
        apply elem_of_app in Hin as [Hin|Hin]; apply elem_of_app; [by left|right].
        simpl. by right.
      * apply Hs2.
      * exact Hadd.
    + injection Hevict as <-.
      apply (_add_node_frame (with_heap h1 s) n (es.*1)); simpl.
      * apply NoDup_cons. split; [done|apply Hs1].
      * apply Hs1.
      * exact Hadd.
Qed.

Lemma outer_links_with_lock b (s : LRUCache) : outer_links (with_lock b s) = outer_links s.
Proof. done. Qed.

Lemma call_frame (s : LRUCache) es o r s' :
  rep s es → call o s = (Ret r, s') → outer_links s' = outer_links s.
Proof.
  intros [Hs _ Hcap Hl] Hcall. destruct o as [k|k v]; simpl in Hcall.
  - unfold get in Hcall. rewrite with_self_lock_free in Hcall by done.
    destruct (get_body k (with_lock true s)) as [[r'| |] s2] eqn:Hbody; [|done..].
    simpl in Hcall. injection Hcall as _ <-.
    rewrite outer_links_with_lock, <-(outer_links_with_lock true s).
    eapply get_body_frame; [|exact Hbody]. by apply lru_list_with_lock.
  - unfold put in Hcall. rewrite with_self_lock_free in Hcall by done.
    destruct (put_body k v (with_lock true s)) as [[r'| |] s2] eqn:Hbody; [|done..].
    simpl in Hcall. injection Hcall as _ <-.
    rewrite outer_links_with_lock, <-(outer_links_with_lock true s).
    eapply put_body_frame; [| |exact Hbody]; [by apply lru_list_with_lock|done].
Qed.

Lemma run_frame ops : ∀ (s : LRUCache) es rs s',
  rep s es → run ops s = Some (rs, s') → outer_links s' = outer_links s.
Proof.
  induction ops as [|o ops IH]; intros s es rs s' Hs Hrun; simpl in Hrun.
  - by injection Hrun as <- <-.
  - destruct (call_rep s es o Hs) as (r & s1 & es1 & Hcall & Hs1 & _).
    rewrite Hcall in Hrun.
    destruct (run ops s1) as [[rs1 s2]|] eqn:Hrun1; [|done].
    injection Hrun as <- <-.
    rewrite (IH s1 es1 _ _ Hs1 Hrun1). by eapply call_frame.
Qed.

Lemma __init___outer cap s : __init__ cap = Ret s → outer_links s = (None, None).
Proof.
  unfold __init__. destruct (decide (cap <= 0)); [done|]. intros [= <-].
  set (hd := fresh (dom (∅ : gmap loc _Node))).
  set (h1 := <[hd := Build_Node 0 0 None None]> (∅ : gmap loc _Node)).
  set (tl := fresh (dom h1)).
  assert (tl ≠ hd) as Hne.
  { intros Heq. apply (is_fresh (dom h1)). fold tl. rewrite Heq.
    unfold h1. rewrite dom_insert_L. apply elem_of_union. left.
    by apply elem_of_singleton. }
  unfold outer_links. cbn [heap head tail]. fold h1 tl.
  rewrite prv_set_prev_ne, prv_set_next, nxt_set_prev by done.
  rewrite nxt_set_next_ne by done.
  unfold prv, nxt, h1.
  by rewrite lookup_insert_ne, lookup_insert_eq, lookup_insert_eq by done.
Qed.

Lemma rep_not_sentinel (s : LRUCache) es k n :
  rep s es → cache s !! k = Some n → n ≠ head s ∧ n ≠ tail s.
Proof.
  intros Hs Hc. destruct (rep_present _ _ _ _ Hs Hc) as (es1 & v & es2 & ->).
  pose proof (lru_nodup _ _ (rep_list _ _ Hs)) as Hnd.
  rewrite fmap_app, fmap_cons in Hnd. simpl in Hnd.
  apply NoDup_cons in Hnd as [Hh Hnd]. split.
  - intros ->. apply Hh. apply elem_of_app. left. apply elem_of_app. right. by left.
  - intros ->. apply NoDup_app in Hnd as (_ & Hdisj & _).
    apply (Hdisj (tail s)); [|by left]. apply elem_of_app. right. by left.
Qed.

Lemma reachable_outer (s : LRUCache) : reachable s → outer_links s = (None, None).
Proof.
  intros (cap & ops & rs & Hrun). unfold construct_run in Hrun.
  destruct (__init__ cap) as [s0| |] eqn:Hinit; [|done..].
  assert (rep s0 []) as Hs0.
  { destruct (decide (cap <= 0)) as [?|?].
    - unfold __init__ in Hinit. by rewrite decide_True in Hinit.
    - destruct (__init___spec cap) as (s0' & Hinit' & ? & _); [lia|]. congruence. }
  rewrite (run_frame ops s0 [] rs s Hs0 Hrun). by eapply __init___outer.
Qed.

(** X11: in every reachable state the two sentinels are never indexed by the
    dictionary, whatever the keys in use, and their outer links, [head.prev]
    and [tail.next], are still [None]. *)
Theorem sentinels_stay_outside (s : LRUCache) :
  reachable s →
  outer_links s = (None, None)
  ∧ ∀ k n, cache s !! k = Some n → n ≠ head s ∧ n ≠ tail s.
Proof.
  intros Hr. destruct (reachable_rep s Hr) as [es Hs]. split.
  - by apply reachable_outer.
  - intros k n. by apply rep_not_sentinel with es.
Qed.

(** A cache of capacity 2 in which key 0, the key the sentinels carry, is
    stored. *)
Lemma sentinels_stay_outside_witness :
  reachable (state_after 2 [Put 0 5; Put 1 1; Get 0; Put 2 2])
  ∧ outer_links (state_after 2 [Put 0 5; Put 1 1; Get 0; Put 2 2]) = (None, None)
  ∧ ∀ k n, cache (state_after 2 [Put 0 5; Put 1 1; Get 0; Put 2 2]) !! k = Some n →
           n ≠ head (state_after 2 [Put 0 5; Put 1 1; Get 0; Put 2 2])
           ∧ n ≠ tail (state_after 2 [Put 0 5; Put 1 1; Get 0; Put 2 2]).
Proof.
  assert (reachable (state_after 2 [Put 0 5; Put 1 1; Get 0; Put 2 2])) as Hr.
  { exists 2, [Put 0 5; Put 1 1; Get 0; Put 2 2], [None; None; Some 5; None].
    vm_compute. reflexivity. }
  split; [exact Hr|].
  apply (sentinels_stay_outside (state_after 2 [Put 0 5; Put 1 1; Get 0; Put 2 2]) Hr).
Defined.

(** X12: on a cache that holds no key, [_pop_tail] raises [AttributeError]
    before it writes anything: the node before the tail sentinel is the head
    sentinel, whose [prev] is [None]. *)
Theorem _pop_tail_empty (s : LRUCache) :
  reachable s →
  cache s = ∅ →
  _pop_tail s = (Raise AttributeError, s).
Proof.
  intros Hr Hc. destruct (reachable_rep s Hr) as [es Hs].
  pose proof (rep_list _ _ Hs) as Hl.
  assert (es = []) as ->.
  { pose proof (lru_size _ _ Hl) as Hsize. rewrite Hc, map_size_empty in Hsize.
    by destruct es. }
  assert (prv (heap s) (head s) = None ∧ nxt (heap s) (tail s) = None) as [Hhp _].
  { pose proof (reachable_outer s Hr) as Ho.
    unfold outer_links in Ho. by injection Ho as -> ->. }
  destruct Hl as [_ _ Hf Hb _ _]. simpl in Hf, Hb.
  destruct Hf as [Hf _]. destruct Hb as [Hb _].
  destruct (prv_lookup _ _ _ Hb) as (t & Ht & Htp).
  destruct (nxt_lookup _ _ _ Hf) as (hn & Hhn & Hhnn).
  unfold _pop_tail, self_tail, mbind, M_bind. norm.
  rewrite (load_ok _ _ _ Ht), Htp. norm.
  unfold _remove_node, mbind, M_bind.
  rewrite (load_ok _ _ _ Hhn). norm.
  unfold prv in Hhp. rewrite Hhn in Hhp. simpl in Hhp. rewrite Hhp. done.
Qed.

Lemma _pop_tail_empty_witness :
  reachable (state_after 3 [Get 1; Get 2])
  ∧ cache (state_after 3 [Get 1; Get 2]) = ∅
  ∧ _pop_tail (state_after 3 [Get 1; Get 2])
    = (Raise AttributeError, state_after 3 [Get 1; Get 2]).
Proof.
  assert (reachable (state_after 3 [Get 1; Get 2])) as Hr.
  { exists 3, [Get 1; Get 2], [Some (-1); Some (-1)]. vm_compute. reflexivity. }
  assert (cache (state_after 3 [Get 1; Get 2]) = ∅) as Hc by (vm_compute; reflexivity).
  split; [exact Hr|]. split; [exact Hc|].
  apply (_pop_tail_empty (state_after 3 [Get 1; Get 2]) Hr Hc).
Defined.

(** ** The list primitives on a reachable cache *)

(** The walk from the head sentinel depends on the chain alone, not on the
    dictionary. *)
Lemma entries_chain (s : LRUCache) es :
  NoDup (head s :: es.*1 ++ [tail s]) →
  fwd (heap s) (head s :: es.*1 ++ [tail s]) →
  bwd (heap s) (head s :: es.*1 ++ [tail s]) →
  Forall (λ e, kv (heap s) e.1 = Some e.2) es →
  entries s = Some es.*2.
Proof.
  intros Hnd Hf Hb Hd.
  assert (length (head s :: es.*1 ++ [tail s]) ≤ size (dom (heap s)))%nat as Hle.
  { apply submseteq_length, NoDup_submseteq; [done|].
    intros x Hx. apply elem_of_elements, elem_of_dom. by eapply chain_alloc. }
  rewrite size_dom in Hle. simpl in Hle. rewrite length_app, length_fmap in Hle.
  simpl in Hle.
  assert (is_Some (heap s !! head s)) as [hn Hhn].
  { eapply chain_alloc; [done..|]. by left. }
  unfold entries. rewrite Hhn. simpl.
  rewrite <-(walk_chain (heap s) (tail s) es (head s) (size (heap s))).
  - unfold nxt. by rewrite Hhn.
  - done.
  - apply NoDup_cons in Hnd as [_ Hnd]. apply NoDup_app in Hnd as (_ & Hdisj & _).
    intros Hin. apply (Hdisj _ Hin). by left.
  - done.
  - lia.
Qed.

(** X13: on a cache that holds at least one key, [_pop_tail] returns the node
    of the last entry of the recency list, the node the dictionary indexes
    under that entry's key, and unlinks it; the dictionary is not touched. *)
Theorem _pop_tail_last (s : LRUCache) (l : list (Z * Z)) (ke ve : Z) :
  reachable s →
  entries s = Some (l ++ [(ke, ve)]) →
  ∃ e s',
    _pop_tail s = (Ret (Some e), s')
    ∧ cache s !! ke = Some e
    ∧ kv (heap s') e = Some (ke, ve)
    ∧ entries s' = Some l
    ∧ cache s' = cache s.
Proof.
  intros Hr He. destruct (reachable_rep s Hr) as [es Hs].
  pose proof (rep_list _ _ Hs) as Hl.
  rewrite (entries_lru_list _ _ Hl) in He. injection He as He.
  destruct es as [|x es]; [by destruct l|].
  destruct (snoc_exists x es) as (es1 & [e [ke' ve']] & Hsnoc).
  rewrite Hsnoc in He, Hl. clear Hsnoc.
  rewrite fmap_app in He. simpl in He. apply app_inj_tail in He as [<- [= -> ->]].
  destruct (evict_spec s es1 e ke ve Hl)
    as (h' & Hpop & (t & Ht & Hkt) & Hc & Hs' & Hd' & _).
  exists e, (with_heap h' s). split; [done|]. split; [done|].
  split; [|split; [|done]].
  - rewrite Hd'. pose proof (lru_data _ _ Hl) as Hd.
    apply Forall_app in Hd as [_ Hd]. by apply Forall_cons in Hd as [Hd _].
  - destruct Hs' as [Hnd' _ Hf' Hb' Hdata' _]. by apply entries_chain.
Qed.

Lemma _pop_tail_last_witness :
  reachable demo_full
  ∧ entries demo_full = Some ([(2, 2)] ++ [(1, 1)])
  ∧ ∃ e s',
      _pop_tail demo_full = (Ret (Some e), s')
      ∧ cache demo_full !! 1 = Some e
      ∧ kv (heap s') e = Some (1, 1)
      ∧ entries s' = Some [(2, 2)]
      ∧ cache s' = cache demo_full.
Proof.
  assert (entries demo_full = Some ([(2, 2)] ++ [(1, 1)])) as He
    by (vm_compute; reflexivity).
  split; [exact demo_full_reachable|]. split; [exact He|].
  apply (_pop_tail_last demo_full [(2, 2)] 1 1 demo_full_reachable He).
Defined.

(** X14: [_remove_node] on the node indexed under a key unlinks exactly that
    entry from the recency list; it leaves the dictionary as it is, and the
    removed node keeps its key, its value and its two links, which still
    point to its former neighbours. *)
Theorem _remove_node_unlinks (s : LRUCache) (k : Z) (n : loc) :
  reachable s →
  cache s !! k = Some n →
  ∃ s' l1 v l2,
    _remove_node (Some n) s = (Ret tt, s')
    ∧ entries s = Some (l1 ++ (k, v) :: l2)
    ∧ entries s' = Some (l1 ++ l2)
    ∧ cache s' = cache s
    ∧ kv (heap s') n = Some (k, v)
    ∧ nxt (heap s') n = nxt (heap s) n
    ∧ prv (heap s') n = prv (heap s) n.
Proof.
  intros Hr Hc. destruct (reachable_rep s Hr) as [es Hs].
  pose proof (rep_list _ _ Hs) as Hl.
  destruct (rep_present _ _ _ _ Hs Hc) as (es1 & v & es2 & ->).
  pose proof Hl as [Hnd _ Hf Hb Hd _].
  rewrite fmap_app, fmap_cons, <-app_assoc in Hnd, Hf, Hb. simpl in Hnd, Hf, Hb.
  destruct (_remove_node_mid s _ _ _ Hnd Hf Hb) as (h' & Hrun & Hf' & Hb' & Hd').
  destruct (_remove_node_frame s _ _ _ _ Hnd Hf Hb Hrun) as (_ & Hn1 & Hn2).
  exists (with_heap h' s), es1.*2, v, es2.*2.
  split; [done|]. split; [|split; [|split; [done|split; [|done]]]].
  - rewrite (entries_lru_list _ _ Hl). by rewrite fmap_app.
  - rewrite <-fmap_app. apply entries_chain; simpl.
    + rewrite fmap_app, <-app_assoc.
      rewrite app_comm_cons, <-Permutation_middle in Hnd.
      by apply NoDup_cons in Hnd as [_ Hnd].
    + by rewrite fmap_app, <-app_assoc.
    + by rewrite fmap_app, <-app_assoc.
    + rewrite <-Permutation_middle in Hd. apply Forall_cons in Hd as [_ Hd].
      eapply Forall_impl; [exact Hd|]. intros e He. simpl. destruct Hd' as [-> _]. done.
  - destruct Hd' as [Hkv _]. simpl. rewrite Hkv.
    apply Forall_app in Hd as [_ Hd]. by apply Forall_cons in Hd as [Hd _].
Qed.

Lemma _remove_node_unlinks_witness :
  reachable demo_full
  ∧ cache demo_full !! 2 = Some 3%nat
  ∧ ∃ s' l1 v l2,
      _remove_node (Some 3%nat) demo_full = (Ret tt, s')
      ∧ entries demo_full = Some (l1 ++ (2, v) :: l2)
      ∧ entries s' = Some (l1 ++ l2)
      ∧ cache s' = cache demo_full
      ∧ kv (heap s') 3%nat = Some (2, v)
      ∧ nxt (heap s') 3%nat = nxt (heap demo_full) 3%nat
      ∧ prv (heap s') 3%nat = prv (heap demo_full) 3%nat.
Proof.
  assert (cache demo_full !! 2 = Some 3%nat) as Hc by (vm_compute; reflexivity).
  split; [exact demo_full_reachable|]. split; [exact Hc|].
  apply (_remove_node_unlinks demo_full 2 3%nat demo_full_reachable Hc).
Defined.

(** X15: [_add_node] on a newly created node places it at the front of the
    recency list, before every entry already there; the dictionary is not
    touched, so the node is linked but not yet indexed. *)
Theorem _add_node_new (s : LRUCache) (k v : Z) :
  reachable s →
  ∃ r s1 s2 l,
    new_Node k v s = (Ret r, s1)
    ∧ _add_node r s1 = (Ret tt, s2)
    ∧ entries s = Some l
    ∧ entries s2 = Some ((k, v) :: l)
    ∧ cache s2 = cache s.
Proof.
  intros Hr. destruct (reachable_rep s Hr) as [es Hs].
  pose proof (rep_list _ _ Hs) as Hl.
  destruct (lru_list_alloc s es k v Hl) as (Hs1 & Hn & Hkv & _).
  set (n := fresh (dom (heap s))) in *.
  set (h1 := <[n := Build_Node k v None None]> (heap s)) in *.
  pose proof Hs1 as [Hnd1 _ Hf1 Hb1 Hd1 _].
  destruct (_add_node_head (with_heap h1 s) n (es.*1)) as (h2 & Hadd & Hf2 & Hb2 & Hd2 & _);
    [by apply NoDup_cons|by eapply kv_is_Some|done..|].
  exists (Some n), (with_heap h1 s), (with_heap h2 s), es.*2.
  split; [done|]. split; [done|]. split; [by apply entries_lru_list|].
  split; [|done].
  apply (entries_chain (with_heap h2 s) ((n, (k, v)) :: es)); simpl.
  - rewrite (perm_swap n (head s)). by apply NoDup_cons.
  - done.
  - done.
  - apply Forall_cons. split; [simpl; by rewrite Hd2|].
    eapply Forall_impl; [exact Hd1|]. intros e He. simpl in *. by rewrite Hd2.
Qed.

Lemma _add_node_new_witness :
  reachable demo_full
  ∧ ∃ r s1 s2 l,
      new_Node 9 90 demo_full = (Ret r, s1)
      ∧ _add_node r s1 = (Ret tt, s2)
      ∧ entries demo_full = Some l
      ∧ entries s2 = Some ((9, 90) :: l)
      ∧ cache s2 = cache demo_full.
Proof.
  split; [exact demo_full_reachable|].
  apply (_add_node_new demo_full 9 90). exact demo_full_reachable.
Defined.

(** ** Promotion by [get] and the order of the list *)

(** X16: a key that [get] has just read is kept, with its value, through
    any sequence of calls on other keys that name fewer than [capacity]
    distinct keys ([K] lists [k] and the other keys, without repetition, and
    has at most [capacity] elements): reading a key promotes it as writing
    does. *)
Theorem survives_after_get (s : LRUCache) (k v : Z) (K : list Z) (ops : list op) :
  reachable s →
  stored s k = Some v →
  NoDup K →
  k ∈ K →
  Z.of_nat (length K) <= capacity s →
  Forall (λ o, op_key o ∈ K ∧ op_key o ≠ k) ops →
  ∃ rs s1 s2, run (Get k :: ops) s = Some (rs, s1) ∧ get k s1 = (Ret v, s2).
Proof.
  intros Hr Hst HK Hk Hlen Hops. destruct (reachable_rep s Hr) as [es Hs].
  apply (stored_lru_list _ _ k v (rep_list _ _ Hs)) in Hst.
  apply list_elem_of_fmap in Hst as ([n [k0 v0]] & [= <- <-] & Hin).
  apply list_elem_of_split in Hin as (esa & esb & ->).
  destruct (get_hit s esa n k v esb Hs) as (h0 & Hget & Hs0 & _).
  destruct (run_safe K k v ops (with_heap h0 s) _ Hs0 HK Hk)
    as (rs & s1 & es1 & Hrun & Hs1 & [Hin _]); [done..| |].
  { rewrite fmap_cons. apply safe_self. }
  apply list_elem_of_fmap in Hin as ([n1 [k1 v1]] & [= <- <-] & Hin).
  apply list_elem_of_split in Hin as (esc & esd & ->).
  destruct (get_hit s1 esc n1 k v esd Hs1) as (h' & Hget' & _).
  exists (Some v :: rs), s1, (with_heap h' s1). split; [|done].
  simpl. rewrite Hget. by rewrite Hrun.
Qed.

Lemma survives_after_get_witness :
  reachable demo_full
  ∧ stored demo_full 1 = Some 1
  ∧ NoDup [1; 8]
  ∧ 1 ∈ [1; 8]
  ∧ Z.of_nat (length [1; 8]) <= capacity demo_full
  ∧ Forall (λ o, op_key o ∈ [1; 8] ∧ op_key o ≠ 1) [Put 8 80; Get 8]
  ∧ ∃ rs s1 s2,
      run (Get 1 :: [Put 8 80; Get 8]) demo_full = Some (rs, s1)
      ∧ get 1 s1 = (Ret 1, s2).
Proof.
  assert (stored demo_full 1 = Some 1) as Hst by (vm_compute; reflexivity).
  assert (NoDup [1; 8]) as HK.
  { apply NoDup_cons. split; [|apply NoDup_singleton].
    rewrite list_elem_of_singleton. discriminate. }
  assert (1 ∈ [1; 8]) as Hk by (by left).
  assert (Z.of_nat (length [1; 8]) <= capacity demo_full) as Hlen
    by (vm_compute; discriminate).
  assert (Forall (λ o, op_key o ∈ [1; 8] ∧ op_key o ≠ 1) [Put 8 80; Get 8]) as Hops.
  { repeat (apply Forall_cons; split; [simpl; split; [by right; left|discriminate]|]).
    apply Forall_nil_2. }
  split; [exact demo_full_reachable|]. split; [exact Hst|]. split; [exact HK|].
  split; [exact Hk|]. split; [exact Hlen|]. split; [exact Hops|].
  apply (survives_after_get demo_full 1 1 [1; 8] _
           demo_full_reachable Hst HK Hk Hlen Hops).
Defined.

Example without_get_key_1_is_evicted :
  fst <$> run [Put 8 80; Get 1] demo_full = Some [None; Some (-1)].
Proof. vm_compute. reflexivity. Qed.

(** X17: after any sequence of calls on a new cache, the recency list is in
    the order of last touch: every key in it was touched by some call, and
    from the front to the back each key was last touched strictly earlier
    than the one before it. *)
Theorem list_ordered_by_last_touch (cap : Z) (ops : list op) rs (s : LRUCache) :
  construct_run cap ops = Some (rs, s) →
  ∃ l, entries s = Some l
       ∧ recent_first (last_touch cap ops) (length ops) l.*1.
Proof.
  intros Hrun. unfold construct_run, last_touch in *.
  destruct (__init__ cap) as [s0| |] eqn:Hinit; [|done..].
  assert (rep s0 []) as Hs0.
  { destruct (decide (cap <= 0)) as [?|?].
    - unfold __init__ in Hinit. by rewrite decide_True in Hinit.
    - destruct (__init___spec cap) as (s0' & Hinit' & ? & _); [lia|]. congruence. }
  destruct (run_recent_first ops s0 [] ∅ 0%nat rs s Hs0 I Hrun) as (es & Hs & Hrf).
  exists es.*2. split; [|done]. apply entries_lru_list, Hs.
Qed.

Lemma list_ordered_by_last_touch_witness :
  construct_run 3 [Put 1 1; Put 2 2; Put 3 3; Get 1]
  = Some ([None; None; None; Some 1], state_after 3 [Put 1 1; Put 2 2; Put 3 3; Get 1])
  ∧ ∃ l, entries (state_after 3 [Put 1 1; Put 2 2; Put 3 3; Get 1]) = Some l
         ∧ recent_first (last_touch 3 [Put 1 1; Put 2 2; Put 3 3; Get 1])
             (length [Put 1 1; Put 2 2; Put 3 3; Get 1]) l.*1.
Proof.
  assert (construct_run 3 [Put 1 1; Put 2 2; Put 3 3; Get 1]
          = Some ([None; None; None; Some 1],
                  state_after 3 [Put 1 1; Put 2 2; Put 3 3; Get 1])) as Hrun
    by (vm_compute; reflexivity).
  split; [exact Hrun|].
  apply (list_ordered_by_last_touch 3 _ _ _ Hrun).
Defined.

Example list_ordered_by_last_touch_stamps :
  entries (state_after 3 [Put 1 1; Put 2 2; Put 3 3; Get 1]) = Some [(1, 1); (3, 3); (2, 2)]
  ∧ last_touch 3 [Put 1 1; Put 2 2; Put 3 3; Get 1] !! 1 = Some 3%nat
  ∧ last_touch 3 [Put 1 1; Put 2 2; Put 3 3; Get 1] !! 3 = Some 2%nat
  ∧ last_touch 3 [Put 1 1; Put 2 2; Put 3 3; Get 1] !! 2 = Some 1%nat.
Proof. repeat split; vm_compute; reflexivity. Qed.

(** ** The lock on every way out *)

(** X18: in every state, well formed or not, a call made while the lock is
    free does not block and leaves the lock free, whether its body returns or
    raises, and a call made while the lock is held blocks without changing
    the state. *)
Theorem lock_free_after_call (s : LRUCache) (o : op) :
  if lock s then call o s = (Block, s)
  else lock (snd (call o s)) = false ∧ fst (call o s) ≠ Block.
Proof.
  destruct (lock s) eqn:Hl.
  - destruct o as [k|k v]; simpl.
    + unfold get, with_self_lock, acquire. by rewrite Hl.
    + unfold put, with_self_lock, acquire. by rewrite Hl.
  - destruct o as [k|k v]; simpl.
    + unfold get. rewrite with_self_lock_free by done.
      pose proof (never_blocks_get_body k (with_lock true s)) as Hnb.
      by destruct (get_body k (with_lock true s)) as [[r|e|] s2].
    + unfold put. rewrite with_self_lock_free by done.
      pose proof (never_blocks_put_body k v (with_lock true s)) as Hnb.
      by destruct (put_body k v (with_lock true s)) as [[r|e|] s2].
Qed.

Example lock_free_after_raise :
  call (Get 1) broken = (Raise AttributeError, broken)
  ∧ fst (call (Put 1 7) broken) = Raise AttributeError
  ∧ lock (snd (call (Put 1 7) broken)) = false.
Proof. repeat split; vm_compute; reflexivity. Qed.

(** ** Every interleaving is a sequence of calls *)

(** X19: whatever the keys of the threads, however many threads there are and
    however their steps interleave, the shared cache is, up to the lock, the
    cache after some sequence of the threads' own calls run one after
    another; at most one thread is between acquire and release, and the lock
    is held exactly then; no body raises; and what a thread has read is what
    its [get] returned in that sequence. *)
Theorem interleaving_is_sequential (s : LRUCache) (kvs : list (Z * Z)) sched s' ws' :
  reachable s →
  interleave sched s (workers kvs) = Some (s', ws') →
  ∃ ops rs,
    run ops s = Some (rs, with_lock false s')
    ∧ Forall (call_of kvs) ops
    ∧ holders ws' = Nat.b2n (lock s')
    ∧ Forall (λ w, ∀ e, at_pc w ≠ Raising e ∧ at_pc w ≠ Dead e) ws'
    ∧ Forall (λ w, ∀ r, observed w = Some r →
        ∃ j : nat, ops !! j = Some (Get (wkey w)) ∧ rs !! j = Some (Some r)) ws'.
Proof.
  intros Hr Hrun.
  destruct (interleave_lin _ _ _ _ _ _ _ (lin_inv_init s kvs Hr) Hrun)
    as (ops & rs & es & Hseq & _ & Hhold & _ & Hops & Hws).
  exists ops, rs. do 3 (split; [done|]). split.
  - eapply Forall_impl; [exact Hws|]. intros w Hw e. unfold worker_lin in Hw.
    split; intros Hpc; by rewrite Hpc in Hw.
  - eapply Forall_impl; [exact Hws|]. intros w Hw r. unfold worker_lin in Hw.
    unfold observed. destruct (at_pc w); try done. by intros [= <-].
Qed.

Lemma interleaving_is_sequential_witness :
  reachable (state_after 1 [])
  ∧ interleave squeeze (state_after 1 []) (workers [(1, 10); (2, 20)])
    = Some (squeezed.1, squeezed.2)
  ∧ ∃ ops rs,
      run ops (state_after 1 []) = Some (rs, with_lock false squeezed.1)
      ∧ Forall (call_of [(1, 10); (2, 20)]) ops
      ∧ holders squeezed.2 = Nat.b2n (lock squeezed.1)
      ∧ Forall (λ w, ∀ e, at_pc w ≠ Raising e ∧ at_pc w ≠ Dead e) squeezed.2
      ∧ Forall (λ w, ∀ r, observed w = Some r →
          ∃ j : nat, ops !! j = Some (Get (wkey w)) ∧ rs !! j = Some (Some r))
          squeezed.2.
Proof.
  assert (reachable (state_after 1 [])) as Hr.
  { exists 1, [], []. vm_compute. reflexivity. }
  assert (interleave squeeze (state_after 1 []) (workers [(1, 10); (2, 20)])
          = Some (squeezed.1, squeezed.2)) as Hrun
    by (vm_compute; reflexivity).
  split; [exact Hr|]. split; [exact Hrun|].
  exact (interleaving_is_sequential _ _ _ _ _ Hr Hrun).
Defined.

(** In the interleaving that defeats the first thread, the sequence is
    [put(1, 10); put(2, 20); get(1)], and the miss is what [get(1)] returns
    there. *)
Example squeezed_sequence :
  run [Put 1 10; Put 2 20; Get 1] (state_after 1 [])
  = Some ([None; None; Some (-1)], with_lock false squeezed.1).
Proof. vm_compute. reflexivity. Qed.
